(** * Viewport-interaction and animation-lifecycle engine of [src/js/main.js]

    A shallow embedding of the scroll-lock counter, the debounced resize
    broadcaster, the navigation IntersectionObserver, the hero particle loop
    and the gallery lightbox, with the properties the specification states
    about them.

    Conventions.
    - JavaScript numbers that only ever hold integers (counters, indices,
      pixel sizes reported by the DOM, timer handles) are [Z], frame handles
      (never zero) are [positive]; the particle coordinates and speeds are
      IEEE-754 binary64 values, the kernel's [float].
    - A statement that can raise a [TypeError] (a property read on [null] or
      [undefined]) is a computation in the [result] monad.
    - The browser is the environment: timers, animation frames, observer
      notifications, image events and [Math.random] are events or oracles
      given to the transition functions.
    - Writes that nothing reads back (canvas drawing, most attributes) are
      left out or kept in a log. *)

From Stdlib Require Import ZArith List Bool Lia String Ascii Floats.
From Stdlib Require Import DecimalString DecimalZ DecimalPos.
Import ListNotations.

Set Warnings "-inexact-float".

Open Scope Z_scope.

(** ** Exceptions *)

Inductive result (A : Type) : Type :=
| Ok (a : A)
| Throw (msg : string).
Arguments Ok {A} a.
Arguments Throw {A} msg.

Definition bind {A B : Type} (c : result A) (k : A -> result B) : result B :=
  match c with
  | Ok a => k a
  | Throw m => Throw m
  end.

Notation "x <- c ;; k" := (bind c (fun x => k))
  (at level 61, c at next level, right associativity).


(** A property read or a method call on a reference that may be [null]. *)
Definition deref {A : Type} (what : string) (r : option A) : result A :=
  match r with
  | Some a => Ok a
  | None => Throw ("TypeError: " ++ what ++ " is null")%string
  end.

(** Template-literal rendering of an integer. *)
Definition show_Z (z : Z) : string := NilZero.string_of_int (Z.to_int z).

(** ** Scroll lock (lines 64-80) *)

Module ScrollLock.

(** [scrollLockCount] and the [no-scroll] class of [document.body]. *)
Record page : Type := mkPage {
  scrollLockCount : Z;
  no_scroll : bool
}.

(** The counter starts at 0 and the static page carries no [no-scroll]. *)
Definition init : page := mkPage 0 false.

Definition lockScroll (p : page) : page :=
  let cls := if scrollLockCount p =? 0 then true else no_scroll p in
  mkPage (scrollLockCount p + 1) cls.

Definition unlockScroll (p : page) : page :=
  let c := Z.max 0 (scrollLockCount p - 1) in
  mkPage c (if c =? 0 then false else no_scroll p).

Inductive call : Type := Lock | Unlock.

Definition step (c : call) (p : page) : page :=
  match c with
  | Lock => lockScroll p
  | Unlock => unlockScroll p
  end.

Fixpoint run (cs : list call) (p : page) : page :=
  match cs with
  | [] => p
  | c :: cs' => run cs' (step c p)
  end.

Fixpoint locks (cs : list call) : Z :=
  match cs with
  | [] => 0
  | Lock :: cs' => 1 + locks cs'
  | Unlock :: cs' => locks cs'
  end.

Fixpoint unlocks (cs : list call) : Z :=
  match cs with
  | [] => 0
  | Lock :: cs' => unlocks cs'
  | Unlock :: cs' => 1 + unlocks cs'
  end.

(** The [unlockScroll] calls of [cs] that found the counter at 0. *)
Fixpoint floored (cs : list call) (p : page) : Z :=
  match cs with
  | [] => 0
  | Lock :: cs' => floored cs' (lockScroll p)
  | Unlock :: cs' =>
      (if scrollLockCount p =? 0 then 1 else 0) + floored cs' (unlockScroll p)
  end.

(** No [unlockScroll] of [cs] is called with the counter at 0. *)
Definition paired (cs : list call) (p : page) : Prop := floored cs p = 0.

(** Counter and class agree. *)
Definition consistent (p : page) : Prop :=
  0 <= scrollLockCount p /\ (no_scroll p = true <-> 0 < scrollLockCount p).

End ScrollLock.

(** ** Mobile menu (lines 243-262) *)

Module Menu.

Record state : Type := mkState {
  hamburger_active : bool;     (* class is-active of #hamburger *)
  menu_open : bool;            (* class is-open of #mobileMenu *)
  aria_expanded : bool;
  aria_hidden : bool
}.

Definition init : state := mkState false false false true.

(** [present]: both [#hamburger] and [#mobileMenu] exist. *)
Definition closeMobileMenu (present : bool) (ps : ScrollLock.page * state)
  : ScrollLock.page * state :=
  if negb present then ps
  else (ScrollLock.unlockScroll (fst ps), mkState false false false true).

Definition openMobileMenu (present : bool) (ps : ScrollLock.page * state)
  : ScrollLock.page * state :=
  if negb present then ps
  else (ScrollLock.lockScroll (fst ps), mkState true true true false).

End Menu.

(** ** Gallery lightbox (lines 907-1128) *)

Module Lightbox.

(** A [.gallery__item]: its [img] (resolved [src], [alt]) and the text of
    its caption heading and paragraph, each possibly missing. *)
Record item : Type := mkItem {
  img : option (string * string);
  captionH3 : option string;
  captionP : option string
}.

Record itemData : Type := mkData {
  src : string;
  alt : string;
  caption : string;
  desc : string;
  fullCaption : string
}.

Definition is_digit (c : ascii) : bool :=
  let n := nat_of_ascii c in (48 <=? n)%nat && (n <=? 57)%nat.

Fixpoint drop_digits (s : string) : string :=
  match s with
  | String c s' => if is_digit c then drop_digits s' else s
  | EmptyString => EmptyString
  end.

Definition starts_with_digit (s : string) : bool :=
  match s with
  | String c _ => is_digit c
  | EmptyString => false
  end.

(** [s.replace(/([?&])k=\d+/, '$1k=' + v)]: the leftmost match only. *)
Fixpoint replace_param (k : ascii) (v : string) (s : string) : string :=
  match s with
  | EmptyString => EmptyString
  | String c s' =>
      let matched :=
        match s' with
        | String k' (String eq rest) =>
            if (Ascii.eqb c "?" || Ascii.eqb c "&")
               && Ascii.eqb k' k && Ascii.eqb eq "="
               && starts_with_digit rest
            then Some (drop_digits rest) else None
        | _ => None
        end in
      match matched with
      | Some rest' => String c (String k (String "=" (v ++ rest')%string))
      | None => String c (replace_param k v s')
      end
  end.

Definition toFullSizeUrl (thumbUrl : string) : string :=
  replace_param "h" "800"%string (replace_param "w" "1200"%string thumbUrl).

Definition is_empty (s : string) : bool :=
  match s with EmptyString => true | _ => false end.

(** [getItemData(item)]. [$] is [(selector, context = document) => ...]:
    for [item === undefined] the default applies and the three look-ups
    search the whole document; [doc] is what they find there. *)
Definition getItemData (doc : item) (it : option item) : result itemData :=
  let i := match it with Some i => i | None => doc end in
  let caption := match captionH3 i with Some t => t | None => EmptyString end in
  let desc := match captionP i with Some t => t | None => EmptyString end in
  Ok (mkData
        (match img i with Some (s, _) => toFullSizeUrl s | None => EmptyString end)
        (match img i with Some (_, a) => a | None => EmptyString end)
        caption desc
        (caption ++ (if is_empty desc then EmptyString else " — " ++ desc)))%string.

(** What [initLightbox] closes over. *)
Record env : Type := mkEnv {
  hasGSAP : bool;
  galleryItems : list item;
  hasCounter : bool;             (* #lightboxCounter exists *)
  documentItem : item            (* the first [img], caption [h3] and caption
                                    [p] of the whole document *)
}.

Definition length_of (e : env) : Z := Z.of_nat (List.length (galleryItems e)).

(** [galleryItems[i]]. *)
Definition item_at (e : env) (i : Z) : option item :=
  if i <? 0 then None else nth_error (galleryItems e) (Z.to_nat i).

Inductive visual : Type :=
  | Cleared        (* no inline opacity / scale *)
  | FadingOut      (* tween to opacity 0, scale 0.95 *)
  | FadedIn.       (* tween or style to opacity 1, scale 1 *)

Inductive focused : Type :=
  | FocusElsewhere
  | FocusClose
  | FocusItem (i : Z).

Record state : Type := mkState {
  currentIndex : Z;
  isOpen : bool;                 (* class is-open of #lightbox *)
  ariaHidden : bool;
  imgSrc : string;
  imgAlt : string;
  capText : string;
  counterText : string;
  imgVisual : visual;
  onLoad : bool;                 (* fadeInLightboxImage listens to load *)
  onError : bool;                (* fadeInLightboxImage listens to error *)
  fadeOut : option itemData;     (* running fade-out tween and the data its
                                    onComplete closes over *)
  shown : list string;           (* ghost: the src on display at every call
                                    of fadeInLightboxImage *)
  focus : focused
}.

Definition init : state :=
  mkState 0 false true EmptyString EmptyString EmptyString EmptyString
    Cleared false false None [] FocusElsewhere.

Definition with_index (i : Z) (s : state) : state :=
  mkState i (isOpen s) (ariaHidden s) (imgSrc s) (imgAlt s) (capText s)
    (counterText s) (imgVisual s) (onLoad s) (onError s) (fadeOut s)
    (shown s) (focus s).

Definition with_open (o h : bool) (s : state) : state :=
  mkState (currentIndex s) o h (imgSrc s) (imgAlt s) (capText s)
    (counterText s) (imgVisual s) (onLoad s) (onError s) (fadeOut s)
    (shown s) (focus s).

Definition with_src (v : string) (s : state) : state :=
  mkState (currentIndex s) (isOpen s) (ariaHidden s) v (imgAlt s) (capText s)
    (counterText s) (imgVisual s) (onLoad s) (onError s) (fadeOut s)
    (shown s) (focus s).

Definition with_text (a c : string) (s : state) : state :=
  mkState (currentIndex s) (isOpen s) (ariaHidden s) (imgSrc s) a c
    (counterText s) (imgVisual s) (onLoad s) (onError s) (fadeOut s)
    (shown s) (focus s).

Definition with_counter (c : string) (s : state) : state :=
  mkState (currentIndex s) (isOpen s) (ariaHidden s) (imgSrc s) (imgAlt s)
    (capText s) c (imgVisual s) (onLoad s) (onError s) (fadeOut s)
    (shown s) (focus s).

Definition with_visual (v : visual) (s : state) : state :=
  mkState (currentIndex s) (isOpen s) (ariaHidden s) (imgSrc s) (imgAlt s)
    (capText s) (counterText s) v (onLoad s) (onError s) (fadeOut s)
    (shown s) (focus s).

Definition with_listeners (l r : bool) (s : state) : state :=
  mkState (currentIndex s) (isOpen s) (ariaHidden s) (imgSrc s) (imgAlt s)
    (capText s) (counterText s) (imgVisual s) l r (fadeOut s)
    (shown s) (focus s).

Definition with_fadeOut (t : option itemData) (s : state) : state :=
  mkState (currentIndex s) (isOpen s) (ariaHidden s) (imgSrc s) (imgAlt s)
    (capText s) (counterText s) (imgVisual s) (onLoad s) (onError s) t
    (shown s) (focus s).

Definition with_shown (l : list string) (s : state) : state :=
  mkState (currentIndex s) (isOpen s) (ariaHidden s) (imgSrc s) (imgAlt s)
    (capText s) (counterText s) (imgVisual s) (onLoad s) (onError s)
    (fadeOut s) l (focus s).

Definition with_focus (f : focused) (s : state) : state :=
  mkState (currentIndex s) (isOpen s) (ariaHidden s) (imgSrc s) (imgAlt s)
    (capText s) (counterText s) (imgVisual s) (onLoad s) (onError s)
    (fadeOut s) (shown s) f.

Definition updateCounter (e : env) (s : state) : state :=
  if hasCounter e
  then with_counter
         (show_Z (currentIndex s + 1) ++ " / " ++ show_Z (length_of e))%string s
  else s.

Definition openLightbox (e : env) (index : Z)
  (ps : ScrollLock.page * state) : result (ScrollLock.page * state) :=
  let s := with_index index (snd ps) in
  data <- getItemData (documentItem e) (item_at e (currentIndex s)) ;;
  let s := with_src (src data) s in
  let s := with_text (alt data) (fullCaption data) s in
  let s := updateCounter e s in
  let s := with_open true false s in
  let p := ScrollLock.lockScroll (fst ps) in
  Ok (p, with_focus FocusClose s).

Definition closeLightbox (e : env) (ps : ScrollLock.page * state)
  : ScrollLock.page * state :=
  let s := snd ps in
  let s := if hasGSAP e
           then with_visual Cleared (with_fadeOut None s)  (* killTweensOf; clearProps *)
           else with_visual Cleared s in
  let s := with_open false true s in
  let p := ScrollLock.unlockScroll (fst ps) in
  (p, match item_at e (currentIndex s) with
      | Some _ => with_focus (FocusItem (currentIndex s)) s
      | None => s
      end).

Definition fadeInLightboxImage (s : state) : state :=
  with_shown (shown s ++ [imgSrc s]) (with_visual FadedIn s).

(** The [onComplete] of the fade-out tween; [complete] is what
    [lightboxImg.complete] reads right after the assignment of [src]. *)
Definition onComplete (e : env) (data : itemData) (complete : bool)
  (s : state) : state :=
  let s := with_fadeOut None s in
  let s := with_text (alt data) (fullCaption data) s in
  let s := updateCounter e s in
  let s := with_listeners false false s in
  let s := with_listeners true true s in
  let s := with_src (src data) s in
  if complete
  then fadeInLightboxImage (with_listeners false false s)
  else s.

Definition updateLightboxContent (e : env) (s : state) : result state :=
  data <- getItemData (documentItem e) (item_at e (currentIndex s)) ;;
  if negb (hasGSAP e)
  then Ok (updateCounter e
             (with_text (alt data) (fullCaption data) (with_src (src data) s)))
  else
    let s := with_fadeOut None s in               (* gsap.killTweensOf *)
    Ok (with_visual FadingOut (with_fadeOut (Some data) s)).

Definition showPrev (e : env) (s : state) : result state :=
  updateLightboxContent e
    (with_index (Z.rem (currentIndex s - 1 + length_of e) (length_of e)) s).

Definition showNext (e : env) (s : state) : result state :=
  updateLightboxContent e
    (with_index (Z.rem (currentIndex s + 1) (length_of e)) s).

(** What can happen to an initialised lightbox. *)
Inductive event : Type :=
  | Open (i : Z)
  | Close
  | Prev
  | Next
  | TweenDone (complete : bool)    (* the fade-out tween reaches its end *)
  | ImgLoad                        (* load fires on #lightboxImage *)
  | ImgError.                      (* error fires on #lightboxImage *)

Definition step (e : env) (ev : event) (ps : ScrollLock.page * state)
  : result (ScrollLock.page * state) :=
  let p := fst ps in
  let s := snd ps in
  match ev with
  | Open i => openLightbox e i ps
  | Close => Ok (closeLightbox e ps)
  | Prev => s' <- showPrev e s ;; Ok (p, s')
  | Next => s' <- showNext e s ;; Ok (p, s')
  | TweenDone c =>
      match fadeOut s with
      | Some d => Ok (p, onComplete e d c s)
      | None => Ok ps
      end
  | ImgLoad =>
      if onLoad s
      then Ok (p, fadeInLightboxImage (with_listeners false (onError s) s))
      else Ok ps
  | ImgError =>
      if onError s
      then Ok (p, fadeInLightboxImage (with_listeners (onLoad s) false s))
      else Ok ps
  end.

Fixpoint run (e : env) (evs : list event) (ps : ScrollLock.page * state)
  : result (ScrollLock.page * state) :=
  match evs with
  | [] => Ok ps
  | ev :: evs' => ps' <- step e ev ps ;; run e evs' ps'
  end.

End Lightbox.

(** ** Debounced resize broadcast (lines 296-312) *)

Module Resize.

Section Broadcaster.

(** [W] is whatever the registered callbacks act on, [cb] names a registered
    callback and [invoke] runs it. *)
Variable W : Type.
Variable cb : Type.
Variable invoke : cb -> W -> W.

(** The browser's timer table: the current time in ms, the next handle, and
    the pending timeouts as (handle, due time), oldest first. *)
Record timers : Type := mkTimers {
  now : Z;
  nextTimer : Z;
  pending : list (Z * Z)
}.

Record state : Type := mkState {
  clock : timers;
  resizeTimer : option Z;
  resizeCallbacks : list cb;
  world : W;
  calls : list (Z * cb);       (* ghost: time and callback of every call *)
  broadcasts : list Z          (* ghost: time of every broadcast *)
}.

Definition setTimeout (delay : Z) (t : timers) : Z * timers :=
  (nextTimer t,
   mkTimers (now t) (nextTimer t + 1) (pending t ++ [(nextTimer t, now t + delay)])).

Definition clearTimeout (h : option Z) (t : timers) : timers :=
  match h with
  | None => t
  | Some id =>
      mkTimers (now t) (nextTimer t)
        (filter (fun e => negb (fst e =? id)) (pending t))
  end.

Definition onResize (callback : cb) (s : state) : state :=
  mkState (clock s) (resizeTimer s) (resizeCallbacks s ++ [callback])
    (world s) (calls s) (broadcasts s).

(** The listener of the window's [resize] event. *)
Definition on_resize_event (s : state) : state :=
  let c := clearTimeout (resizeTimer s) (clock s) in
  let (id, c') := setTimeout 200 c in
  mkState c' (Some id) (resizeCallbacks s) (world s) (calls s) (broadcasts s).

(** The timeout's callback, run at time [t]:
    [resizeCallbacks.forEach((cb) => cb())]. *)
Definition broadcast (t : Z) (s : state) : state :=
  mkState (clock s) (resizeTimer s) (resizeCallbacks s)
    (fold_left (fun w c => invoke c w) (resizeCallbacks s) (world s))
    (calls s ++ map (fun c => (t, c)) (resizeCallbacks s))
    (broadcasts s ++ [t]).

Fixpoint fire_due (t : Z) (due : list (Z * Z)) (s : state) : state :=
  match due with
  | [] => s
  | (_, d) :: rest => fire_due t rest (if d <=? t then broadcast d s else s)
  end.

(** Time passes until [t]: every timeout due by then runs, at its due time. *)
Definition advance (t : Z) (s : state) : state :=
  let s' := fire_due t (pending (clock s)) s in
  mkState
    (mkTimers (Z.max t (now (clock s))) (nextTimer (clock s))
       (filter (fun e => negb (snd e <=? t)) (pending (clock s))))
    (resizeTimer s') (resizeCallbacks s') (world s') (calls s') (broadcasts s').

(** Resize events arriving at the times [ts]. *)
Fixpoint signals (ts : list Z) (s : state) : state :=
  match ts with
  | [] => s
  | t :: rest => signals rest (on_resize_event (advance t s))
  end.

End Broadcaster.

Arguments mkState {W cb} clock resizeTimer resizeCallbacks world calls broadcasts.
Arguments clock {W cb} s.
Arguments resizeTimer {W cb} s.
Arguments resizeCallbacks {W cb} s.
Arguments world {W cb} s.
Arguments calls {W cb} s.
Arguments broadcasts {W cb} s.
Arguments onResize {W cb} callback s.
Arguments on_resize_event {W cb} s.
Arguments broadcast {W cb} invoke t s.
Arguments fire_due {W cb} invoke t due s.
Arguments advance {W cb} invoke t s.
Arguments signals {W cb} invoke ts s.

(** Each signal of [ts] comes less than 200 ms after the one before it, the
    first one after [t]. *)
Fixpoint burst_from (t : Z) (ts : list Z) : Prop :=
  match ts with
  | [] => True
  | t' :: rest => t <= t' < t + 200 /\ burst_from t' rest
  end.

Definition burst (ts : list Z) : Prop :=
  match ts with
  | [] => False
  | t :: rest => burst_from t rest
  end.

End Resize.

(** ** Navigation observer (lines 202-233, 314-322) *)

Module Nav.

Definition NAV_SECTION_IDS : list string :=
  ["about"; "topics"; "exhibition"; "access"]%string.

Record options : Type := mkOptions {
  root : option string;          (* null: the viewport *)
  rootMargin : string;
  threshold : Z
}.

Record observer : Type := mkObserver {
  oid : Z;
  opts : options;
  targets : list string          (* ids of the observed sections, in order *)
}.

Record state : Type := mkState {
  headerHeight : Z;
  navObserver : option observer;
  disconnected : list observer;  (* observers after disconnect(), newest first *)
  created : Z                    (* observers constructed so far *)
}.

(** [let headerHeight = els.header?.offsetHeight ?? 80]. *)
Definition init (header : option Z) : state :=
  mkState (match header with Some h => h | None => 80 end) None [] 0.

Definition margin_of (h : Z) : string :=
  ("-" ++ show_Z h ++ "px 0px -40% 0px")%string.

(** [present id]: [document.getElementById(id)] is not null. *)
Definition initNavObserver (present : string -> bool) (s : state) : state :=
  let gone := match navObserver s with
              | Some o => o :: disconnected s
              | None => disconnected s
              end in
  let o := mkObserver (created s)
             (mkOptions None (margin_of (headerHeight s)) 0) [] in
  let o := fold_left
             (fun o id => if present id
                          then mkObserver (oid o) (opts o) (targets o ++ [id])
                          else o)
             NAV_SECTION_IDS o in
  mkState (headerHeight s) (Some o) gone (created s + 1).

(** The first resize callback; [header] is [els.header] with the
    [offsetHeight] it reports now. *)
Definition on_resize (header : option Z) (present : string -> bool)
  (s : state) : state :=
  match header with
  | None => s
  | Some newHeight =>
      if negb (newHeight =? headerHeight s)
      then initNavObserver present
             (mkState newHeight (navObserver s) (disconnected s) (created s))
      else s
  end.

Fixpoint resizes (hs : list Z) (present : string -> bool) (s : state) : state :=
  match hs with
  | [] => s
  | h :: rest => resizes rest present (on_resize (Some h) present s)
  end.

(** The observer in use is the one created last and has the options
    [initNavObserver] gives for the current [headerHeight]. *)
Definition configured (s : state) : Prop :=
  exists o,
    navObserver s = Some o
    /\ opts o = mkOptions None (margin_of (headerHeight s)) 0
    /\ oid o = created s - 1.

(** How the browser reads a [rootMargin]: lengths in px or percent,
    separated by spaces. *)
Inductive length : Type :=
| Px (n : Z)
| Percent (n : Z).

Fixpoint split_spaces (s : string) : list string :=
  match s with
  | EmptyString => [EmptyString]
  | String c s' =>
      if Ascii.eqb c " " then EmptyString :: split_spaces s'
      else match split_spaces s' with
           | t :: ts => String c t :: ts
           | [] => [String c EmptyString]
           end
  end.

Fixpoint chop_suffix (suffix s : string) : option string :=
  if String.eqb s suffix then Some EmptyString
  else match s with
       | EmptyString => None
       | String c s' => option_map (String c) (chop_suffix suffix s')
       end.

Definition parse_int (s : string) : option Z :=
  option_map Z.of_int (NilZero.int_of_string s).

Definition parse_length (s : string) : option length :=
  match chop_suffix "px" s with
  | Some n => option_map Px (parse_int n)
  | None =>
      match chop_suffix "%" s with
      | Some n => option_map Percent (parse_int n)
      | None => None
      end
  end.

Fixpoint parse_all (ts : list string) : option (list length) :=
  match ts with
  | [] => Some []
  | t :: rest =>
      match parse_length t, parse_all rest with
      | Some l, Some ls => Some (l :: ls)
      | _, _ => None
      end
  end.

Definition parse_margin (s : string) : option (list length) :=
  parse_all (split_spaces s).

End Nav.

(** ** Hero particles (lines 728-852) *)

Module Particles.

Local Open Scope float_scope.

(** An integer-valued JavaScript number as a binary64 value. *)
Definition Z2F (z : Z) : float :=
  if (z <? 0)%Z
  then - PrimFloat.of_uint63 (Uint63.of_Z (- z))
  else PrimFloat.of_uint63 (Uint63.of_Z z).

(** [Math.floor] of a finite number, as an integer. *)
Definition floor_to_Z (f : float) : option Z :=
  match Prim2SF f with
  | S754_zero _ => Some 0%Z
  | S754_finite s m e =>
      let lo := if (0 <=? e)%Z then (Z.pos m * 2 ^ e)%Z
                else (Z.pos m / 2 ^ (- e))%Z in
      let hi := if (0 <=? e)%Z then (Z.pos m * 2 ^ e)%Z
                else ((Z.pos m + 2 ^ (- e) - 1) / 2 ^ (- e))%Z in
      Some (if s then (- hi)%Z else lo)
  | _ => None
  end.

Record particle : Type := mkParticle {
  x : float;
  y : float;
  size : float;
  speedX : float;
  speedY : float;
  color : option string;         (* None: undefined *)
  opacity : float;
  twinkle : float;
  twinkleSpeed : float
}.

Definition COLORS : list string :=
  ["rgba(197, 165, 90, 0.8)";
   "rgba(212, 186, 122, 0.6)";
   "rgba(158, 131, 62, 0.7)";
   "rgba(255, 215, 0, 0.5)";
   "rgba(218, 165, 32, 0.6)"]%string.

Definition PI : float := 3.141592653589793.

(** [Math.min(Math.floor(window.innerWidth / 15), 80)]; [innerWidth] is a
    non-negative integer, for which the quotient's floor is the integer
    quotient (see [calcParticleCount_as_floats]). *)
Definition calcParticleCount (innerWidth : Z) : Z :=
  Z.min (innerWidth / 15) 80.

(** The same expression evaluated in binary64 arithmetic. *)
Definition calcParticleCount_float (innerWidth : Z) : option Z :=
  option_map (fun q => Z.min q 80) (floor_to_Z (Z2F innerWidth / 15)).

(** What the closures of [initHeroParticles] share, with the browser's list
    of animation-frame callbacks for the next frame. [random n] is the value
    of the [n]-th call of [Math.random]. *)
Record state : Type := mkState {
  canvasWidth : Z;
  canvasHeight : Z;
  particles : list particle;
  animId : option positive;      (* a frame handle is a non-zero integer *)
  particleCount : Z;
  isHeroVisible : bool;
  draws : nat;                   (* calls of Math.random so far *)
  frames : list positive;        (* handles of the pending frame requests *)
  nextFrame : positive           (* the handle the next request gets *)
}.

(** Assignments to the shared variables. *)
Definition set_canvas (w h : Z) (s : state) : state :=
  mkState w h (particles s) (animId s) (particleCount s)
    (isHeroVisible s) (draws s) (frames s) (nextFrame s).

Definition set_particles (ps : list particle) (k : nat) (s : state) : state :=
  mkState (canvasWidth s) (canvasHeight s) ps (animId s) (particleCount s)
    (isHeroVisible s) k (frames s) (nextFrame s).

Definition set_animId (a : option positive) (s : state) : state :=
  mkState (canvasWidth s) (canvasHeight s) (particles s) a (particleCount s)
    (isHeroVisible s) (draws s) (frames s) (nextFrame s).

Definition set_particleCount (n : Z) (s : state) : state :=
  mkState (canvasWidth s) (canvasHeight s) (particles s) (animId s) n
    (isHeroVisible s) (draws s) (frames s) (nextFrame s).

Definition set_visible (b : bool) (s : state) : state :=
  mkState (canvasWidth s) (canvasHeight s) (particles s) (animId s)
    (particleCount s) b (draws s) (frames s) (nextFrame s).

Definition set_frames (l : list positive) (s : state) : state :=
  mkState (canvasWidth s) (canvasHeight s) (particles s) (animId s)
    (particleCount s) (isHeroVisible s) (draws s) l (nextFrame s).

(** The browser's [requestAnimationFrame(animate)]: the handle it returns
    and the state with the request queued. *)
Definition requestAnimationFrame (s : state) : positive * state :=
  (nextFrame s,
   mkState (canvasWidth s) (canvasHeight s) (particles s) (animId s)
     (particleCount s) (isHeroVisible s) (draws s)
     (frames s ++ [nextFrame s]) (Pos.succ (nextFrame s))).

Definition cancelAnimationFrame (h : positive) (s : state) : state :=
  set_frames (filter (fun h' => negb (h' =? h)%positive) (frames s)) s.

Section WithRandom.

Variable random : nat -> float.

(** [createParticle()], reading [Math.random] from call [k] on. *)
Definition createParticle (w h : Z) (k : nat) : particle :=
  mkParticle
    (random k * Z2F w)
    (random (k + 1) * Z2F h)
    (random (k + 2) * 2.5 + 0.5)
    ((random (k + 3) - 0.5) * 0.4)
    (- random (k + 4) * 0.3 - 0.1)
    (match floor_to_Z (random (k + 5) * Z2F (Z.of_nat (List.length COLORS))) with
     | Some i => if (i <? 0)%Z then None else nth_error COLORS (Z.to_nat i)
     | None => None
     end)
    (random (k + 6) * 0.5 + 0.3)
    (random (k + 7) * PI * 2)
    (random (k + 8) * 0.02 + 0.005).

(** The loop of [initParticles]: [n] particles pushed on an empty array. *)
Fixpoint createParticles (w h : Z) (n : nat) (k : nat) : list particle :=
  match n with
  | O => []
  | S n' => createParticle w h k :: createParticles w h n' (k + 9)
  end.

Definition resizeCanvas (offsetWidth offsetHeight : Z) (s : state) : state :=
  set_canvas offsetWidth offsetHeight s.

Definition initParticles (s : state) : state :=
  let n := Z.to_nat (particleCount s) in
  set_particles
    (createParticles (canvasWidth s) (canvasHeight s) n (draws s))
    (draws s + 9 * n) s.

(** The body of [particles.forEach] in [animate], without the drawing (the
    canvas is only written to); the result carries the number of
    [Math.random] calls after it. *)
Definition move (w h : Z) (pk : particle * nat) : particle * nat :=
  let (p, k) := pk in
  let x1 := x p + speedX p in
  let y1 := y p + speedY p in
  let t1 := twinkle p + twinkleSpeed p in
  let '(x2, y2, k2) :=
    if y1 <? -10 then (random k * Z2F w, Z2F h + 10, S k) else (x1, y1, k) in
  let x3 := if x2 <? -10 then Z2F w + 10 else x2 in
  let x4 := if Z2F w + 10 <? x3 then -10 else x3 in
  (mkParticle x4 y2 (size p) (speedX p) (speedY p) (color p) (opacity p)
     t1 (twinkleSpeed p), k2).

Fixpoint move_all (w h : Z) (ps : list particle) (k : nat)
  : list particle * nat :=
  match ps with
  | [] => ([], k)
  | p :: rest =>
      let (p', k1) := move w h (p, k) in
      let (rest', k2) := move_all w h rest k1 in
      (p' :: rest', k2)
  end.

Definition animate (s : state) : state :=
  if negb (isHeroVisible s)
  then set_animId None s
  else
    let moved := move_all (canvasWidth s) (canvasHeight s) (particles s) (draws s) in
    let s := set_particles (fst moved) (snd moved) s in
    let (id, s) := requestAnimationFrame s in
    set_animId (Some id) s.

(** The callback of the hero section's IntersectionObserver. *)
Definition on_intersection (isIntersecting : bool) (s : state) : state :=
  let wasVisible := isHeroVisible s in
  let s := set_visible isIntersecting s in
  if negb wasVisible && isHeroVisible s then animate s else s.

(** The resize callback; the arguments are what [canvas.offsetWidth],
    [canvas.offsetHeight] and [window.innerWidth] read when it runs. *)
Definition on_resize (offsetWidth offsetHeight innerWidth : Z) (s : state)
  : state :=
  let s := match animId s with
           | Some h => cancelAnimationFrame h s
           | None => s
           end in
  let s := resizeCanvas offsetWidth offsetHeight s in
  let s := set_particleCount (calcParticleCount innerWidth) s in
  let s := initParticles s in
  if isHeroVisible s then animate s else s.

(** The browser runs the frame callbacks requested since the last frame;
    each of them is [animate]. *)
Definition on_frame (s : state) : state :=
  fold_left (fun s _ => animate s) (frames s) (set_frames [] s).

(** The body of [initHeroParticles] once the canvas is known to exist, up to
    the first call of [animate]. *)
Definition start (offsetWidth offsetHeight innerWidth : Z) : state :=
  let s := mkState 0 0 [] None (calcParticleCount innerWidth) true 0 []
             1%positive in
  animate (initParticles (resizeCanvas offsetWidth offsetHeight s)).

Inductive event : Type :=
| Frame
| Intersecting (b : bool)
| Resized (offsetWidth offsetHeight innerWidth : Z).

Definition step (ev : event) (s : state) : state :=
  match ev with
  | Frame => on_frame s
  | Intersecting b => on_intersection b s
  | Resized w h iw => on_resize w h iw s
  end.

Fixpoint run (evs : list event) (s : state) : state :=
  match evs with
  | [] => s
  | ev :: rest => run rest (step ev s)
  end.

End WithRandom.


(** Every pending frame request is the one [animId] holds, and its handle
    is older than the next one. *)
Definition tracked (s : state) : Prop :=
  forall h, In h (frames s) -> animId s = Some h /\ (h < nextFrame s)%positive.

(** A schedule in which, whenever the section is reported visible again, a
    frame has run or a resize was broadcast since it was reported hidden.
    [visible] and [inflight] describe the loop before [evs]: the section's
    visibility, and whether the section went hidden with a frame request
    that has neither run nor been cancelled since. *)
Fixpoint settled (visible inflight : bool) (evs : list event) : bool :=
  match evs with
  | [] => true
  | Frame :: rest => settled visible false rest
  | Resized _ _ _ :: rest => settled visible false rest
  | Intersecting false :: rest =>
      settled false (if visible then true else inflight) rest
  | Intersecting true :: rest =>
      if visible then settled true inflight rest
      else negb inflight && settled true false rest
  end.

(** What the loop keeps true along a settled schedule. *)
Definition chain_inv (visible inflight : bool) (s : state) : Prop :=
  isHeroVisible s = visible
  /\ tracked s
  /\ (List.length (frames s) <= 1)%nat
  /\ (visible = false -> inflight = false -> frames s = []).

End Particles.

(** ** Page initialisation: optional elements *)

Module Page.

Local Open Scope string_scope.

(** The document as the script finds it: which of the elements it looks up
    exist, with the measurements it reads from them. *)
Record dom : Type := mkDom {
  header : option Z;                     (* #header and its offsetHeight *)
  hamburger : bool;
  mobileMenu : bool;
  has_section : string -> bool;          (* getElementById(id) is not null *)
  lightbox : bool;
  lightboxImg : bool;
  lightboxCap : bool;
  lightboxClose : bool;
  lightboxPrev : bool;
  lightboxNext : bool;
  lightboxCounter : bool;
  lightboxOverlay : bool;
  gallery : list Lightbox.item;          (* $$('.gallery__item') *)
  documentItem : Lightbox.item;          (* the first img, caption h3 and
                                            caption p of the document *)
  heroParticles : option (Z * Z);        (* the canvas: offsetWidth, offsetHeight *)
  hero : bool;
  observerInWindow : bool;               (* 'IntersectionObserver' in window *)
  innerWidth : Z;
  hasGSAP : bool;
  prefersReducedMotion : bool;
  random : nat -> float                  (* Math.random *)
}.

(** [$(selector)]: the element, named by its selector, or null. *)
Definition query (found : bool) (selector : string) : option string :=
  if found then Some selector else None.

Definition is_null {A : Type} (r : option A) : bool :=
  match r with Some _ => false | None => true end.

Inductive effect : Type :=
| Listen (target event : string)
| SetAttribute (target name value : string).

(** What the resize callbacks and the event handlers act on. *)
Record components : Type := mkComponents {
  scroll : ScrollLock.page;
  menu : Menu.state;
  nav : Nav.state;
  particles : option Particles.state;    (* None: the loop was never set up *)
  heroObserved : bool;
  box : option (Lightbox.env * Lightbox.state);
  effects : list effect                  (* listeners and attributes set *)
}.

Inductive callback : Type :=
| HeaderHeight       (* lines 315-322 *)
| ParticleResize.    (* lines 845-851 *)

Definition page : Type := Resize.state components callback.

Definition log (e : effect) (w : components) : components :=
  mkComponents (scroll w) (menu w) (nav w) (particles w) (heroObserved w)
    (box w) (effects w ++ [e])%list.

(** [target.addEventListener(event, ...)]. *)
Definition addEventListener (target : option string) (event : string)
  (w : components) : result components :=
  t <- deref "addEventListener target" target ;;
  Ok (log (Listen t event) w).

(** [target?.addEventListener(event, ...)]. *)
Definition addEventListener_opt (target : option string) (event : string)
  (w : components) : result components :=
  match target with
  | Some _ => addEventListener target event w
  | None => Ok w
  end.

Definition setAttribute (target : option string) (name value : string)
  (w : components) : result components :=
  t <- deref "setAttribute target" target ;;
  Ok (log (SetAttribute t name value) w).

(** The body of [galleryItems.forEach((item, i) => ...)]. *)
Fixpoint setup_items (items : list Lightbox.item) (i : Z) (w : components)
  : result components :=
  match items with
  | [] => Ok w
  | it :: rest =>
      let el := Some (".gallery__item:" ++ show_Z i) in
      let label := match Lightbox.captionH3 it with
                   | Some t => t
                   | None => EmptyString
                   end in
      w <- setAttribute el "tabindex" "0" w ;;
      w <- setAttribute el "role" "button" w ;;
      w <- setAttribute el "aria-label" (label ++ " を拡大表示") w ;;
      w <- addEventListener el "click" w ;;
      w <- addEventListener el "keydown" w ;;
      setup_items rest (i + 1) w
  end.

Definition initLightbox (d : dom) (w : components) : result components :=
  let lightbox := query (lightbox d) "#lightbox" in
  let lightboxImg := query (lightboxImg d) "#lightboxImage" in
  let lightboxCap := query (lightboxCap d) "#lightboxCaption" in
  let lightboxClose := query (lightboxClose d) "#lightboxClose" in
  let lightboxPrev := query (lightboxPrev d) "#lightboxPrev" in
  let lightboxNext := query (lightboxNext d) "#lightboxNext" in
  if is_null lightbox || is_null lightboxImg || is_null lightboxCap
     || is_null lightboxClose || is_null lightboxPrev || is_null lightboxNext
  then Ok w
  else
    let galleryItems := gallery d in
    if (List.length galleryItems =? 0)%nat then Ok w
    else
      let e := Lightbox.mkEnv (hasGSAP d) galleryItems (lightboxCounter d)
                 (documentItem d) in
      let w := mkComponents (scroll w) (menu w) (nav w) (particles w)
                 (heroObserved w) (Some (e, Lightbox.init)) (effects w) in
      w <- setup_items galleryItems 0 w ;;
      w <- addEventListener lightboxClose "click" w ;;
      w <- addEventListener_opt
             (query (lightboxOverlay d) ".lightbox__overlay") "click" w ;;
      w <- addEventListener lightboxPrev "click" w ;;
      w <- addEventListener lightboxNext "click" w ;;
      w <- addEventListener (Some "document") "keydown" w ;;
      addEventListener lightbox "keydown" w.

Definition on_world (f : components -> components) (p : page) : page :=
  Resize.mkState (Resize.clock p) (Resize.resizeTimer p)
    (Resize.resizeCallbacks p) (f (Resize.world p)) (Resize.calls p)
    (Resize.broadcasts p).

Definition initHeroParticles (d : dom) (p : page) : result page :=
  if prefersReducedMotion d then Ok p
  else
    let canvas := heroParticles d in
    if is_null canvas then Ok p
    else
      c <- deref "canvas" canvas ;;
      let st := Particles.start (random d) (fst c) (snd c) (innerWidth d) in
      let heroSection := query (hero d) "hero" in
      let observed := negb (is_null heroSection) && observerInWindow d in
      let p := on_world
                 (fun w => mkComponents (scroll w) (menu w) (nav w) (Some st)
                             observed (box w) (effects w)) p in
      Ok (Resize.onResize ParticleResize p).

(** The callbacks behind the names, reading the document as it is when the
    broadcast runs. They are registered by a top level that has run to its
    end, so [IntersectionObserver] is defined when the first one calls
    [initNavObserver]. *)
Definition invoke (d : dom) (c : callback) (w : components) : components :=
  match c with
  | HeaderHeight =>
      mkComponents (scroll w) (menu w)
        (Nav.on_resize (header d) (has_section d) (nav w))
        (particles w) (heroObserved w) (box w) (effects w)
  | ParticleResize =>
      match particles w, heroParticles d with
      | Some st, Some (ow, oh) =>
          mkComponents (scroll w) (menu w) (nav w)
            (Some (Particles.on_resize (random d) ow oh (innerWidth d) st))
            (heroObserved w) (box w) (effects w)
      | _, _ => w
      end
  end.

(** [initNavObserver()] in the document [d]: [new IntersectionObserver] is
    not guarded (line 214), so where the browser does not define it the
    call throws a ReferenceError. *)
Definition initNavObserver (d : dom) (s : Nav.state) : result Nav.state :=
  if observerInWindow d
  then Ok (Nav.initNavObserver (has_section d) s)
  else Throw "ReferenceError: IntersectionObserver is not defined".

(** The part of the script's top level that sets up the components above,
    in the order of the source: the navigation observer (line 233), the
    menu's listeners, the resize listener with the header callback, the
    lightbox. An exception ends the script. *)
Definition main (d : dom) : result page :=
  n <- initNavObserver d (Nav.init (header d)) ;;
  let w := mkComponents ScrollLock.init Menu.init n None false None [] in
  w <- addEventListener_opt (query (hamburger d) "#hamburger") "click" w ;;
  w <- addEventListener_opt (query (mobileMenu d) "#mobileMenu") "click" w ;;
  w <- addEventListener (Some "document") "keydown" w ;;
  w <- addEventListener (Some "window") "resize" w ;;
  let p := Resize.onResize HeaderHeight
             (Resize.mkState (Resize.mkTimers 0 1 []) None [] w [] []) in
  w <- initLightbox d (Resize.world p) ;;
  Ok (on_world (fun _ => w) p).

(** [completeLoading], as far as the hero particles are concerned. *)
Definition completeLoading (d : dom) (p : page) : result page :=
  if negb (hasGSAP d) then Ok p else initHeroParticles d p.

(** A document with none of the optional elements. *)
Definition bare : dom :=
  mkDom None false false (fun _ => false) false false false false false false
    false false [] (Lightbox.mkItem None None None) None false true 1280 true
    false (fun _ => 0%float).

End Page.

(** ** Sample inputs and auxiliary notions *)

(** A gallery whose items have the given image addresses (address, alt text
    and caption all equal). *)
Definition gallery_of (srcs : list string) : list Lightbox.item :=
  map (fun u => Lightbox.mkItem (Some (u, u)) (Some u) None) srcs.

Definition three_items : Lightbox.env :=
  Lightbox.mkEnv true (gallery_of ["a"; "b"; "c"]%string) true
    (Lightbox.mkItem (Some ("logo", "logo")) (Some "a") None)%string.

Definition five_items : Lightbox.env :=
  Lightbox.mkEnv true (gallery_of ["a"; "b"; "c"; "d"; "e"]%string) true
    (Lightbox.mkItem (Some ("logo", "logo")) (Some "a") None)%string.

(** A fixed sequence of values in [0, 1) standing for [Math.random]. *)
Definition sample_random (n : nat) : float :=
  (PrimFloat.of_uint63 (Uint63.of_Z (Z.of_nat (n * 37 mod 100))) / 100)%float.

Fixpoint no_space (s : string) : bool :=
  match s with
  | EmptyString => true
  | String c s' => negb (Ascii.eqb c " ") && no_space s'
  end.

(** The six elements [initLightbox] requires are all there. *)
Definition lightbox_elements (d : Page.dom) : bool :=
  Page.lightbox d && Page.lightboxImg d && Page.lightboxCap d
  && Page.lightboxClose d && Page.lightboxPrev d && Page.lightboxNext d.

(** [onResize(c1); ...; onResize(cn)]. *)
Definition register_all {W cb : Type} (cbs : list cb) (s : Resize.state W cb)
  : Resize.state W cb :=
  fold_left (fun s c => Resize.onResize c s) cbs s.



(** ** Auxiliary notions for the further properties *)

(** Every [openLightbox] of [evs] is given the index of a gallery item. *)
Definition opens_in_range (e : Lightbox.env) (evs : list Lightbox.event) : bool :=
  forallb
    (fun ev => match ev with
               | Lightbox.Open i => (0 <=? i) && (i <? Lightbox.length_of e)
               | _ => true
               end)
    evs.

(** Strings of decimal digits, and strings without [?] and [&]. *)
Fixpoint all_digits (s : string) : bool :=
  match s with
  | EmptyString => true
  | String c s' => Lightbox.is_digit c && all_digits s'
  end.

Fixpoint no_separator (s : string) : bool :=
  match s with
  | EmptyString => true
  | String c s' => negb (Ascii.eqb c "?" || Ascii.eqb c "&") && no_separator s'
  end.

(** The test [replace_param] makes at a position: the text from there on
    starts with [?] or [&], the key, [=] and a digit. *)
Definition param_here (k : ascii) (s : string) : bool :=
  match s with
  | String c (String k' (String eq rest)) =>
      (Ascii.eqb c "?" || Ascii.eqb c "&") && Ascii.eqb k' k && Ascii.eqb eq "="
      && Lightbox.starts_with_digit rest
  | _ => false
  end.

(** The first three characters of a string. *)
Definition prefix3 (s : string) : string := substring 0 3 s.

(** The broadcasts owed to resize signals at the times [ts] once the clock
    shows [T]: one for every signal that no other signal follows within
    200 ms, 200 ms after it. *)
Fixpoint debounced (ts : list Z) (T : Z) : list Z :=
  match ts with
  | [] => []
  | t :: rest =>
      match rest with
      | [] => if t + 200 <=? T then [t + 200] else []
      | t' :: _ => (if t + 200 <=? t' then [t + 200] else []) ++ debounced rest T
      end
  end.

(** Signal times in order, none exactly 200 ms after the one before it (the
    moment its timeout is due). *)
Fixpoint spaced_from (t : Z) (ts : list Z) : Prop :=
  match ts with
  | [] => True
  | t' :: rest => t <= t' /\ t' <> t + 200 /\ spaced_from t' rest
  end.

Definition spaced (ts : list Z) : Prop :=
  match ts with
  | [] => True
  | t :: rest => spaced_from t rest
  end.

(** How often consecutive measurements of the header height differ, the
    first one compared with [h]. *)
Fixpoint height_changes (h : Z) (hs : list Z) : Z :=
  match hs with
  | [] => 0
  | h' :: rest => (if h' =? h then 0 else 1) + height_changes h' rest
  end.

(** What [animate] leaves alone in a particle. *)
Definition appearance (p : Particles.particle)
  : float * option string * float * float * float * float :=
  (Particles.size p, Particles.color p, Particles.opacity p,
   Particles.speedX p, Particles.speedY p, Particles.twinkleSpeed p).

(** The window width read by the last resize broadcast of [evs], [iw] when
    there was none. *)
Fixpoint last_innerWidth (iw : Z) (evs : list Particles.event) : Z :=
  match evs with
  | [] => iw
  | Particles.Resized _ _ iw' :: rest => last_innerWidth iw' rest
  | _ :: rest => last_innerWidth iw rest
  end.

Definition no_resize (evs : list Particles.event) : bool :=
  forallb (fun ev => match ev with
                     | Particles.Resized _ _ _ => false
                     | _ => true
                     end) evs.

(** What every state reached after the first [initNavObserver] satisfies:
    an observer is in use, it and the disconnected ones carry the ids
    [created - 1] down to [0], all observe the sections present, and the one
    in use has the margin of the current header height. *)
Definition observers_accounted (present : string -> bool) (s : Nav.state) : Prop :=
  exists o,
    Nav.navObserver s = Some o
    /\ 0 < Nav.created s
    /\ map Nav.oid (o :: Nav.disconnected s)
       = map Z.of_nat (rev (seq 0 (Z.to_nat (Nav.created s))))
    /\ Forall (fun o' => Nav.targets o' = filter present Nav.NAV_SECTION_IDS)
         (o :: Nav.disconnected s)
    /\ Nav.opts o = Nav.mkOptions None (Nav.margin_of (Nav.headerHeight s)) 0.

(** ** The listeners of the menu and of the lightbox
    (lines 265-284, 325-329, 1069-1108) *)

Module UI.

(** What the user and the browser can do to the page once it is set up. A
    [keydown] on a gallery item bubbles to [document]. *)
Inductive event : Type :=
| HamburgerClick                       (* click on #hamburger *)
| MenuClick (onLink : bool)            (* click in #mobileMenu; [onLink]:
                                          closest('.header__mobile-link') *)
| KeyDown (key : string)               (* keydown reaching document *)
| DesktopWidth (matches : bool)        (* change of (min-width: 1025px) *)
| ItemClick (i : Z)                    (* click on gallery item [i] *)
| ItemKeyDown (i : Z) (key : string)   (* keydown on gallery item [i] *)
| CloseClick
| OverlayClick
| PrevClick
| NextClick
| TweenDone (complete : bool)
| ImgLoad
| ImgError.

(** [!els.hamburger || !els.mobileMenu] is false. *)
Definition menu_present (d : Page.dom) : bool :=
  Page.hamburger d && Page.mobileMenu d.

Definition on_menu
  (f : ScrollLock.page * Menu.state -> ScrollLock.page * Menu.state)
  (w : Page.components) : Page.components :=
  let pm := f (Page.scroll w, Page.menu w) in
  Page.mkComponents (fst pm) (snd pm) (Page.nav w) (Page.particles w)
    (Page.heroObserved w) (Page.box w) (Page.effects w).

(** A listener added by [initLightbox]; there is none when [initLightbox]
    returned early. *)
Definition on_box
  (f : Lightbox.env -> ScrollLock.page * Lightbox.state ->
       result (ScrollLock.page * Lightbox.state))
  (w : Page.components) : result Page.components :=
  match Page.box w with
  | None => Ok w
  | Some (e, s) =>
      ps <- f e (Page.scroll w, s) ;;
      Ok (Page.mkComponents (fst ps) (Page.menu w) (Page.nav w)
            (Page.particles w) (Page.heroObserved w) (Some (e, snd ps))
            (Page.effects w))
  end.

(** [els.hamburger?.focus()]: the focus leaves the lightbox's elements. *)
Definition focus_hamburger (d : Page.dom) (w : Page.components)
  : Page.components :=
  if Page.hamburger d
  then match Page.box w with
       | Some (e, s) =>
           Page.mkComponents (Page.scroll w) (Page.menu w) (Page.nav w)
             (Page.particles w) (Page.heroObserved w)
             (Some (e, Lightbox.with_focus Lightbox.FocusElsewhere s))
             (Page.effects w)
       | None => w
       end
  else w.

(** Lines 265-269. *)
Definition hamburger_click (d : Page.dom) (w : Page.components)
  : Page.components :=
  if Page.hamburger d
  then on_menu (fun pm => if Menu.hamburger_active (snd pm)
                          then Menu.closeMobileMenu (menu_present d) pm
                          else Menu.openMobileMenu (menu_present d) pm) w
  else w.

(** Lines 272-276. *)
Definition menu_click (d : Page.dom) (onLink : bool) (w : Page.components)
  : Page.components :=
  if Page.mobileMenu d && onLink
  then on_menu (Menu.closeMobileMenu (menu_present d)) w
  else w.

(** Lines 279-284. *)
Definition menu_keydown (d : Page.dom) (key : string) (w : Page.components)
  : Page.components :=
  if (key =? "Escape")%string && (Page.mobileMenu d && Menu.menu_open (Page.menu w))
  then focus_hamburger d (on_menu (Menu.closeMobileMenu (menu_present d)) w)
  else w.

(** Lines 325-329. *)
Definition media_change (d : Page.dom) (matches : bool) (w : Page.components)
  : Page.components :=
  if matches && (Page.mobileMenu d && Menu.menu_open (Page.menu w))
  then on_menu (Menu.closeMobileMenu (menu_present d)) w
  else w.

(** Lines 1094-1108. *)
Definition lightbox_keydown (key : string) (w : Page.components)
  : result Page.components :=
  on_box (fun e ps =>
            if negb (Lightbox.isOpen (snd ps)) then Ok ps
            else if (key =? "Escape")%string then Ok (Lightbox.closeLightbox e ps)
            else if (key =? "ArrowLeft")%string
                 then s' <- Lightbox.showPrev e (snd ps) ;; Ok (fst ps, s')
            else if (key =? "ArrowRight")%string
                 then s' <- Lightbox.showNext e (snd ps) ;; Ok (fst ps, s')
            else Ok ps) w.

(** The [keydown] listeners of [document], in the order they were added. *)
Definition document_keydown (d : Page.dom) (key : string)
  (w : Page.components) : result Page.components :=
  lightbox_keydown key (menu_keydown d key w).

(** Line 1074; item [i] has the listener only if it exists. *)
Definition item_click (i : Z) (w : Page.components) : result Page.components :=
  on_box (fun e ps =>
            if (0 <=? i) && (i <? Lightbox.length_of e)
            then Lightbox.openLightbox e i ps
            else Ok ps) w.

(** Lines 1075-1080, then the listeners of [document]. *)
Definition item_keydown (d : Page.dom) (i : Z) (key : string)
  (w : Page.components) : result Page.components :=
  w <- (if (key =? "Enter")%string || (key =? " ")%string then item_click i w else Ok w) ;;
  document_keydown d key w.

Definition close_click (w : Page.components) : result Page.components :=
  on_box (fun e ps => Ok (Lightbox.closeLightbox e ps)) w.

Definition overlay_click (d : Page.dom) (w : Page.components)
  : result Page.components :=
  if Page.lightboxOverlay d then close_click w else Ok w.

Definition handle (d : Page.dom) (ev : event) (w : Page.components)
  : result Page.components :=
  match ev with
  | HamburgerClick => Ok (hamburger_click d w)
  | MenuClick onLink => Ok (menu_click d onLink w)
  | KeyDown key => document_keydown d key w
  | DesktopWidth matches => Ok (media_change d matches w)
  | ItemClick i => item_click i w
  | ItemKeyDown i key => item_keydown d i key w
  | CloseClick => close_click w
  | OverlayClick => overlay_click d w
  | PrevClick => on_box (fun e => Lightbox.step e Lightbox.Prev) w
  | NextClick => on_box (fun e => Lightbox.step e Lightbox.Next) w
  | TweenDone c => on_box (fun e => Lightbox.step e (Lightbox.TweenDone c)) w
  | ImgLoad => on_box (fun e => Lightbox.step e Lightbox.ImgLoad) w
  | ImgError => on_box (fun e => Lightbox.step e Lightbox.ImgError) w
  end.

Fixpoint run (d : Page.dom) (evs : list event) (w : Page.components)
  : result Page.components :=
  match evs with
  | [] => Ok w
  | ev :: rest => w' <- handle d ev w ;; run d rest w'
  end.

Definition box_open (w : Page.components) : bool :=
  match Page.box w with
  | Some (_, s) => Lightbox.isOpen s
  | None => false
  end.

(** The controls that are on display: a link of the menu can be clicked
    while the menu is open, a gallery item can be activated while the
    lightbox is closed, the close button and the overlay while it is
    open. *)
Definition enabled (ev : event) (w : Page.components) : bool :=
  match ev with
  | MenuClick true => Menu.menu_open (Page.menu w)
  | ItemClick _ => negb (box_open w)
  | ItemKeyDown _ key =>
      if (key =? "Enter")%string || (key =? " ")%string then negb (box_open w) else true
  | CloseClick | OverlayClick => box_open w
  | _ => true
  end.

Fixpoint feasible (d : Page.dom) (evs : list event) (w : Page.components)
  : bool :=
  match evs with
  | [] => true
  | ev :: rest =>
      enabled ev w
      && match handle d ev w with
         | Ok w' => feasible d rest w'
         | Throw _ => true
         end
  end.

(** The counter holds one lock for the open menu and one for the open
    lightbox. *)
Definition balanced (w : Page.components) : Prop :=
  ScrollLock.scrollLockCount (Page.scroll w)
  = Z.b2z (Menu.menu_open (Page.menu w)) + Z.b2z (box_open w)
  /\ ScrollLock.no_scroll (Page.scroll w)
     = Menu.menu_open (Page.menu w) || box_open w
  /\ Menu.hamburger_active (Page.menu w) = Menu.menu_open (Page.menu w)
  /\ match Page.box w with
     | Some (e, s) => 0 <= Lightbox.currentIndex s < Lightbox.length_of e
     | None => True
     end.

End UI.

(** The attributes and listeners [initLightbox] gives gallery item [i]. *)
Definition item_effects (it : Lightbox.item) (i : Z) : list Page.effect :=
  let el := (".gallery__item:" ++ show_Z i)%string in
  [Page.SetAttribute el "tabindex" "0";
   Page.SetAttribute el "role" "button";
   Page.SetAttribute el "aria-label"
     (match Lightbox.captionH3 it with
      | Some t => t
      | None => EmptyString
      end ++ " を拡大表示")%string;
   Page.Listen el "click";
   Page.Listen el "keydown"].

Fixpoint items_effects (items : list Lightbox.item) (i : Z) : list Page.effect :=
  match items with
  | [] => []
  | it :: rest => item_effects it i ++ items_effects rest (i + 1)
  end.

Definition log_all (es : list Page.effect) (w : Page.components)
  : Page.components :=
  fold_left (fun w e => Page.log e w) es w.

(** A document with a menu, a complete lightbox and three gallery items. *)
Definition sample_dom : Page.dom :=
  Page.mkDom (Some 80) true true (fun _ => true) true true true true true true
    true true (gallery_of ["a"; "b"; "c"]%string)
    (Lightbox.mkItem (Some ("logo", "logo")) (Some "a") None)%string
    None false true 1280 true false (fun _ => 0%float).

(** What a listener of the lightbox may do to the lock. *)
Inductive lock_move (e : Lightbox.env) (p : ScrollLock.page) (s : Lightbox.state)
  : ScrollLock.page * Lightbox.state -> Prop :=
| lm_none s' :
    Lightbox.isOpen s' = Lightbox.isOpen s ->
    0 <= Lightbox.currentIndex s' < Lightbox.length_of e ->
    lock_move e p s (p, s')
| lm_open s' :
    Lightbox.isOpen s = false -> Lightbox.isOpen s' = true ->
    0 <= Lightbox.currentIndex s' < Lightbox.length_of e ->
    lock_move e p s (ScrollLock.lockScroll p, s')
| lm_close s' :
    Lightbox.isOpen s = true -> Lightbox.isOpen s' = false ->
    0 <= Lightbox.currentIndex s' < Lightbox.length_of e ->
    lock_move e p s (ScrollLock.unlockScroll p, s').

Definition sample_page : Page.page :=
  match Page.main sample_dom with
  | Ok p => p
  | Throw _ =>
      Resize.mkState (Resize.mkTimers 0 1 []) None []
        (Page.mkComponents ScrollLock.init Menu.init (Nav.init None) None false
           None []) [] []
  end.

Definition sample_session : list UI.event :=
  [UI.HamburgerClick; UI.ItemClick 1; UI.NextClick; UI.TweenDone true;
   UI.KeyDown "Escape"; UI.ItemKeyDown 2 "Enter"; UI.KeyDown "ArrowLeft";
   UI.CloseClick; UI.HamburgerClick; UI.DesktopWidth true].

(** The classes and the ARIA attributes agree: the menu's four and the
    lightbox's two; the lightbox's index is that of a gallery item. *)
Definition fine (e : Lightbox.env) (s : Lightbox.state) : Prop :=
  0 <= Lightbox.currentIndex s < Lightbox.length_of e
  /\ Lightbox.ariaHidden s = negb (Lightbox.isOpen s).

Definition coherent (w : Page.components) : Prop :=
  Menu.hamburger_active (Page.menu w) = Menu.menu_open (Page.menu w)
  /\ Menu.aria_expanded (Page.menu w) = Menu.menu_open (Page.menu w)
  /\ Menu.aria_hidden (Page.menu w) = negb (Menu.menu_open (Page.menu w))
  /\ match Page.box w with
     | Some (e, s) => fine e s
     | None => True
     end.

(** ** Contact form (lines 615-720)

    A JavaScript string is a sequence of UTF-16 code units; a regular
    expression without the [u] flag matches code unit by code unit. *)

Module Form.

Definition code_unit : Type := N.

(** The characters [\s] matches and [String.prototype.trim] strips:
    WhiteSpace and LineTerminator of ECMAScript. *)
Definition is_space (c : code_unit) : bool :=
  ((9 <=? c) && (c <=? 13)                    (* TAB LF VT FF CR *)
   || (c =? 32) || (c =? 160)                 (* SP, NBSP *)
   || (c =? 5760)                             (* U+1680 *)
   || ((8192 <=? c) && (c <=? 8202))          (* U+2000 - U+200A *)
   || (c =? 8232) || (c =? 8233)              (* U+2028, U+2029 *)
   || (c =? 8239) || (c =? 8287)              (* U+202F, U+205F *)
   || (c =? 12288) || (c =? 65279))%N.        (* U+3000, U+FEFF *)

Definition AT : code_unit := 64%N.
Definition DOT : code_unit := 46%N.

(** Regular expressions as far as [isValidEmail] needs them. *)
Inductive re : Type :=
| Void                         (* matches nothing *)
| Eps                          (* the empty match *)
| Class (p : code_unit -> bool)
| Seq (r1 r2 : re)
| Alt (r1 r2 : re)
| Plus (r : re).               (* r+ *)

Fixpoint nullable (r : re) : bool :=
  match r with
  | Void => false
  | Eps => true
  | Class _ => false
  | Seq r1 r2 => nullable r1 && nullable r2
  | Alt r1 r2 => nullable r1 || nullable r2
  | Plus r => nullable r
  end.

(** What is left of [r] to match after the code unit [c]. *)
Fixpoint deriv (c : code_unit) (r : re) : re :=
  match r with
  | Void => Void
  | Eps => Void
  | Class p => if p c then Eps else Void
  | Seq r1 r2 =>
      Alt (Seq (deriv c r1) r2) (if nullable r1 then deriv c r2 else Void)
  | Alt r1 r2 => Alt (deriv c r1) (deriv c r2)
  | Plus r => Seq (deriv c r) (Alt Eps (Plus r))
  end.

(** [/^r$/.test(s)]: some run of [r] consumes exactly [s]. *)
Definition test_anchored (r : re) (s : list code_unit) : bool :=
  nullable (fold_left (fun r c => deriv c r) s r).

(** The strings a regular expression matches in full. *)
Inductive lang : re -> list code_unit -> Prop :=
| lang_eps : lang Eps []
| lang_class p c : p c = true -> lang (Class p) [c]
| lang_seq r1 r2 s1 s2 : lang r1 s1 -> lang r2 s2 -> lang (Seq r1 r2) (s1 ++ s2)
| lang_alt_l r1 r2 s : lang r1 s -> lang (Alt r1 r2) s
| lang_alt_r r1 r2 s : lang r2 s -> lang (Alt r1 r2) s
| lang_plus_one r s : lang r s -> lang (Plus r) s
| lang_plus_more r s1 s2 : lang r s1 -> lang (Plus r) s2 -> lang (Plus r) (s1 ++ s2).

(** [[^\s@]]. *)
Definition not_space_at (c : code_unit) : bool :=
  negb (is_space c) && negb (c =? AT)%N.

(** [/^[^\s@]+@[^\s@]+\.[^\s@]+$/]. *)
Definition EMAIL : re :=
  Seq (Plus (Class not_space_at))
    (Seq (Class (N.eqb AT))
       (Seq (Plus (Class not_space_at))
          (Seq (Class (N.eqb DOT))
             (Plus (Class not_space_at))))).

Definition isValidEmail (email : list code_unit) : bool :=
  test_anchored EMAIL email.

Fixpoint trimStart (s : list code_unit) : list code_unit :=
  match s with
  | c :: rest => if is_space c then trimStart rest else s
  | [] => []
  end.

Definition trim (s : list code_unit) : list code_unit :=
  rev (trimStart (rev (trimStart s))).

Inductive field : Type := NameField | EmailField | MessageField.

(** [!s] for a string. *)
Definition is_blank (s : list code_unit) : bool :=
  match s with [] => true | _ => false end.

(** The calls of [showFieldError] the submit listener makes for the trimmed
    values, in order: the field and the message. *)
Definition validate (name email message : list code_unit)
  : list (field * string) :=
  (if is_blank name then [(NameField, "お名前を入力してください。"%string)] else [])
  ++ (if is_blank email
      then [(EmailField, "メールアドレスを入力してください。"%string)]
      else if negb (isValidEmail email)
           then [(EmailField, "正しいメールアドレスを入力してください。"%string)]
           else [])
  ++ (if is_blank message
      then [(MessageField, "お問い合わせ内容を入力してください。"%string)]
      else []).

(** The form's elements with the values of the inputs; [None]: the element
    is not in the document. *)
Record form : Type := mkForm {
  nameInput : option (list code_unit);
  emailInput : option (list code_unit);
  messageInput : option (list code_unit);
  submitBtn : bool
}.

Record state : Type := mkState {
  isSubmitting : bool;
  reported : list (field * string);   (* showFieldError calls of the last submit *)
  success : bool;                     (* class contact__submit--success *)
  resetTimers : nat;                  (* pending 3 s timeouts *)
  resets : nat                        (* calls of contactForm.reset() *)
}.

Definition init : state := mkState false [] false 0 0.

(** The submit listener. *)
Definition on_submit (f : form) (s : state) : result state :=
  if isSubmitting s then Ok s
  else
    name <- deref "nameInput" (nameInput f) ;;
    email <- deref "emailInput" (emailInput f) ;;
    message <- deref "messageInput" (messageInput f) ;;
    let errors := validate (trim name) (trim email) (trim message) in
    match errors with
    | _ :: _ =>
        Ok (mkState false errors (success s) (resetTimers s) (resets s))
    | [] =>
        _ <- deref "submitBtn" (if submitBtn f then Some tt else None) ;;
        Ok (mkState true [] true (S (resetTimers s)) (resets s))
    end.

(** The callback of the 3 s timeout. *)
Definition on_timeout (s : state) : state :=
  match resetTimers s with
  | O => s
  | S n => mkState false (reported s) false n (S (resets s))
  end.

Inductive event : Type :=
| Submit (f : form)
| ResetTimeout.

Definition step (ev : event) (s : state) : result state :=
  match ev with
  | Submit f => on_submit f s
  | ResetTimeout => Ok (on_timeout s)
  end.

Fixpoint run (evs : list event) (s : state) : result state :=
  match evs with
  | [] => Ok s
  | ev :: rest => s' <- step ev s ;; run rest s'
  end.

End Form.

(** Code units of an ASCII string. *)
Fixpoint units (s : string) : list Form.code_unit :=
  match s with
  | EmptyString => []
  | String c rest => N_of_ascii c :: units rest
  end.

(** ** Focus trap of the lightbox (lines 1111-1127) *)

Module FocusTrap.

(** Elements are named by strings. [buttons] is
    [$$('button:not([disabled])', lightbox)], in document order;
    [activeElement] is [document.activeElement]. The listener's result is
    the element it focuses, after [e.preventDefault()]; [None]: it leaves
    the key to the browser. *)
Definition is_active (activeElement : option string) (el : string) : bool :=
  match activeElement with
  | Some a => (a =? el)%string
  | None => false
  end.

Definition on_keydown (buttons : list string) (key : string) (shiftKey : bool)
  (activeElement : option string) : option string :=
  if negb (key =? "Tab")%string then None
  else
    match buttons with
    | [] => None
    | firstEl :: _ =>
        let lastEl := last buttons firstEl in
        if shiftKey && is_active activeElement firstEl then Some lastEl
        else if negb shiftKey && is_active activeElement lastEl then Some firstEl
        else None
    end.

(** The element after [a] in [order]. *)
Fixpoint next_of (a : string) (order : list string) : option string :=
  match order with
  | x :: rest =>
      if (x =? a)%string then hd_error rest else next_of a rest
  | [] => None
  end.

(** The browser's own handling of Tab: [order] lists the focusable elements
    of the document in tab order; past either end the focus leaves the
    document. *)
Definition default_tab (order : list string) (shiftKey : bool)
  (activeElement : option string) : option string :=
  match activeElement with
  | Some a => if shiftKey then next_of a (rev order) else next_of a order
  | None => if shiftKey then hd_error (rev order) else hd_error order
  end.

(** Where the focus is after Tab was pressed inside the lightbox. *)
Definition press_tab (order buttons : list string) (shiftKey : bool)
  (activeElement : option string) : option string :=
  match on_keydown buttons "Tab" shiftKey activeElement with
  | Some el => Some el
  | None => default_tab order shiftKey activeElement
  end.

Fixpoint presses (order buttons : list string) (shifts : list bool)
  (activeElement : option string) : option string :=
  match shifts with
  | [] => activeElement
  | shiftKey :: rest =>
      presses order buttons rest (press_tab order buttons shiftKey activeElement)
  end.

End FocusTrap.

(** ** Scroll handler (lines 160-193) *)

Module Scroll.

Local Open Scope float_scope.

Definition HEADER_SCROLL_THRESHOLD : float := 50.
Definition BACK_TO_TOP_THRESHOLD : float := 500.

(** Which of the elements exist. *)
Record env : Type := mkEnv {
  hasHeader : bool;
  hasBackToTop : bool;
  hasScrollProgress : bool
}.

(** What the frame callback reads when it runs. *)
Record reading : Type := mkReading {
  scrollY : float;
  scrollHeight : Z;              (* document.documentElement.scrollHeight *)
  innerHeight : Z;
  prefersReducedMotion : bool
}.

Record state : Type := mkState {
  isScrolling : bool;
  requested : nat;               (* frame callbacks of handleScroll waiting *)
  headerScrolled : bool;         (* class header--scrolled *)
  backVisible : bool;            (* class is-visible of #backToTop *)
  progress : option float;       (* the number in the width set last,
                                    in percent; None: never set *)
  updates : list float           (* ghost: scrollTop of every callback run *)
}.

Definition init : state := mkState false 0 false false None [].

Definition handleScroll (s : state) : state :=
  if isScrolling s then s
  else mkState true (S (requested s)) (headerScrolled s) (backVisible s)
         (progress s) (updates s).

(** The callback given to [requestAnimationFrame]. *)
Definition update (e : env) (r : reading) (s : state) : state :=
  let scrollTop := scrollY r in
  let header := if hasHeader e then HEADER_SCROLL_THRESHOLD <? scrollTop
                else headerScrolled s in
  let back := if hasBackToTop e then BACK_TO_TOP_THRESHOLD <? scrollTop
              else backVisible s in
  let maxScroll := (scrollHeight r - innerHeight r)%Z in
  let bar := if hasScrollProgress e && negb (prefersReducedMotion r)
                && (0 <? maxScroll)%Z
             then Some (scrollTop / Particles.Z2F maxScroll * 100)
             else progress s in
  mkState false (requested s) header back bar (updates s ++ [scrollTop]).

(** The browser runs the callbacks requested since the last frame. *)
Definition on_frame (e : env) (r : reading) (s : state) : state :=
  Nat.iter (requested s) (update e r)
    (mkState (isScrolling s) 0 (headerScrolled s) (backVisible s)
       (progress s) (updates s)).

Inductive event : Type :=
| ScrollEvent
| Frame (r : reading).

Definition step (e : env) (ev : event) (s : state) : state :=
  match ev with
  | ScrollEvent => handleScroll s
  | Frame r => on_frame e r s
  end.

Fixpoint run (e : env) (evs : list event) (s : state) : state :=
  match evs with
  | [] => s
  | ev :: rest => run e rest (step e ev s)
  end.

(** The state when the script's top level has called [handleScroll()]. *)
Definition start : state := handleScroll init.

(** The scroll positions of the frames that follow at least one scroll event
    since the frame before ([waiting]: one has arrived already). *)
Fixpoint frames_after_scroll (waiting : bool) (evs : list event) : list float :=
  match evs with
  | [] => []
  | ScrollEvent :: rest => frames_after_scroll true rest
  | Frame r :: rest =>
      (if waiting then [scrollY r] else []) ++ frames_after_scroll false rest
  end.

End Scroll.

(** ** Date display (lines 338-346) *)

Module DateDisplay.

(** [s.padStart(2, '0')]. *)
Definition padStart2 (s : string) : string :=
  match String.length s with
  | O => "00"%string
  | S O => ("0" ++ s)%string
  | _ => s
  end.

(** The text given to [#heroDate]; [month] is [getMonth()], [date] is
    [getDate()]. *)
Definition heroDate (month date : Z) : string :=
  (padStart2 (show_Z (month + 1)) ++ "." ++ padStart2 (show_Z date))%string.

End DateDisplay.

(** The digit [n] and the two decimal digits of a number below 100. *)
Definition digit_char (n : Z) : ascii := ascii_of_nat (48 + Z.to_nat n).

Definition two_digits (n : Z) : string :=
  String (digit_char (n / 10)) (String (digit_char (n mod 10)) EmptyString).

(** A tab order: two elements of the page, the lightbox's buttons, one more
    element of the page. *)
Definition lightbox_buttons : list string :=
  ["#lightboxClose"; "#lightboxPrev"; "#lightboxNext"]%string.

Definition sample_before : list string :=
  ["#hamburger"; ".gallery__item:0"]%string.

Definition sample_after : list string := ["#backToTop"]%string.

(** ** Loading overlay (lines 113-148) *)

Module Loading.

Record state : Type := mkState {
  isInitialized : bool;
  overlayHidden : bool;          (* class is-hidden of #loadingOverlay *)
  fadesShown : bool;             (* .js-scroll-fade elements forced visible *)
  page : Page.page;
  runs : nat;                    (* ghost: how often the body went past the guard *)
  now : Z;                       (* ms since the script ran *)
  timeouts : list Z              (* due times of setTimeout(completeLoading, _) *)
}.

(** [hasOverlay]: [els.loadingOverlay] is not null. Of the initialisations
    after the guard only [initHeroParticles] acts on [page]; the
    [.js-scroll-fade] elements are shown at once without GSAP (lines
    124-130) and by [initGSAPAnimations] under reduced motion (lines
    419-426). *)
Definition completeLoading (hasOverlay : bool) (d : Page.dom) (s : state)
  : result state :=
  if isInitialized s then Ok s
  else
    let hidden := if hasOverlay then true else overlayHidden s in
    p <- Page.completeLoading d (page s) ;;
    Ok (mkState true hidden
          (if negb (Page.hasGSAP d) || Page.prefersReducedMotion d
           then true else fadesShown s)
          p (S (runs s)) (now s) (timeouts s)).

(** The script's top level: [setTimeout(completeLoading, 3000)]. *)
Definition start (p : Page.page) : state :=
  mkState false false false p 0 0 [3000].

(** The [load] listener: [setTimeout(completeLoading, 800)]. *)
Definition on_load (s : state) : state :=
  mkState (isInitialized s) (overlayHidden s) (fadesShown s) (page s) (runs s)
    (now s) (timeouts s ++ [now s + 800]).

(** Time passes until [t]: the timeouts due by then run. *)
Definition advance (hasOverlay : bool) (d : Page.dom) (t : Z) (s : state)
  : result state :=
  let t := Z.max t (now s) in
  let due := filter (fun x => x <=? t) (timeouts s) in
  let s := mkState (isInitialized s) (overlayHidden s) (fadesShown s) (page s)
             (runs s) t (filter (fun x => negb (x <=? t)) (timeouts s)) in
  fold_left (fun r _ => s <- r ;; completeLoading hasOverlay d s) due (Ok s).

Inductive event : Type :=
| WindowLoad
| Advance (t : Z).

Definition step (hasOverlay : bool) (d : Page.dom) (ev : event) (s : state)
  : result state :=
  match ev with
  | WindowLoad => Ok (on_load s)
  | Advance t => advance hasOverlay d t s
  end.

Fixpoint run (hasOverlay : bool) (d : Page.dom) (evs : list event) (s : state)
  : result state :=
  match evs with
  | [] => Ok s
  | ev :: rest => s' <- step hasOverlay d ev s ;; run hasOverlay d rest s'
  end.

End Loading.


(** * Properties *)

(** ** Scroll lock *)

Lemma lockScroll_consistent (p : ScrollLock.page) :
  ScrollLock.consistent p -> ScrollLock.consistent (ScrollLock.lockScroll p).
Proof.
  unfold ScrollLock.consistent, ScrollLock.lockScroll; cbn.
  intros [Hge Hiff].
  destruct (Z.eqb_spec (ScrollLock.scrollLockCount p) 0) as [E | E].
  - split; [lia | split; intros _; [lia | reflexivity]].
  - split; [lia |]. rewrite Hiff. lia.
Qed.

Lemma unlockScroll_consistent (p : ScrollLock.page) :
  ScrollLock.consistent p -> ScrollLock.consistent (ScrollLock.unlockScroll p).
Proof.
  unfold ScrollLock.consistent, ScrollLock.unlockScroll; cbn.
  intros [Hge Hiff].
  destruct (Z.eqb_spec (Z.max 0 (ScrollLock.scrollLockCount p - 1)) 0) as [E | E].
  - split; [lia | split; [discriminate | lia]].
  - split; [lia |]. rewrite Hiff. lia.
Qed.

Lemma step_consistent (c : ScrollLock.call) (p : ScrollLock.page) :
  ScrollLock.consistent p -> ScrollLock.consistent (ScrollLock.step c p).
Proof.
  destruct c; cbn; auto using lockScroll_consistent, unlockScroll_consistent.
Qed.

Lemma run_consistent (cs : list ScrollLock.call) :
  forall p, ScrollLock.consistent p -> ScrollLock.consistent (ScrollLock.run cs p).
Proof.
  induction cs as [| c cs IH]; intros p Hp; cbn; auto using step_consistent.
Qed.

Lemma init_consistent : ScrollLock.consistent ScrollLock.init.
Proof. unfold ScrollLock.consistent; cbn. split; [lia | split; [discriminate | lia]]. Qed.

Lemma floored_nonneg (cs : list ScrollLock.call) :
  forall p, 0 <= ScrollLock.floored cs p.
Proof.
  induction cs as [| [] cs IH]; intros p; cbn; [lia | apply IH |].
  specialize (IH (ScrollLock.unlockScroll p)).
  destruct (ScrollLock.scrollLockCount p =? 0); lia.
Qed.

(** The counter is the balance of the calls, plus one for every
    [unlockScroll] that was absorbed by the floor. *)
Lemma run_count (cs : list ScrollLock.call) :
  forall p, 0 <= ScrollLock.scrollLockCount p ->
    ScrollLock.scrollLockCount (ScrollLock.run cs p)
    = ScrollLock.scrollLockCount p
      + ScrollLock.locks cs - ScrollLock.unlocks cs + ScrollLock.floored cs p.
Proof.
  induction cs as [| [] cs IH]; intros p Hp; cbn [ScrollLock.run ScrollLock.step
    ScrollLock.locks ScrollLock.unlocks ScrollLock.floored].
  - lia.
  - rewrite IH; unfold ScrollLock.lockScroll; cbn [ScrollLock.scrollLockCount]; lia.
  - rewrite IH; unfold ScrollLock.unlockScroll; cbn [ScrollLock.scrollLockCount];
      [| lia].
    destruct (Z.eqb_spec (ScrollLock.scrollLockCount p) 0); lia.
Qed.

(** When every release has a matching earlier acquisition the counter is the
    plain difference, and the class is on iff more locks than unlocks. *)
Lemma paired_flag (cs : list ScrollLock.call) :
  ScrollLock.paired cs ScrollLock.init ->
  (ScrollLock.no_scroll (ScrollLock.run cs ScrollLock.init) = true
   <-> ScrollLock.unlocks cs < ScrollLock.locks cs).
Proof.
  intros Hp. red in Hp.
  destruct (run_consistent cs _ init_consistent) as [_ Hiff].
  rewrite Hiff, run_count by (cbn; lia). rewrite Hp. cbn. lia.
Qed.

(** C1, as stated, fails: a release at 0 followed by an acquisition leaves
    the class on although the two kinds of call are equally many. *)
Lemma scroll_lock_flag_not_call_balance :
  ~ (forall cs : list ScrollLock.call,
       ScrollLock.no_scroll (ScrollLock.run cs ScrollLock.init) = true
       <-> ScrollLock.unlocks cs < ScrollLock.locks cs).
Proof.
  intros H.
  specialize (H [ScrollLock.Unlock; ScrollLock.Lock]).
  cbn in H. destruct H as [H _]. specialize (H eq_refl). lia.
Qed.

(** C1 (amended): after any sequence of [lockScroll]/[unlockScroll] calls
    from the initial page the counter is not negative; the [no-scroll] class
    is on iff the counter is positive, that is iff there were strictly more
    [lockScroll] calls than [unlockScroll] calls that were not absorbed at 0;
    more locks than unlocks always puts the class on; and [unlockScroll] at
    counter 0 changes nothing. *)
Theorem scroll_lock_counter_invariant (cs : list ScrollLock.call) :
  let p := ScrollLock.run cs ScrollLock.init in
  0 <= ScrollLock.scrollLockCount p
  /\ (ScrollLock.no_scroll p = true <-> 0 < ScrollLock.scrollLockCount p)
  /\ ScrollLock.scrollLockCount p
     = ScrollLock.locks cs
       - (ScrollLock.unlocks cs - ScrollLock.floored cs ScrollLock.init)
  /\ (ScrollLock.no_scroll p = true
      <-> ScrollLock.unlocks cs - ScrollLock.floored cs ScrollLock.init
          < ScrollLock.locks cs)
  /\ (ScrollLock.unlocks cs < ScrollLock.locks cs -> ScrollLock.no_scroll p = true)
  /\ (ScrollLock.scrollLockCount p = 0 -> ScrollLock.unlockScroll p = p).
Proof.
  intros p.
  destruct (run_consistent cs _ init_consistent) as [Hge Hiff].
  assert (Hc := run_count cs ScrollLock.init ltac:(cbn; lia)).
  assert (Hf := floored_nonneg cs ScrollLock.init).
  fold p in Hge, Hiff, Hc. cbn in Hc.
  split; [exact Hge |].
  split; [exact Hiff |].
  split; [lia |].
  split; [rewrite Hiff; lia |].
  split; [intros Hlt; apply Hiff; lia |].
  intros H0. clear Hc. unfold ScrollLock.unlockScroll. rewrite H0. cbn.
  destruct p as [c f]; cbn in *. subst c. f_equal.
  destruct f; [| reflexivity]. destruct Hiff as [Hiff _].
  specialize (Hiff eq_refl). lia.
Qed.

(** The example of the specification: acquire, acquire, release, release,
    release. *)
Example lock_counter_example :
  let cs := [ScrollLock.Lock; ScrollLock.Lock; ScrollLock.Unlock; ScrollLock.Unlock] in
  ScrollLock.run cs ScrollLock.init = ScrollLock.mkPage 0 false
  /\ ScrollLock.run (cs ++ [ScrollLock.Unlock]) ScrollLock.init
     = ScrollLock.mkPage 0 false.
Proof. split; reflexivity. Qed.

(** ** Lightbox: circular navigation *)

Lemma getItemData_some (doc it : Lightbox.item) :
  exists d, Lightbox.getItemData doc (Some it) = Ok d.
Proof. unfold Lightbox.getItemData; cbn. eexists; reflexivity. Qed.

(** The data of the item the goal reads. *)
Ltac item_data d :=
  match goal with
  | |- context [Lightbox.getItemData ?doc (Some ?it)] =>
      destruct (getItemData_some doc it) as [d ->]
  end.

Lemma item_at_valid (e : Lightbox.env) (i : Z) :
  0 <= i < Lightbox.length_of e -> exists it, Lightbox.item_at e i = Some it.
Proof.
  unfold Lightbox.item_at, Lightbox.length_of. intros Hi.
  destruct (Z.ltb_spec i 0); [lia |].
  destruct (nth_error (Lightbox.galleryItems e) (Z.to_nat i)) eqn:E; eauto.
  apply nth_error_None in E. lia.
Qed.

Lemma item_at_bounds (e : Lightbox.env) (i : Z) (it : Lightbox.item) :
  Lightbox.item_at e i = Some it -> 0 <= i < Lightbox.length_of e.
Proof.
  unfold Lightbox.item_at, Lightbox.length_of.
  destruct (Z.ltb_spec i 0); [discriminate |]. intros E.
  assert (Hn : nth_error (Lightbox.galleryItems e) (Z.to_nat i) <> None) by congruence.
  apply nth_error_Some in Hn. lia.
Qed.

Lemma updateLightboxContent_index (e : Lightbox.env) (s s' : Lightbox.state) :
  Lightbox.updateLightboxContent e s = Ok s' ->
  Lightbox.currentIndex s' = Lightbox.currentIndex s.
Proof.
  unfold Lightbox.updateLightboxContent.
  destruct (Lightbox.getItemData _ _) as [d |]; cbn; [| discriminate].
  destruct (Lightbox.hasGSAP e); cbn; intros [= <-];
    unfold Lightbox.updateCounter; try destruct (Lightbox.hasCounter e); reflexivity.
Qed.

Lemma updateLightboxContent_ok (e : Lightbox.env) (s : Lightbox.state) :
  0 <= Lightbox.currentIndex s < Lightbox.length_of e ->
  exists s', Lightbox.updateLightboxContent e s = Ok s'.
Proof.
  intros Hi. unfold Lightbox.updateLightboxContent.
  destruct (item_at_valid e _ Hi) as [it ->].
  item_data d. cbn.
  destruct (Lightbox.hasGSAP e); cbn; eauto.
Qed.

(** C6: with [n > 0] gallery items and the index [i] in range, [showPrev]
    returns normally with index [(i - 1 + n) mod n] and [showNext] with
    [(i + 1) mod n]; both results are in range. *)
Theorem lightbox_circular_navigation (e : Lightbox.env) (s : Lightbox.state) :
  let n := Lightbox.length_of e in
  let i := Lightbox.currentIndex s in
  0 < n -> 0 <= i < n ->
  (exists sp, Lightbox.showPrev e s = Ok sp
     /\ Lightbox.currentIndex sp = (i - 1 + n) mod n
     /\ 0 <= Lightbox.currentIndex sp < n)
  /\ (exists sn, Lightbox.showNext e s = Ok sn
     /\ Lightbox.currentIndex sn = (i + 1) mod n
     /\ 0 <= Lightbox.currentIndex sn < n).
Proof.
  intros n i Hn Hi. split.
  - unfold Lightbox.showPrev. fold n i.
    assert (Hr : Z.rem (i - 1 + n) n = (i - 1 + n) mod n)
      by (apply Z.rem_mod_nonneg; lia).
    assert (Hb : 0 <= (i - 1 + n) mod n < n) by (apply Z.mod_pos_bound; lia).
    destruct (updateLightboxContent_ok e (Lightbox.with_index (Z.rem (i - 1 + n) n) s))
      as [sp Hsp]; [cbn; fold n; lia |].
    exists sp. split; [exact Hsp |].
    apply updateLightboxContent_index in Hsp. cbn in Hsp. lia.
  - unfold Lightbox.showNext. fold n i.
    assert (Hr : Z.rem (i + 1) n = (i + 1) mod n)
      by (apply Z.rem_mod_nonneg; lia).
    assert (Hb : 0 <= (i + 1) mod n < n) by (apply Z.mod_pos_bound; lia).
    destruct (updateLightboxContent_ok e (Lightbox.with_index (Z.rem (i + 1) n) s))
      as [sn Hsn]; [cbn; fold n; lia |].
    exists sn. split; [exact Hsn |].
    apply updateLightboxContent_index in Hsn. cbn in Hsn. lia.
Qed.

(** With five items: [showPrev] from 0 gives 4, [showNext] from 4 gives 0. *)
Lemma lightbox_circular_navigation_five :
  (exists sp, Lightbox.showPrev five_items (Lightbox.with_index 0 Lightbox.init) = Ok sp
     /\ Lightbox.currentIndex sp = 4)
  /\ (exists sn, Lightbox.showNext five_items (Lightbox.with_index 4 Lightbox.init) = Ok sn
     /\ Lightbox.currentIndex sn = 0).
Proof.
  split.
  - destruct (lightbox_circular_navigation five_items
                (Lightbox.with_index 0 Lightbox.init)) as [[sp [H1 [H2 _]]] _];
      [reflexivity | cbn; lia |].
    exists sp. split; [exact H1 | exact H2].
  - destruct (lightbox_circular_navigation five_items
                (Lightbox.with_index 4 Lightbox.init)) as [_ [sn [H1 [H2 _]]]];
      [reflexivity | cbn; lia |].
    exists sn. split; [exact H1 | exact H2].
Defined.

(** ** Lightbox: scroll lock balance *)

(** C10: for a valid index [i] and a counter that is not negative,
    [openLightbox(i)] returns normally and acquires the scroll lock exactly
    once, [closeLightbox()] releases it exactly once, and after the round
    trip the counter has its value from before the opening; when the lock
    was already held the [no-scroll] class is untouched as well. *)
Theorem lightbox_open_close_balanced (e : Lightbox.env) (i : Z)
  (p : ScrollLock.page) (s : Lightbox.state) :
  0 <= i < Lightbox.length_of e ->
  0 <= ScrollLock.scrollLockCount p ->
  exists s1,
    Lightbox.openLightbox e i (p, s) = Ok (ScrollLock.lockScroll p, s1)
    /\ ScrollLock.scrollLockCount (ScrollLock.lockScroll p)
       = ScrollLock.scrollLockCount p + 1
    /\ fst (Lightbox.closeLightbox e (ScrollLock.lockScroll p, s1))
       = ScrollLock.unlockScroll (ScrollLock.lockScroll p)
    /\ ScrollLock.scrollLockCount
         (fst (Lightbox.closeLightbox e (ScrollLock.lockScroll p, s1)))
       = ScrollLock.scrollLockCount p
    /\ (0 < ScrollLock.scrollLockCount p ->
        ScrollLock.no_scroll
          (fst (Lightbox.closeLightbox e (ScrollLock.lockScroll p, s1)))
        = ScrollLock.no_scroll p).
Proof.
  intros Hi Hp. unfold Lightbox.openLightbox.
  cbn [snd fst Lightbox.with_index Lightbox.currentIndex].
  destruct (item_at_valid e i Hi) as [it ->].
  item_data d.
  cbn [bind]. eexists. split; [reflexivity |].
  unfold Lightbox.closeLightbox. cbn [fst snd].
  unfold ScrollLock.unlockScroll, ScrollLock.lockScroll.
  cbn [ScrollLock.scrollLockCount ScrollLock.no_scroll].
  replace (ScrollLock.scrollLockCount p + 1 - 1) with (ScrollLock.scrollLockCount p) by lia.
  rewrite Z.max_r by lia.
  repeat split; try lia.
  intros Hpos.
  destruct (Z.eqb_spec (ScrollLock.scrollLockCount p) 0); [lia | reflexivity].
Qed.

(** Menu open, lightbox opened on the third of five items and closed: the
    page stays locked by the menu; closing the menu then unlocks it. *)
Lemma lock_interplay_example :
  let opened := Menu.openMobileMenu true (ScrollLock.init, Menu.init) in
  let p := fst opened in
  0 <= 2 < Lightbox.length_of five_items
  /\ 0 <= ScrollLock.scrollLockCount p
  /\ exists s1,
       Lightbox.openLightbox five_items 2 (p, Lightbox.init)
       = Ok (ScrollLock.lockScroll p, s1)
       /\ fst (Lightbox.closeLightbox five_items (ScrollLock.lockScroll p, s1))
          = ScrollLock.mkPage 1 true
       /\ fst (Menu.closeMobileMenu true
                 (fst (Lightbox.closeLightbox five_items (ScrollLock.lockScroll p, s1)),
                  snd opened))
          = ScrollLock.mkPage 0 false.
Proof.
  intros opened p.
  assert (Hi : 0 <= 2 < Lightbox.length_of five_items) by (cbn; lia).
  assert (Hp : 0 <= ScrollLock.scrollLockCount p) by (cbn; lia).
  split; [exact Hi | split; [exact Hp |]].
  destruct (lightbox_open_close_balanced five_items 2 p Lightbox.init Hi Hp)
    as [s1 [Ho [_ [Hc _]]]].
  exists s1. split; [exact Ho |]. rewrite Hc. split; reflexivity.
Defined.

(** ** Lightbox: image transitions *)

(** Every transition starts one fade-out tween, whose completion puts the
    item of the index current at the call on display; a tween that was
    running is killed and never completes. *)
Lemma transition_shows_current (e : Lightbox.env) (s : Lightbox.state)
  (complete : bool) :
  Lightbox.hasGSAP e = true ->
  0 <= Lightbox.currentIndex s < Lightbox.length_of e ->
  exists d s',
    Lightbox.getItemData (Lightbox.documentItem e) (Lightbox.item_at e (Lightbox.currentIndex s)) = Ok d
    /\ Lightbox.updateLightboxContent e s = Ok s'
    /\ Lightbox.fadeOut s' = Some d
    /\ Lightbox.imgSrc (Lightbox.onComplete e d complete s') = Lightbox.src d
    /\ Lightbox.capText (Lightbox.onComplete e d complete s') = Lightbox.fullCaption d
    /\ Lightbox.fadeOut (Lightbox.onComplete e d complete s') = None.
Proof.
  intros Hg Hi. unfold Lightbox.updateLightboxContent.
  destruct (item_at_valid e _ Hi) as [it ->].
  item_data d.
  exists d. rewrite Hg. cbn [bind negb]. eexists.
  split; [reflexivity | split; [reflexivity | split; [reflexivity |]]].
  unfold Lightbox.onComplete, Lightbox.updateCounter, Lightbox.fadeInLightboxImage.
  destruct (Lightbox.hasCounter e), complete; cbn; auto.
Qed.

(** Listeners left over from an earlier navigation are gone once the
    fade-out has completed: the image then carries the two new listeners, or
    none when it was complete at once. *)
Lemma onComplete_listeners (e : Lightbox.env) (d : Lightbox.itemData)
  (complete : bool) (s : Lightbox.state) :
  let s' := Lightbox.onComplete e d complete s in
  Lightbox.onLoad s' = negb complete /\ Lightbox.onError s' = negb complete.
Proof.
  unfold Lightbox.onComplete, Lightbox.updateCounter, Lightbox.fadeInLightboxImage.
  destruct (Lightbox.hasCounter e), complete; cbn; auto.
Qed.

(** C2, where the code departs from it. The lightbox shows the first of
    three items. [showNext] fades out and, the fade-out done, asks for the
    second image, which is not loaded yet. [showNext] is called again; while
    its fade-out runs the second image finishes loading. The listener of the
    superseded transition is still attached (it is only removed when the new
    fade-out completes), so [fadeInLightboxImage] runs and the second image
    is faded in although the index is already on the third. The third image
    is shown afterwards. *)
Theorem stale_load_fades_in_superseded_image :
  let start := (ScrollLock.init, Lightbox.init) in
  (exists p s,
     Lightbox.run three_items
       [Lightbox.Open 0; Lightbox.Next; Lightbox.TweenDone false;
        Lightbox.Next; Lightbox.ImgLoad] start = Ok (p, s)
     /\ Lightbox.currentIndex s = 2
     /\ Lightbox.fadeOut s <> None
     /\ Lightbox.imgSrc s = "b"%string
     /\ Lightbox.shown s = ["b"%string])
  /\ (exists p s,
     Lightbox.run three_items
       [Lightbox.Open 0; Lightbox.Next; Lightbox.TweenDone false;
        Lightbox.Next; Lightbox.ImgLoad;
        Lightbox.TweenDone false; Lightbox.ImgLoad] start = Ok (p, s)
     /\ Lightbox.imgSrc s = "c"%string
     /\ Lightbox.shown s = ["b"; "c"]%string).
Proof.
  split; eexists; eexists; (split; [vm_compute; reflexivity |]);
    cbn; repeat split; discriminate.
Qed.

(** ** Resize broadcaster *)

Lemma last_cons_default {A : Type} (l : list A) :
  forall t d : A, last (t :: l) d = last l t.
Proof.
  induction l as [| a l IH]; intros t d; [reflexivity |].
  change (last (t :: a :: l) d) with (last (a :: l) d).
  rewrite (IH a d), (IH a t). reflexivity.
Qed.

Section ResizeFacts.

Context {W cb : Type} (invoke : cb -> W -> W).

(** Every signal of a burst replaces the pending timeout and runs nothing. *)
Lemma signals_within_burst (ts : list Z) :
  forall (t0 id : Z) (s : Resize.state W cb),
    Resize.pending (Resize.clock s) = [(id, t0 + 200)] ->
    Resize.resizeTimer s = Some id ->
    Resize.now (Resize.clock s) = t0 ->
    Resize.burst_from t0 ts ->
    let s' := Resize.signals invoke ts s in
    (exists id', Resize.pending (Resize.clock s') = [(id', last ts t0 + 200)]
                 /\ Resize.resizeTimer s' = Some id')
    /\ Resize.now (Resize.clock s') = last ts t0
    /\ Resize.calls s' = Resize.calls s
    /\ Resize.broadcasts s' = Resize.broadcasts s
    /\ Resize.world s' = Resize.world s
    /\ Resize.resizeCallbacks s' = Resize.resizeCallbacks s.
Proof.
  induction ts as [| t ts IH]; intros t0 id s Hp Hr Hn Hb.
  - cbn. repeat split; eauto.
  - cbn [Resize.burst_from] in Hb. destruct Hb as [Ht Hb].
    cbn [Resize.signals].
    set (s1 := Resize.on_resize_event (Resize.advance invoke t s)).
    assert (Hd : (t0 + 200 <=? t) = false) by (apply Z.leb_gt; lia).
    assert (Hs1 : s1 = Resize.mkState
                    (Resize.mkTimers t (Resize.nextTimer (Resize.clock s) + 1)
                       [(Resize.nextTimer (Resize.clock s), t + 200)])
                    (Some (Resize.nextTimer (Resize.clock s)))
                    (Resize.resizeCallbacks s) (Resize.world s)
                    (Resize.calls s) (Resize.broadcasts s)).
    { unfold s1, Resize.on_resize_event, Resize.advance.
      rewrite Hp. cbn. rewrite Hd. cbn. rewrite Hr. cbn. rewrite Z.eqb_refl. cbn.
      rewrite Hn. replace (Z.max t t0) with t by lia. reflexivity. }
    specialize (IH t (Resize.nextTimer (Resize.clock s)) s1).
    rewrite Hs1 in IH. cbn in IH. specialize (IH eq_refl eq_refl eq_refl Hb).
    rewrite <- Hs1 in IH.
    rewrite last_cons_default. exact IH.
Qed.

(** From a quiet broadcaster, after a burst exactly one timeout is pending,
    due 200 ms after the last signal, and nothing has been called. *)
Lemma signals_burst (ts : list Z) (s : Resize.state W cb) :
  Resize.pending (Resize.clock s) = [] ->
  Resize.now (Resize.clock s) <= hd 0 ts ->
  Resize.burst ts ->
  let s' := Resize.signals invoke ts s in
  (exists id', Resize.pending (Resize.clock s') = [(id', last ts 0 + 200)]
               /\ Resize.resizeTimer s' = Some id')
  /\ Resize.now (Resize.clock s') = last ts 0
  /\ Resize.calls s' = Resize.calls s
  /\ Resize.broadcasts s' = Resize.broadcasts s
  /\ Resize.world s' = Resize.world s
  /\ Resize.resizeCallbacks s' = Resize.resizeCallbacks s.
Proof.
  destruct ts as [| t ts]; [intros _ _ [] |].
  cbn [hd Resize.burst]. intros Hp Hn Hb.
  cbn [Resize.signals].
  set (s1 := Resize.on_resize_event (Resize.advance invoke t s)).
  assert (Hs1 : s1 = Resize.mkState
                  (Resize.mkTimers t (Resize.nextTimer (Resize.clock s) + 1)
                     [(Resize.nextTimer (Resize.clock s), t + 200)])
                  (Some (Resize.nextTimer (Resize.clock s)))
                  (Resize.resizeCallbacks s) (Resize.world s)
                  (Resize.calls s) (Resize.broadcasts s)).
  { unfold s1, Resize.on_resize_event, Resize.advance.
    rewrite Hp. cbn.
    replace (Z.max t (Resize.now (Resize.clock s))) with t by lia.
    destruct (Resize.resizeTimer s); cbn; rewrite ?Hp; reflexivity. }
  pose proof (signals_within_burst ts t (Resize.nextTimer (Resize.clock s)) s1) as H.
  rewrite Hs1 in H. cbn in H. specialize (H eq_refl eq_refl eq_refl Hb).
  rewrite <- Hs1 in H.
  rewrite last_cons_default. exact H.
Qed.

(** [onResize] appends to the list of callbacks and touches nothing else. *)
Lemma register_all_spec (cbs : list cb) :
  forall s : Resize.state W cb,
    Resize.resizeCallbacks (register_all cbs s) = Resize.resizeCallbacks s ++ cbs
    /\ Resize.clock (register_all cbs s) = Resize.clock s
    /\ Resize.resizeTimer (register_all cbs s) = Resize.resizeTimer s
    /\ Resize.world (register_all cbs s) = Resize.world s
    /\ Resize.calls (register_all cbs s) = Resize.calls s
    /\ Resize.broadcasts (register_all cbs s) = Resize.broadcasts s.
Proof.
  induction cbs as [| c cbs IH]; intros s.
  - cbn. rewrite app_nil_r. repeat split; reflexivity.
  - change (register_all (c :: cbs) s)
      with (register_all cbs (Resize.onResize c s)).
    destruct (IH (Resize.onResize c s)) as [H1 [H2 [H3 [H4 [H5 H6]]]]].
    rewrite H1, H2, H3, H4, H5, H6. cbn. rewrite <- app_assoc.
    repeat split; reflexivity.
Qed.

(** C4: the callbacks [cbs] are registered by [onResize], one after the
    other, with a broadcaster that has no pending timeout; then comes a
    burst of at least one resize signal, each less than 200 ms after the
    one before it; the callbacks [late] are registered after its last
    signal. Nothing is broadcast during the burst nor before 200 ms have
    passed since its last signal; once they have, exactly one broadcast has
    run, at that moment, and it called every callback registered by then
    once, in the order of registration, each on the result of the one
    before. *)
Theorem resize_burst_one_broadcast (cbs late : list cb) (ts : list Z) (T : Z)
  (s0 : Resize.state W cb) :
  Resize.pending (Resize.clock s0) = [] ->
  Resize.now (Resize.clock s0) <= hd 0 ts ->
  Resize.burst ts ->
  let tN := last ts 0 in
  let registered := Resize.resizeCallbacks s0 ++ cbs ++ late in
  let s' := Resize.advance invoke T
              (register_all late
                 (Resize.signals invoke ts (register_all cbs s0))) in
  Resize.resizeCallbacks s' = registered
  /\ (T < tN + 200 ->
     Resize.broadcasts s' = Resize.broadcasts s0
     /\ Resize.calls s' = Resize.calls s0
     /\ Resize.world s' = Resize.world s0)
  /\ (tN + 200 <= T ->
     Resize.broadcasts s' = Resize.broadcasts s0 ++ [tN + 200]
     /\ Resize.calls s'
        = Resize.calls s0 ++ map (fun c => (tN + 200, c)) registered
     /\ Resize.world s'
        = fold_left (fun w c => invoke c w) registered (Resize.world s0)
     /\ Resize.pending (Resize.clock s') = []).
Proof.
  intros Hp Hn Hb tN registered s'.
  destruct (register_all_spec cbs s0) as [Rcb [Rcl [_ [Rw [Rca Rbr]]]]].
  set (s := register_all cbs s0) in *.
  rewrite <- Rcl in Hp, Hn.
  destruct (signals_burst ts s Hp Hn Hb)
    as [[id [Hpend Htimer]] [Hnow [Hcalls [Hbr [Hw Hcb]]]]].
  fold tN in Hpend, Hnow.
  destruct (register_all_spec late (Resize.signals invoke ts s))
    as [Lcb [Lcl [_ [Lw [Lca Lbr]]]]].
  set (s2 := register_all late (Resize.signals invoke ts s)) in *.
  rewrite <- Lcl in Hpend.
  assert (Hreg : Resize.resizeCallbacks s2 = registered).
  { rewrite Lcb, Hcb, Rcb. unfold registered. now rewrite <- app_assoc. }
  unfold s', Resize.advance. rewrite Hpend. cbn [Resize.fire_due filter snd].
  destruct (tN + 200 <=? T) eqn:Hd.
  - apply Z.leb_le in Hd. cbn. rewrite Hreg, Lca, Lbr, Lw, Hcalls, Hbr, Hw, Rca, Rbr, Rw.
    split; [reflexivity |]. split; [lia | auto].
  - apply Z.leb_gt in Hd. cbn. rewrite Hreg, Lca, Lbr, Lw, Hcalls, Hbr, Hw, Rca, Rbr, Rw.
    split; [reflexivity |]. split; [auto | lia].
Qed.

End ResizeFacts.

(** [onResize] is called for the callbacks 1 and 2; three signals arrive at
    10, 100 and 250 ms; callback 3 is registered after them. The three are
    called once each at 450 ms, in the order of their registration. *)
Lemma resize_burst_example :
  let s0 := Resize.mkState (Resize.mkTimers 0 1 []) None [] 0 [] [] in
  let run T := Resize.advance (fun c w => w * 10 + c) T
                 (register_all [3]
                    (Resize.signals (fun c w => w * 10 + c) [10; 100; 250]
                       (Resize.onResize 2 (Resize.onResize 1 s0)))) in
  Resize.broadcasts (run 449) = []
  /\ Resize.broadcasts (run 1000) = [450]
  /\ Resize.calls (run 1000) = [(450, 1); (450, 2); (450, 3)]
  /\ Resize.world (run 1000) = 123.
Proof.
  intros s0 run.
  pose proof (resize_burst_one_broadcast (fun c w => w * 10 + c)
                [1; 2] [3] [10; 100; 250] 449 s0 eq_refl) as H1.
  pose proof (resize_burst_one_broadcast (fun c w => w * 10 + c)
                [1; 2] [3] [10; 100; 250] 1000 s0 eq_refl) as H2.
  cbn [hd Resize.clock Resize.now s0] in H1, H2.
  specialize (H1 ltac:(lia) ltac:(cbn; lia)).
  specialize (H2 ltac:(lia) ltac:(cbn; lia)).
  cbv zeta in H1, H2.
  destruct H1 as [_ [H1 _]]. destruct H2 as [_ [_ H2]].
  specialize (H1 ltac:(cbn; lia)). specialize (H2 ltac:(cbn; lia)).
  destruct H1 as [H1 _]. destruct H2 as [H2a [H2b [H2c _]]].
  repeat split; assumption.
Defined.

(** ** Navigation observer *)

Lemma append_assoc (a b c : string) : ((a ++ b) ++ c = a ++ (b ++ c))%string.
Proof. induction a as [| x a IH]; cbn; [reflexivity | now rewrite IH]. Qed.

Lemma no_space_app (a b : string) :
  no_space (a ++ b) = no_space a && no_space b.
Proof.
  induction a as [| x a IH]; cbn; [reflexivity |].
  rewrite IH. now rewrite andb_assoc.
Qed.

Lemma no_space_digits (d : Decimal.uint) :
  no_space (NilEmpty.string_of_uint d) = true.
Proof. induction d; cbn; auto. Qed.

Lemma no_space_uint (d : Decimal.uint) :
  no_space (NilZero.string_of_uint d) = true.
Proof.
  destruct d; [reflexivity | ..];
    match goal with
    | |- no_space (NilZero.string_of_uint ?u) = true =>
        change (no_space (NilEmpty.string_of_uint u) = true); apply no_space_digits
    end.
Qed.

Lemma no_space_show_Z (z : Z) : 0 <= z -> no_space (show_Z z) = true.
Proof.
  unfold show_Z. destruct z as [| p | p]; cbn [Z.to_int NilZero.string_of_int];
    intros Hz; [reflexivity | apply no_space_uint | lia].
Qed.

Lemma split_spaces_cons (s : string) :
  exists t ts, Nav.split_spaces s = t :: ts.
Proof.
  induction s as [| c s [t [ts IH]]]; cbn; [eauto |].
  destruct (Ascii.eqb c " "); [eauto |]. rewrite IH. eauto.
Qed.

(** A word without spaces, then a space: the word is the first token. *)
Lemma split_spaces_word (w rest : string) :
  no_space w = true ->
  Nav.split_spaces (w ++ String " " rest) = w :: Nav.split_spaces rest.
Proof.
  induction w as [| c w IH]; cbn; [reflexivity |].
  intros H. apply andb_true_iff in H. destruct H as [Hc Hw].
  apply negb_true_iff in Hc. rewrite Hc, (IH Hw). reflexivity.
Qed.

Lemma string_length_app (a b : string) :
  String.length (a ++ b) = (String.length a + String.length b)%nat.
Proof. induction a as [| c a IH]; cbn; [reflexivity | now rewrite IH]. Qed.

Lemma chop_suffix_app (suffix b : string) :
  Nav.chop_suffix suffix (b ++ suffix) = Some b.
Proof.
  induction b as [| c b IH].
  - cbn [append]. destruct suffix; cbn; [reflexivity |].
    rewrite Ascii.eqb_refl, String.eqb_refl. reflexivity.
  - cbn [append Nav.chop_suffix].
    assert (Hne : String.eqb (String c (b ++ suffix)) suffix = false).
    { apply String.eqb_neq. intros E.
      apply (f_equal String.length) in E. cbn in E.
      rewrite string_length_app in E. lia. }
    rewrite Hne. fold Nav.chop_suffix. rewrite IH. reflexivity.
Qed.

Lemma parse_int_negated (h : Z) :
  0 <= h -> Nav.parse_int (String "-" (show_Z h)) = Some (- h).
Proof.
  intros Hh. unfold Nav.parse_int, show_Z.
  destruct h as [| p | p]; [reflexivity | | lia].
  change (String "-" (NilZero.string_of_int (Z.to_int (Z.pos p))))
    with (NilZero.string_of_int (Z.to_int (Z.neg p))).
  rewrite NilZero.isi.
  - cbn [option_map]. now rewrite DecimalZ.of_to.
  - discriminate.
  - cbn. intros [= E]. now apply Unsigned.to_uint_nonnil in E.
Qed.

(** The browser reads the margin built for a header of height [h] as: top
    [-h] px, right 0 px, bottom -40 percent, left 0 px. *)
Lemma parse_margin_of (h : Z) :
  0 <= h ->
  Nav.parse_margin (Nav.margin_of h)
  = Some [Nav.Px (- h); Nav.Px 0; Nav.Percent (-40); Nav.Px 0].
Proof.
  intros Hh. unfold Nav.parse_margin, Nav.margin_of.
  change ("-" ++ show_Z h ++ "px 0px -40% 0px")%string
    with (String "-" (show_Z h ++ "px" ++ String " " "0px -40% 0px"))%string.
  rewrite <- append_assoc.
  change (String "-" ((show_Z h ++ "px") ++ String " " "0px -40% 0px"))%string
    with ((String "-" (show_Z h ++ "px")) ++ String " " "0px -40% 0px")%string.
  rewrite split_spaces_word.
  - cbn [Nav.parse_all].
    change (String "-" (show_Z h ++ "px"))%string
      with ((String "-" (show_Z h)) ++ "px")%string.
    unfold Nav.parse_length at 1. rewrite chop_suffix_app.
    rewrite parse_int_negated by exact Hh. reflexivity.
  - cbn [no_space]. rewrite no_space_app, no_space_show_Z by exact Hh. reflexivity.
Qed.

Lemma observe_sections (present : string -> bool) (ids : list string) :
  forall o : Nav.observer,
    let o' := fold_left
                (fun o id => if present id
                             then Nav.mkObserver (Nav.oid o) (Nav.opts o)
                                    (Nav.targets o ++ [id])
                             else o) ids o in
    Nav.oid o' = Nav.oid o
    /\ Nav.opts o' = Nav.opts o
    /\ Nav.targets o' = Nav.targets o ++ filter present ids.
Proof.
  induction ids as [| id ids IH]; intros o; cbn [fold_left filter].
  - cbn. rewrite app_nil_r. auto.
  - destruct (present id).
    + destruct (IH (Nav.mkObserver (Nav.oid o) (Nav.opts o) (Nav.targets o ++ [id])))
        as [H1 [H2 H3]].
      cbn in H1, H2, H3. rewrite <- app_assoc in H3. auto.
    + apply IH.
Qed.

(** What [initNavObserver] leaves: the old observer disconnected and a new
    one over the sections that exist, with the margin of the height held in
    [headerHeight]. *)
Lemma initNavObserver_spec (present : string -> bool) (s : Nav.state) :
  let s' := Nav.initNavObserver present s in
  Nav.headerHeight s' = Nav.headerHeight s
  /\ Nav.created s' = Nav.created s + 1
  /\ Nav.disconnected s'
     = match Nav.navObserver s with
       | Some o => o :: Nav.disconnected s
       | None => Nav.disconnected s
       end
  /\ Nav.navObserver s'
     = Some (Nav.mkObserver (Nav.created s)
               (Nav.mkOptions None (Nav.margin_of (Nav.headerHeight s)) 0)
               (filter present Nav.NAV_SECTION_IDS)).
Proof.
  unfold Nav.initNavObserver. cbn [Nav.headerHeight Nav.created Nav.disconnected
    Nav.navObserver].
  repeat split.
  set (o0 := Nav.mkObserver _ _ []).
  destruct (observe_sections present Nav.NAV_SECTION_IDS o0) as [H1 [H2 H3]].
  destruct (fold_left _ _ o0) as [i op tg]. cbn in *. subst. reflexivity.
Qed.

Lemma configured_init (present : string -> bool) (s : Nav.state) :
  Nav.configured (Nav.initNavObserver present s).
Proof.
  destruct (initNavObserver_spec present s) as [Hh [Hc [_ Ho]]].
  eexists. split; [exact Ho |]. cbn [Nav.opts Nav.oid].
  rewrite Hh, Hc. split; [reflexivity | lia].
Qed.

Lemma on_resize_same (present : string -> bool) (s : Nav.state) :
  Nav.on_resize (Some (Nav.headerHeight s)) present s = s.
Proof. unfold Nav.on_resize. now rewrite Z.eqb_refl. Qed.

Lemma on_resize_changed (present : string -> bool) (h : Z) (s : Nav.state) :
  h <> Nav.headerHeight s ->
  Nav.on_resize (Some h) present s
  = Nav.initNavObserver present
      (Nav.mkState h (Nav.navObserver s) (Nav.disconnected s) (Nav.created s)).
Proof.
  intros Hne. unfold Nav.on_resize.
  destruct (Z.eqb_spec h (Nav.headerHeight s)); [contradiction | reflexivity].
Qed.

Lemma configured_on_resize (present : string -> bool) (h : Z) (s : Nav.state) :
  Nav.configured s -> Nav.configured (Nav.on_resize (Some h) present s).
Proof.
  intros Hc. destruct (Z.eq_dec h (Nav.headerHeight s)) as [-> | Hne].
  - now rewrite on_resize_same.
  - rewrite on_resize_changed by exact Hne. apply configured_init.
Qed.

Lemma on_resize_height (present : string -> bool) (h : Z) (s : Nav.state) :
  Nav.headerHeight (Nav.on_resize (Some h) present s) = h.
Proof.
  destruct (Z.eq_dec h (Nav.headerHeight s)) as [-> | Hne].
  - now rewrite on_resize_same.
  - rewrite on_resize_changed by exact Hne.
    now destruct (initNavObserver_spec present
                    (Nav.mkState h (Nav.navObserver s) (Nav.disconnected s)
                       (Nav.created s))) as [-> _].
Qed.

Lemma resizes_spec (present : string -> bool) (hs : list Z) :
  forall s, Nav.configured s ->
    Nav.configured (Nav.resizes hs present s)
    /\ Nav.headerHeight (Nav.resizes hs present s) = last hs (Nav.headerHeight s).
Proof.
  induction hs as [| h hs IH]; intros s Hc; cbn [Nav.resizes]; [auto |].
  destruct (IH _ (configured_on_resize present h s Hc)) as [H1 H2].
  split; [exact H1 |]. rewrite H2, on_resize_height, last_cons_default. reflexivity.
Qed.

(** C8: with the header present and reporting heights that are not
    negative, after the initial [initNavObserver] and any number of resize
    broadcasts the observer in use watches the viewport with margins: top
    minus the current header height in px, right 0, bottom -40 percent,
    left 0; the current header height is the one measured last; and the next
    broadcast disconnects this observer and builds another one (for the new
    height) iff the height it measures differs from the current one,
    otherwise it changes nothing. *)
Theorem nav_observer_margin_and_rebuild
  (present : string -> bool) (h0 : Z) (hs : list Z) (h : Z) :
  0 <= h0 -> Forall (fun x => 0 <= x) hs ->
  let s := Nav.resizes hs present (Nav.initNavObserver present (Nav.init (Some h0))) in
  let s' := Nav.on_resize (Some h) present s in
  Nav.headerHeight s = last hs h0
  /\ (exists o,
        Nav.navObserver s = Some o
        /\ Nav.root (Nav.opts o) = None
        /\ Nav.parse_margin (Nav.rootMargin (Nav.opts o))
           = Some [Nav.Px (- Nav.headerHeight s); Nav.Px 0;
                   Nav.Percent (-40); Nav.Px 0]
        /\ (h = Nav.headerHeight s -> s' = s)
        /\ (h <> Nav.headerHeight s ->
            exists o',
              Nav.navObserver s' = Some o'
              /\ Nav.oid o' <> Nav.oid o
              /\ Nav.disconnected s' = o :: Nav.disconnected s
              /\ Nav.created s' = Nav.created s + 1
              /\ Nav.headerHeight s' = h
              /\ Nav.rootMargin (Nav.opts o') = Nav.margin_of h)).
Proof.
  intros Hh0 Hhs s s'.
  destruct (resizes_spec present hs _ (configured_init present (Nav.init (Some h0))))
    as [Hc Hh]. fold s in Hc, Hh.
  assert (Hlast : Nav.headerHeight s = last hs h0).
  { rewrite Hh.
    now destruct (initNavObserver_spec present (Nav.init (Some h0))) as [-> _]. }
  split; [exact Hlast |].
  destruct Hc as [o [Ho [Hopts Hid]]].
  exists o. split; [exact Ho |]. rewrite Hopts. cbn [Nav.root Nav.rootMargin].
  split; [reflexivity |]. split.
  - apply parse_margin_of. rewrite Hlast.
    clear - Hh0 Hhs. revert h0 Hh0.
    induction Hhs as [| a l Ha _ IH]; intros h0 Hh0; [exact Hh0 |].
    rewrite last_cons_default. apply IH. exact Ha.
  - split.
    + intros ->. apply on_resize_same.
    + intros Hne. unfold s'. rewrite on_resize_changed by exact Hne.
      destruct (initNavObserver_spec present
                  (Nav.mkState h (Nav.navObserver s) (Nav.disconnected s)
                     (Nav.created s))) as [H1 [H2 [H3 H4]]].
      cbn [Nav.headerHeight Nav.created Nav.disconnected Nav.navObserver]
        in H1, H2, H3, H4.
      eexists. split; [exact H4 |].
      cbn [Nav.oid Nav.opts Nav.rootMargin].
      split; [lia |]. split; [rewrite H3, Ho; reflexivity |].
      split; [exact H2 |]. split; [exact H1 | reflexivity].
Qed.

(** A header of 80 px that grows to 96 px at the second of three
    broadcasts. *)
Lemma nav_observer_example :
  let present := fun id => negb (String.eqb id "topics") in
  let s := Nav.resizes [80; 96] present
             (Nav.initNavObserver present (Nav.init (Some 80))) in
  0 <= 80
  /\ Forall (fun x => 0 <= x) [80; 96]
  /\ Nav.headerHeight s = 96
  /\ Nav.on_resize (Some 96) present s = s.
Proof.
  intros present s.
  assert (H0 : 0 <= 80) by lia.
  assert (Hs : Forall (fun x => 0 <= x) [80; 96])
    by (repeat constructor; lia).
  split; [exact H0 | split; [exact Hs |]].
  destruct (nav_observer_margin_and_rebuild present 80 [80; 96] 96 H0 Hs)
    as [Hh [o [_ [_ [_ [Hsame _]]]]]].
  split; [exact Hh |]. apply Hsame. exact Hh.
Defined.

(** Without a header element the callback returns at once: the observer
    built at load, for the default height of 80 px, is never replaced. *)
Lemma nav_observer_without_header (present : string -> bool) (s : Nav.state) :
  Nav.on_resize None present s = s
  /\ Nav.headerHeight (Nav.init None) = 80.
Proof. split; reflexivity. Qed.

(** ** Hero particles *)



Section ParticleFacts.

Variable random : nat -> float.

Lemma move_all_length (w h : Z) (ps : list Particles.particle) :
  forall k, List.length (fst (Particles.move_all random w h ps k)) = List.length ps.
Proof.
  induction ps as [| p ps IH]; intros k; [reflexivity |].
  cbn [Particles.move_all].
  destruct (Particles.move random w h (p, k)) as [p' k1].
  specialize (IH k1).
  destruct (Particles.move_all random w h ps k1) as [ps' k2].
  cbn in *. now rewrite IH.
Qed.

Lemma animate_length (s : Particles.state) :
  List.length (Particles.particles (Particles.animate random s))
  = List.length (Particles.particles s).
Proof.
  unfold Particles.animate.
  destruct (Particles.isHeroVisible s); cbn; [| reflexivity].
  apply move_all_length.
Qed.

Lemma fold_animate_length (l : list positive) :
  forall s, List.length
              (Particles.particles
                 (fold_left (fun s _ => Particles.animate random s) l s))
            = List.length (Particles.particles s).
Proof.
  induction l as [| a l IH]; intros s; cbn; [reflexivity |].
  rewrite IH. apply animate_length.
Qed.

Lemma on_frame_length (s : Particles.state) :
  List.length (Particles.particles (Particles.on_frame random s))
  = List.length (Particles.particles s).
Proof. unfold Particles.on_frame. now rewrite fold_animate_length. Qed.

Lemma on_intersection_length (b : bool) (s : Particles.state) :
  List.length (Particles.particles (Particles.on_intersection random b s))
  = List.length (Particles.particles s).
Proof.
  unfold Particles.on_intersection. cbn.
  destruct (negb (Particles.isHeroVisible s) && b); [| reflexivity].
  now rewrite animate_length.
Qed.





End ParticleFacts.

Section ParticleLoop.

Variable random : nat -> float.

Lemma animate_visible (s : Particles.state) :
  Particles.isHeroVisible s = true ->
  let s' := Particles.animate random s in
  Particles.frames s' = Particles.frames s ++ [Particles.nextFrame s]
  /\ Particles.animId s' = Some (Particles.nextFrame s)
  /\ Particles.nextFrame s' = Pos.succ (Particles.nextFrame s)
  /\ Particles.isHeroVisible s' = true
  /\ Particles.canvasWidth s' = Particles.canvasWidth s
  /\ Particles.canvasHeight s' = Particles.canvasHeight s
  /\ Particles.particleCount s' = Particles.particleCount s
  /\ Particles.particles s'
     = fst (Particles.move_all random (Particles.canvasWidth s)
              (Particles.canvasHeight s) (Particles.particles s) (Particles.draws s)).
Proof.
  intros Hv. unfold Particles.animate. rewrite Hv. cbn.
  repeat split; reflexivity || exact Hv.
Qed.

Lemma animate_hidden (s : Particles.state) :
  Particles.isHeroVisible s = false ->
  Particles.animate random s = Particles.set_animId None s.
Proof. intros Hv. unfold Particles.animate. rewrite Hv. reflexivity. Qed.

Lemma on_intersection_hide (s : Particles.state) :
  Particles.on_intersection random false s = Particles.set_visible false s.
Proof.
  unfold Particles.on_intersection. cbn. now rewrite andb_false_r.
Qed.

Lemma on_intersection_show (s : Particles.state) :
  Particles.on_intersection random true s
  = if Particles.isHeroVisible s then Particles.set_visible true s
    else Particles.animate random (Particles.set_visible true s).
Proof.
  unfold Particles.on_intersection. cbn.
  destruct (Particles.isHeroVisible s); reflexivity.
Qed.

(** The callbacks of one frame, run on a visible section: each requests one
    frame again. *)
Lemma fold_animate_visible (l : list positive) :
  forall s, Particles.isHeroVisible s = true ->
    let s' := fold_left (fun s _ => Particles.animate random s) l s in
    Particles.isHeroVisible s' = true
    /\ List.length (Particles.frames s')
       = (List.length (Particles.frames s) + List.length l)%nat.
Proof.
  induction l as [| a l IH]; intros s Hv; cbn [fold_left].
  - cbn. split; [exact Hv | lia].
  - destruct (animate_visible s Hv) as [Hf [_ [_ [Hv' _]]]].
    destruct (IH _ Hv') as [H1 H2]. split; [exact H1 |].
    rewrite H2, Hf, List.length_app. cbn. lia.
Qed.

(** On a hidden section the callbacks of a frame request nothing. *)
Lemma fold_animate_hidden (l : list positive) :
  forall s, Particles.isHeroVisible s = false ->
    let s' := fold_left (fun s _ => Particles.animate random s) l s in
    Particles.isHeroVisible s' = false
    /\ Particles.frames s' = Particles.frames s
    /\ Particles.nextFrame s' = Particles.nextFrame s
    /\ (l <> [] -> Particles.animId s' = None)
    /\ (l = [] -> Particles.animId s' = Particles.animId s).
Proof.
  induction l as [| a l IH]; intros s Hv; cbn [fold_left].
  - cbn. repeat split; auto. congruence.
  - rewrite (animate_hidden s Hv).
    specialize (IH (Particles.set_animId None s) Hv).
    cbn in IH. destruct IH as [H1 [H2 [H3 [H4 H5]]]].
    repeat split; auto; try discriminate.
    intros _. destruct l; [apply H5; reflexivity | apply H4; discriminate].
Qed.

(** While the section is hidden the frame in flight requests no other, and
    a resize broadcast does not restart the loop. *)
Lemma hidden_loop_halts (s : Particles.state) :
  Particles.isHeroVisible s = false ->
  Particles.frames (Particles.on_frame random s) = []
  /\ (Particles.frames s <> [] -> Particles.animId (Particles.on_frame random s) = None)
  /\ (forall w h iw h',
        In h' (Particles.frames (Particles.on_resize random w h iw s)) ->
        In h' (Particles.frames s)).
Proof.
  intros Hv. split; [| split].
  - unfold Particles.on_frame.
    apply (fold_animate_hidden (Particles.frames s)). exact Hv.
  - intros Hne. unfold Particles.on_frame.
    apply (fold_animate_hidden (Particles.frames s)); [exact Hv | exact Hne].
  - intros w h iw h'. unfold Particles.on_resize.
    destruct (Particles.animId s) as [a |]; cbn; rewrite Hv; cbn; [| tauto].
    rewrite filter_In. tauto.
Qed.

(** A hidden loop with no request pending stays so under frames. *)
Lemma hidden_frames_stay_empty (s : Particles.state) :
  Particles.isHeroVisible s = false ->
  Particles.frames s = [] ->
  forall n : nat,
    Particles.isHeroVisible (Nat.iter n (Particles.on_frame random) s) = false
    /\ Particles.frames (Nat.iter n (Particles.on_frame random) s) = [].
Proof.
  intros Hv Hf. induction n as [| n [IHv IHf]]; [split; assumption |].
  rewrite Nat.iter_succ. set (t := Nat.iter n _ s) in *.
  unfold Particles.on_frame. rewrite IHf. cbn [fold_left]. cbn. auto.
Qed.

(** On a visible section every callback of a frame requests one frame
    again: the number of pending requests never changes. *)
Lemma visible_chains_persist (s : Particles.state) (m : nat) :
  Particles.isHeroVisible s = true ->
  List.length (Particles.frames s) = m ->
  forall n : nat,
    Particles.isHeroVisible (Nat.iter n (Particles.on_frame random) s) = true
    /\ List.length (Particles.frames (Nat.iter n (Particles.on_frame random) s)) = m.
Proof.
  intros Hv Hl. induction n as [| n [IHv IHl]]; [split; assumption |].
  rewrite Nat.iter_succ. set (t := Nat.iter n _ s) in *.
  unfold Particles.on_frame.
  destruct (fold_animate_visible (Particles.frames t)
              (Particles.set_frames [] t) IHv) as [H1 H2].
  split; [exact H1 |]. rewrite H2. cbn. exact IHl.
Qed.

(** The section is reported hidden and visible again before the frame in
    flight has run: the guard of [animate] has not yet ended the old chain,
    the observer callback starts a new one; [animId] holds the newer
    request only. *)
Lemma visible_again_before_frame (w h iw : Z) :
  let s := Particles.run random
             [Particles.Intersecting false; Particles.Intersecting true]
             (Particles.start random w h iw) in
  Particles.frames (Particles.start random w h iw) = [1%positive]
  /\ Particles.frames s = [1%positive; 2%positive]
  /\ Particles.animId s = Some 2%positive
  /\ Particles.nextFrame s = 3%positive
  /\ Particles.isHeroVisible s = true.
Proof.
  intros s. unfold s, Particles.start. cbn [Particles.run Particles.step].
  set (s0 := Particles.initParticles random _).
  assert (Hv0 : Particles.isHeroVisible s0 = true) by reflexivity.
  destruct (animate_visible s0 Hv0) as [Hf [Ha [Hn [Hv _]]]].
  change (Particles.frames s0) with (@nil positive) in Hf.
  change (Particles.nextFrame s0) with 1%positive in Hf, Hn.
  split; [exact Hf |].
  rewrite on_intersection_hide, on_intersection_show.
  change (Particles.isHeroVisible
            (Particles.set_visible false (Particles.animate random s0)))
    with false. cbv iota.
  set (s1 := Particles.set_visible true _).
  assert (Hv1 : Particles.isHeroVisible s1 = true) by reflexivity.
  destruct (animate_visible s1 Hv1) as [Hf1 [Ha1 [Hn1 [Hv2 _]]]].
  assert (E1 : Particles.frames s1 = [1%positive]) by (unfold s1; cbn; exact Hf).
  assert (E2 : Particles.nextFrame s1 = 2%positive) by (unfold s1; cbn; exact Hn).
  rewrite E1, E2 in Hf1. rewrite E2 in Ha1, Hn1.
  repeat split; assumption.
Qed.

(** What a resize broadcast leaves pending: the requests other than the one
    in [animId], and a new one when the section is visible. *)
Lemma on_resize_frames (w h iw : Z) (s : Particles.state) :
  let s' := Particles.on_resize random w h iw s in
  Particles.frames s'
  = match Particles.animId s with
    | Some a => filter (fun h' => negb (h' =? a)%positive) (Particles.frames s)
    | None => Particles.frames s
    end ++ (if Particles.isHeroVisible s then [Particles.nextFrame s] else [])
  /\ Particles.isHeroVisible s' = Particles.isHeroVisible s.
Proof.
  intros s'. unfold s', Particles.on_resize.
  set (s1 := match Particles.animId s with
             | Some a => Particles.cancelAnimationFrame a s
             | None => s
             end).
  assert (H1 : Particles.frames s1
               = match Particles.animId s with
                 | Some a => filter (fun h' => negb (h' =? a)%positive)
                               (Particles.frames s)
                 | None => Particles.frames s
                 end
               /\ Particles.isHeroVisible s1 = Particles.isHeroVisible s
               /\ Particles.nextFrame s1 = Particles.nextFrame s).
  { unfold s1. destruct (Particles.animId s); auto. }
  destruct H1 as [Hf1 [Hv1 Hn1]].
  set (s2 := Particles.initParticles random _).
  assert (H2 : Particles.frames s2 = Particles.frames s1
               /\ Particles.isHeroVisible s2 = Particles.isHeroVisible s
               /\ Particles.nextFrame s2 = Particles.nextFrame s).
  { unfold s2. cbn. auto. }
  destruct H2 as [Hf2 [Hv2 Hn2]]. rewrite Hv2.
  destruct (Particles.isHeroVisible s) eqn:Hv.
  - destruct (animate_visible s2 Hv2) as [Ha [_ [_ [Hb _]]]].
    rewrite Ha, Hf2, Hf1, Hn2. auto.
  - rewrite Hf2, Hf1, app_nil_r. auto.
Qed.

End ParticleLoop.

Section ParticleChain.

Variable random : nat -> float.

Lemma filter_all_equal (a : positive) (l : list positive) :
  (forall h, In h l -> h = a) ->
  filter (fun h' => negb (h' =? a)%positive) l = [].
Proof.
  induction l as [| h l IH]; intros Hall; [reflexivity |].
  cbn. rewrite (Hall h (or_introl eq_refl)), Pos.eqb_refl. cbn.
  apply IH. intros h' Hin. apply Hall. now right.
Qed.

Lemma tracked_cancel (s : Particles.state) :
  Particles.tracked s ->
  match Particles.animId s with
  | Some h => Particles.frames (Particles.cancelAnimationFrame h s) = []
  | None => Particles.frames s = []
  end.
Proof.
  intros Ht. destruct (Particles.animId s) as [a |] eqn:Ea.
  - cbn. apply filter_all_equal. intros h Hin.
    destruct (Ht h Hin) as [E _]. congruence.
  - destruct (Particles.frames s) as [| h l] eqn:Ef; [reflexivity |].
    destruct (Ht h) as [E _]; [rewrite Ef; now left | congruence].
Qed.

Lemma animate_visible_tracked (s : Particles.state) :
  Particles.isHeroVisible s = true ->
  Particles.frames s = [] ->
  let s' := Particles.animate random s in
  Particles.frames s' = [Particles.nextFrame s]
  /\ Particles.tracked s'
  /\ Particles.isHeroVisible s' = true.
Proof.
  intros Hv Hf s'.
  destruct (animate_visible random s Hv) as [H1 [H2 [H3 [H4 _]]]].
  fold s' in H1, H2, H3, H4. rewrite Hf in H1. cbn in H1.
  split; [exact H1 | split; [| exact H4]].
  intros h Hin. rewrite H1 in Hin. destruct Hin as [<- | []].
  rewrite H2, H3. split; [reflexivity | lia].
Qed.

Lemma tracked_nil (s : Particles.state) :
  Particles.frames s = [] -> Particles.tracked s.
Proof. intros Hf h Hin. rewrite Hf in Hin. destruct Hin. Qed.

(** A resize broadcast on a loop whose pending request is the one in
    [animId]. *)
Lemma on_resize_tracked (w h iw : Z) (s : Particles.state) :
  Particles.tracked s ->
  let s' := Particles.on_resize random w h iw s in
  Particles.isHeroVisible s' = Particles.isHeroVisible s
  /\ Particles.frames s'
     = (if Particles.isHeroVisible s then [Particles.nextFrame s] else [])
  /\ Particles.tracked s'.
Proof.
  intros Ht s'. pose proof (tracked_cancel s Ht) as Hc.
  unfold s', Particles.on_resize.
  set (s1 := match Particles.animId s with
             | Some a => Particles.cancelAnimationFrame a s
             | None => s
             end).
  assert (H1 : Particles.frames s1 = []
               /\ Particles.isHeroVisible s1 = Particles.isHeroVisible s
               /\ Particles.nextFrame s1 = Particles.nextFrame s).
  { unfold s1. destruct (Particles.animId s); auto. }
  destruct H1 as [Hf1 [Hv1 Hn1]].
  set (s2 := Particles.initParticles random _).
  assert (H2 : Particles.frames s2 = []
               /\ Particles.isHeroVisible s2 = Particles.isHeroVisible s
               /\ Particles.nextFrame s2 = Particles.nextFrame s).
  { unfold s2. cbn. auto. }
  destruct H2 as [Hf2 [Hv2 Hn2]]. rewrite Hv2.
  destruct (Particles.isHeroVisible s) eqn:Hv.
  - destruct (animate_visible_tracked s2 Hv2 Hf2) as [Ha [Hb Hc']].
    rewrite Hn2 in Ha. auto.
  - split; [exact Hv2 | split; [exact Hf2 | now apply tracked_nil]].
Qed.

Lemma on_frame_inv (vis inflight : bool) (s : Particles.state) :
  Particles.chain_inv vis inflight s ->
  Particles.chain_inv vis false (Particles.on_frame random s).
Proof.
  intros [Hv [Ht [Hl Hq]]]. unfold Particles.on_frame.
  destruct (Particles.frames s) as [| h [| h' l]] eqn:Ef; cbn [fold_left].
  - unfold Particles.chain_inv. cbn.
    split; [exact Hv |]. split; [now apply tracked_nil |]. split; [lia | auto].
  - destruct vis.
    + destruct (animate_visible_tracked (Particles.set_frames [] s) Hv eq_refl)
        as [Ha [Hb Hc]].
      split; [exact Hc | split; [exact Hb | split; [rewrite Ha; cbn; lia |]]].
      discriminate.
    + rewrite animate_hidden by exact Hv. unfold Particles.chain_inv. cbn.
      split; [exact Hv | split; [now apply tracked_nil | split; [lia | auto]]].
  - cbn in Hl. lia.
Qed.

Lemma on_resize_inv (vis inflight : bool) (w h iw : Z) (s : Particles.state) :
  Particles.chain_inv vis inflight s ->
  Particles.chain_inv vis false (Particles.on_resize random w h iw s).
Proof.
  intros [Hv [Ht [Hl Hq]]].
  destruct (on_resize_tracked w h iw s Ht) as [Hv' [Hf' Ht']].
  split; [congruence | split; [exact Ht' | rewrite Hf', Hv]].
  destruct vis; cbn; split; auto; discriminate.
Qed.

Lemma step_inv (ev : Particles.event) (rest : list Particles.event)
  (vis inflight : bool) (s : Particles.state) :
  Particles.chain_inv vis inflight s ->
  Particles.settled vis inflight (ev :: rest) = true ->
  exists vis' inflight',
    Particles.chain_inv vis' inflight' (Particles.step random ev s)
    /\ Particles.settled vis' inflight' rest = true.
Proof.
  intros Hinv Hs. destruct ev as [| [|] | w h iw]; cbn [Particles.settled] in Hs.
  - exists vis, false. split; [eapply on_frame_inv; eassumption | exact Hs].
  - cbn [Particles.step]. rewrite on_intersection_show.
    destruct Hinv as [Hv [Ht [Hl Hq]]]. destruct vis.
    + exists true, inflight. split; [| exact Hs]. rewrite Hv.
      split; [reflexivity | split; [exact Ht | split; [exact Hl | discriminate]]].
    + apply andb_true_iff in Hs. destruct Hs as [Hd Hs].
      apply negb_true_iff in Hd. subst inflight.
      exists true, false. split; [| exact Hs]. rewrite Hv.
      destruct (animate_visible_tracked (Particles.set_visible true s) eq_refl
                  (Hq eq_refl eq_refl)) as [Ha [Hb Hc]].
      split; [exact Hc | split; [exact Hb | split; [rewrite Ha; cbn; lia |]]].
      discriminate.
  - cbn [Particles.step]. rewrite on_intersection_hide.
    destruct Hinv as [Hv [Ht [Hl Hq]]].
    exists false, (if vis then true else inflight). split; [| exact Hs].
    split; [reflexivity | split; [exact Ht | split; [exact Hl |]]].
    intros _ Hd. destruct vis; [discriminate | auto].
  - exists vis, false. split; [eapply on_resize_inv; eassumption | exact Hs].
Qed.

Lemma run_inv (evs : list Particles.event) :
  forall (vis inflight : bool) (s : Particles.state),
    Particles.chain_inv vis inflight s ->
    Particles.settled vis inflight evs = true ->
    exists vis' inflight',
      Particles.chain_inv vis' inflight' (Particles.run random evs s).
Proof.
  induction evs as [| ev evs IH]; intros vis inflight s Hinv Hs.
  - exists vis, inflight. exact Hinv.
  - destruct (step_inv ev evs vis inflight s Hinv Hs) as [v' [d' [Hinv' Hs']]].
    exact (IH v' d' _ Hinv' Hs').
Qed.

Lemma settled_firstn (evs : list Particles.event) :
  forall (n : nat) (vis inflight : bool),
    Particles.settled vis inflight evs = true ->
    Particles.settled vis inflight (firstn n evs) = true.
Proof.
  induction evs as [| ev evs IH]; intros n vis inflight Hs;
    [destruct n; reflexivity |].
  destruct n as [| n]; [reflexivity |].
  destruct ev as [| [|] | w h iw]; cbn [firstn Particles.settled] in *; auto.
  destruct vis; auto.
  apply andb_true_iff in Hs. destruct Hs as [H1 H2]. rewrite H1. cbn. auto.
Qed.

Lemma start_inv (w h iw : Z) :
  Particles.chain_inv true false (Particles.start random w h iw).
Proof.
  unfold Particles.start.
  set (s0 := Particles.initParticles random _).
  destruct (animate_visible_tracked s0 eq_refl eq_refl) as [Ha [Hb Hc]].
  split; [exact Hc | split; [exact Hb | split; [rewrite Ha; cbn; lia |]]].
  discriminate.
Qed.

(** Along a schedule in which a frame has run, or a resize was broadcast,
    between every report that the section is hidden and the next report
    that it is visible, at most one frame request is pending at every
    moment, and it is the one [animId] holds. *)
Lemma settled_schedule_single_chain
  (w h iw : Z) (evs : list Particles.event) (n : nat) :
  Particles.settled true false evs = true ->
  let s := Particles.run random (firstn n evs) (Particles.start random w h iw) in
  (List.length (Particles.frames s) <= 1)%nat
  /\ Particles.tracked s.
Proof.
  intros Hs s.
  destruct (run_inv (firstn n evs) true false _ (start_inv w h iw)
              (settled_firstn evs n true false Hs)) as [v [d [_ [Ht [Hl _]]]]].
  split; assumption.
Qed.

(** C5: the observer callback of the particle loop. A report that the
    section is hidden cancels nothing and requests nothing; the frame in
    flight then runs [animate], whose guard returns without a new request:
    after that frame nothing is pending, [animId] is cleared, and nothing
    is requested by any later frame. A report that the section is visible,
    when it was recorded as hidden, requests one frame and stores its
    handle; when it was recorded as visible it does nothing. The callback
    tests the visibility flag, not whether a request is pending: along a
    schedule with a frame or a resize broadcast between hiding and showing
    at most one request is ever pending, but hidden and visible again
    before the frame in flight has run leaves the requests 1 and 2 pending
    with [animId] holding 2, and two stay pending after every later
    frame. *)
Theorem visibility_gating_double_chain (w h iw : Z) :
  (forall s : Particles.state,
     let s1 := Particles.on_intersection random false s in
     Particles.isHeroVisible s1 = false
     /\ Particles.frames s1 = Particles.frames s
     /\ Particles.animId s1 = Particles.animId s
     /\ Particles.frames (Particles.on_frame random s1) = []
     /\ (Particles.frames s <> [] ->
         Particles.animId (Particles.on_frame random s1) = None)
     /\ (forall n : nat,
           Particles.frames
             (Nat.iter n (Particles.on_frame random)
                (Particles.on_frame random s1)) = []))
  /\ (forall s : Particles.state,
        Particles.isHeroVisible s = false ->
        let s1 := Particles.on_intersection random true s in
        Particles.isHeroVisible s1 = true
        /\ Particles.frames s1 = Particles.frames s ++ [Particles.nextFrame s]
        /\ Particles.animId s1 = Some (Particles.nextFrame s))
  /\ (forall s : Particles.state,
        Particles.isHeroVisible s = true ->
        Particles.on_intersection random true s = s)
  /\ (forall (evs : list Particles.event) (n : nat),
        Particles.settled true false evs = true ->
        (List.length
           (Particles.frames
              (Particles.run random (firstn n evs)
                 (Particles.start random w h iw))) <= 1)%nat)
  /\ (let s := Particles.run random
                 [Particles.Intersecting false; Particles.Intersecting true]
                 (Particles.start random w h iw) in
      Particles.frames (Particles.start random w h iw) = [1%positive]
      /\ Particles.frames s = [1%positive; 2%positive]
      /\ Particles.animId s = Some 2%positive
      /\ forall n : nat,
           List.length
             (Particles.frames (Nat.iter n (Particles.on_frame random) s))
           = 2%nat).
Proof.
  split; [| split; [| split; [| split]]].
  - intros s s1. unfold s1. rewrite on_intersection_hide.
    set (t := Particles.set_visible false s).
    assert (Hv : Particles.isHeroVisible t = false) by reflexivity.
    destruct (hidden_loop_halts random t Hv) as [Hf [Ha _]].
    split; [reflexivity |]. split; [reflexivity |]. split; [reflexivity |].
    split; [exact Hf |]. split; [exact Ha |].
    intros n.
    assert (Hv' : Particles.isHeroVisible (Particles.on_frame random t) = false).
    { unfold Particles.on_frame.
      apply (fold_animate_hidden random (Particles.frames t)). reflexivity. }
    apply (hidden_frames_stay_empty random _ Hv' Hf n).
  - intros s Hv s1. unfold s1. rewrite on_intersection_show, Hv.
    destruct (animate_visible random (Particles.set_visible true s) eq_refl)
      as [Hf [Ha [_ [Hv' _]]]].
    split; [exact Hv' | split; [exact Hf | exact Ha]].
  - intros s Hv. rewrite on_intersection_show, Hv.
    destruct s as [cw ch ps a c v d f nx]. cbn in Hv. subst v. reflexivity.
  - intros evs n Hs.
    apply (settled_schedule_single_chain w h iw evs n Hs).
  - intros s.
    destruct (visible_again_before_frame random w h iw)
      as [H0 [Hf [Ha [_ Hv]]]]. fold s in Hf, Ha, Hv.
    split; [exact H0 | split; [exact Hf | split; [exact Ha |]]].
    intros n.
    apply (visible_chains_persist random s 2 Hv); rewrite Hf; reflexivity.
Qed.

(** C7: the resize callback of the particle loop, in any state: the canvas
    takes the size of its box; the particle count becomes
    [min (floor (innerWidth / 15)) 80]; the particles are that many new
    ones made by [createParticle], none of the old ones (moved once by the
    restarted [animate] when the section is visible); the visibility is
    unchanged and one new frame request is made iff the section is
    visible. Of the requests pending before, the callback cancels the one
    whose handle [animId] holds and no other: when that is the only one,
    no earlier request stays pending; after the section was reported
    hidden and visible again with no frame in between, request 1 stays
    pending beside the new request 3, and two stay pending after every
    later frame. *)
Theorem particles_resize_reinitialises (w h iw : Z) (s : Particles.state) :
  let s' := Particles.on_resize random w h iw s in
  let n := Z.to_nat (Z.min (iw / 15) 80) in
  let fresh := Particles.createParticles random w h n (Particles.draws s) in
  Particles.canvasWidth s' = w
  /\ Particles.canvasHeight s' = h
  /\ Particles.particleCount s' = Z.min (iw / 15) 80
  /\ Particles.particles s'
     = (if Particles.isHeroVisible s
        then fst (Particles.move_all random w h fresh (Particles.draws s + 9 * n))
        else fresh)
  /\ List.length (Particles.particles s') = n
  /\ Particles.isHeroVisible s' = Particles.isHeroVisible s
  /\ Particles.frames s'
     = match Particles.animId s with
       | Some a => filter (fun h' => negb (h' =? a)%positive) (Particles.frames s)
       | None => Particles.frames s
       end ++ (if Particles.isHeroVisible s then [Particles.nextFrame s] else [])
  /\ (Particles.tracked s ->
      Particles.frames s'
      = (if Particles.isHeroVisible s then [Particles.nextFrame s] else [])
      /\ forall a, In a (Particles.frames s) -> ~ In a (Particles.frames s'))
  /\ (forall ow oh wi : Z,
        let t := Particles.run random
                   [Particles.Intersecting false; Particles.Intersecting true]
                   (Particles.start random ow oh wi) in
        let t' := Particles.on_resize random w h iw t in
        Particles.frames t = [1%positive; 2%positive]
        /\ Particles.animId t = Some 2%positive
        /\ Particles.frames t' = [1%positive; 3%positive]
        /\ forall m : nat,
             List.length
               (Particles.frames (Nat.iter m (Particles.on_frame random) t'))
             = 2%nat).
Proof.
  intros s' n fresh.
  destruct (on_resize_frames random w h iw s) as [Hf Hv]. fold s' in Hv, Hf.
  assert (Hlen : List.length fresh = n).
  { unfold fresh. generalize (Particles.draws s).
    induction n as [| n IH]; intros k; cbn; [reflexivity | now rewrite IH]. }
  assert (Hrest : Particles.canvasWidth s' = w
                  /\ Particles.canvasHeight s' = h
                  /\ Particles.particleCount s' = Z.min (iw / 15) 80
                  /\ Particles.particles s'
                     = (if Particles.isHeroVisible s
                        then fst (Particles.move_all random w h fresh
                                    (Particles.draws s + 9 * n))
                        else fresh)).
  { unfold s', Particles.on_resize.
    set (s1 := match Particles.animId s with
               | Some a => Particles.cancelAnimationFrame a s
               | None => s
               end).
    assert (H1 : Particles.isHeroVisible s1 = Particles.isHeroVisible s
                 /\ Particles.draws s1 = Particles.draws s).
    { unfold s1. destruct (Particles.animId s); auto. }
    destruct H1 as [Hv1 Hd1].
    set (s2 := Particles.initParticles random _).
    assert (Hv2 : Particles.isHeroVisible s2 = Particles.isHeroVisible s)
      by (unfold s2; cbn; exact Hv1).
    assert (Hp2 : Particles.particles s2 = fresh
                  /\ Particles.draws s2 = (Particles.draws s + 9 * n)%nat
                  /\ Particles.canvasWidth s2 = w
                  /\ Particles.canvasHeight s2 = h
                  /\ Particles.particleCount s2 = Z.min (iw / 15) 80).
    { unfold s2, fresh, n. cbn. rewrite Hd1. auto. }
    destruct Hp2 as [Hp2 [Hd2 [Hw2 [Hh2 Hc2]]]].
    rewrite Hv2. destruct (Particles.isHeroVisible s) eqn:Hvis.
    - destruct (animate_visible random s2 Hv2)
        as [_ [_ [_ [_ [Hw [Hh [Hc Hp]]]]]]].
      rewrite Hw, Hh, Hc, Hp, Hw2, Hh2, Hc2, Hp2, Hd2. auto.
    - auto. }
  destruct Hrest as [Hw [Hh [Hc Hp]]].
  split; [exact Hw |]. split; [exact Hh |]. split; [exact Hc |].
  split; [exact Hp |].
  split.
  { rewrite Hp. destruct (Particles.isHeroVisible s); [| exact Hlen].
    rewrite move_all_length. exact Hlen. }
  split; [exact Hv |]. split; [exact Hf |].
  split.
  - intros Ht.
    destruct (on_resize_tracked w h iw s Ht) as [_ [Hf' _]]. fold s' in Hf'.
    split; [exact Hf' |].
    intros a Hin Hin'. destruct (Ht a Hin) as [_ Hlt].
    rewrite Hf' in Hin'. destruct (Particles.isHeroVisible s); [| destruct Hin'].
    destruct Hin' as [E | []]. subst a. lia.
  - intros ow oh wi t t'.
    destruct (visible_again_before_frame random ow oh wi)
      as [_ [Tf [Ta [Tn Tv]]]]. fold t in Tf, Ta, Tn, Tv.
    destruct (on_resize_frames random w h iw t) as [Tf' Tv']. fold t' in Tf', Tv'.
    rewrite Ta, Tf, Tv, Tn in Tf'.
    change (Particles.frames t' = [1%positive; 3%positive]) in Tf'.
    split; [exact Tf | split; [exact Ta | split; [exact Tf' |]]].
    intros m. rewrite Tv in Tv'.
    apply (visible_chains_persist random t' 2 Tv'). rewrite Tf'. reflexivity.
Qed.

End ParticleChain.

(** The particle count of [calcParticleCount], computed with integers, is
    what the binary64 evaluation of the source expression gives, for every
    viewport width up to 8192 px. *)
Lemma calcParticleCount_as_floats :
  forallb
    (fun w => match Particles.calcParticleCount_float (Z.of_nat w) with
              | Some c => c =? Particles.calcParticleCount (Z.of_nat w)
              | None => false
              end)
    (seq 0 (Z.to_nat 8193)) = true.
Proof. vm_compute. reflexivity. Qed.

(** Particles made by [createParticle] drift upwards: on the sample values
    of [Math.random], and at both ends of its range. *)
Example createParticle_drifts_up :
  forallb (fun p => PrimFloat.ltb (Particles.speedY p) 0)
    (Particles.createParticles sample_random 300 200 80 0
     ++ [Particles.createParticle (fun _ => 0%float) 300 200 0;
         Particles.createParticle (fun _ => 0.99999999999999989%float) 300 200 0])
  = true.
Proof. vm_compute. reflexivity. Qed.


(** A schedule with a frame between hiding and showing, cut after four of
    its events. *)
Lemma settled_schedule_example :
  let evs := [Particles.Frame; Particles.Intersecting false; Particles.Frame;
              Particles.Intersecting true; Particles.Resized 640 360 900;
              Particles.Frame] in
  let s := Particles.run sample_random (firstn 4 evs)
             (Particles.start sample_random 300 200 1280) in
  Particles.settled true false evs = true
  /\ (List.length (Particles.frames s) <= 1)%nat
  /\ Particles.tracked s.
Proof.
  intros evs s. split; [reflexivity |].
  exact (settled_schedule_single_chain sample_random 300 200 1280 evs 4 eq_refl).
Defined.

(** ** Optional elements *)



Lemma initLightbox_absent (d : Page.dom) (w : Page.components) :
  lightbox_elements d = false \/ Page.gallery d = [] ->
  Page.initLightbox d w = Ok w.
Proof.
  unfold lightbox_elements, Page.initLightbox, Page.query.
  intros [H | H].
  - destruct (Page.lightbox d), (Page.lightboxImg d), (Page.lightboxCap d),
      (Page.lightboxClose d), (Page.lightboxPrev d), (Page.lightboxNext d);
      try discriminate; reflexivity.
  - rewrite H.
    destruct (Page.lightbox d), (Page.lightboxImg d), (Page.lightboxCap d),
      (Page.lightboxClose d), (Page.lightboxPrev d), (Page.lightboxNext d);
      reflexivity.
Qed.




Lemma log_all_fields (es : list Page.effect) :
  forall w : Page.components,
    Page.scroll (log_all es w) = Page.scroll w
    /\ Page.menu (log_all es w) = Page.menu w
    /\ Page.nav (log_all es w) = Page.nav w
    /\ Page.particles (log_all es w) = Page.particles w
    /\ Page.heroObserved (log_all es w) = Page.heroObserved w
    /\ Page.box (log_all es w) = Page.box w
    /\ Page.effects (log_all es w) = (Page.effects w ++ es)%list.
Proof.
  induction es as [| x es IH]; intros w; cbn [log_all fold_left].
  - rewrite app_nil_r. repeat split.
  - fold (log_all es (Page.log x w)).
    destruct (IH (Page.log x w)) as [H1 [H2 [H3 [H4 [H5 [H6 H7]]]]]].
    rewrite H1, H2, H3, H4, H5, H6, H7. cbn. rewrite <- app_assoc.
    repeat split.
Qed.

Lemma log_all_app (es1 es2 : list Page.effect) (w : Page.components) :
  log_all (es1 ++ es2) w = log_all es2 (log_all es1 w).
Proof. unfold log_all. apply fold_left_app. Qed.

Lemma setup_items_log (items : list Lightbox.item) :
  forall (i : Z) (w : Page.components),
    Page.setup_items items i w = Ok (log_all (items_effects items i) w).
Proof.
  induction items as [| it items IH]; intros i w;
    cbn [Page.setup_items items_effects]; [reflexivity |].
  cbn [Page.setAttribute Page.addEventListener deref bind].
  rewrite IH. rewrite log_all_app. reflexivity.
Qed.

Lemma initLightbox_log (d : Page.dom) (w : Page.components) :
  lightbox_elements d = true ->
  Page.gallery d <> [] ->
  Page.initLightbox d w
  = Ok (log_all
          (items_effects (Page.gallery d) 0
           ++ [Page.Listen "#lightboxClose" "click"]
           ++ (if Page.lightboxOverlay d
               then [Page.Listen ".lightbox__overlay" "click"] else [])
           ++ [Page.Listen "#lightboxPrev" "click";
               Page.Listen "#lightboxNext" "click";
               Page.Listen "document" "keydown";
               Page.Listen "#lightbox" "keydown"])
          (Page.mkComponents (Page.scroll w) (Page.menu w) (Page.nav w)
             (Page.particles w) (Page.heroObserved w)
             (Some (Lightbox.mkEnv (Page.hasGSAP d) (Page.gallery d)
                      (Page.lightboxCounter d) (Page.documentItem d),
                    Lightbox.init))
             (Page.effects w))).
Proof.
  intros He Hg. unfold lightbox_elements in He.
  repeat (apply andb_true_iff in He; destruct He as [He ?]).
  unfold Page.initLightbox, Page.query.
  repeat match goal with H : _ = true |- _ => rewrite H; clear H end.
  cbn [Page.is_null orb].
  destruct (Page.gallery d) as [| it items] eqn:Eg; [contradiction |].
  cbn [List.length Nat.eqb].
  rewrite setup_items_log. cbn [bind].
  rewrite !log_all_app.
  destruct (Page.lightboxOverlay d); reflexivity.
Qed.

(** What the top level leaves when it has run to its end. *)
Lemma main_world (d : Page.dom) (p : Page.page) :
  Page.main d = Ok p ->
  Page.observerInWindow d = true
  /\ Resize.resizeCallbacks p = [Page.HeaderHeight]
  /\ Page.scroll (Resize.world p) = ScrollLock.init
  /\ Page.menu (Resize.world p) = Menu.init
  /\ Page.nav (Resize.world p)
     = Nav.initNavObserver (Page.has_section d) (Nav.init (Page.header d))
  /\ Page.box (Resize.world p)
     = (if lightbox_elements d
        then match Page.gallery d with
             | [] => None
             | _ :: _ =>
                 Some (Lightbox.mkEnv (Page.hasGSAP d) (Page.gallery d)
                         (Page.lightboxCounter d) (Page.documentItem d),
                       Lightbox.init)
             end
        else None).
Proof.
  unfold Page.main, Page.initNavObserver.
  destruct (Page.observerInWindow d); [| discriminate]. cbn [bind].
  set (w0 := Page.mkComponents _ _ _ _ _ _ _).
  set (fresh := fun w : Page.components =>
                  Page.scroll w = ScrollLock.init /\ Page.menu w = Menu.init
                  /\ Page.nav w
                     = Nav.initNavObserver (Page.has_section d)
                         (Nav.init (Page.header d))
                  /\ Page.box w = None).
  assert (Hopt : forall t ev (w : Page.components),
             fresh w ->
             exists w', Page.addEventListener_opt t ev w = Ok w' /\ fresh w').
  { intros [t |] ev w H; cbn; eauto. }
  assert (H0 : fresh w0) by (repeat split).
  destruct (Hopt (Page.query (Page.hamburger d) "#hamburger") "click"%string w0 H0)
    as [w1 [-> H1]]. cbn [bind].
  destruct (Hopt (Page.query (Page.mobileMenu d) "#mobileMenu") "click"%string w1 H1)
    as [w2 [-> H2]]. cbn [bind deref Page.addEventListener].
  set (w4 := Page.log _ (Page.log _ w2)).
  assert (H4 : fresh w4) by exact H2.
  clearbody w4.
  cbn [Resize.onResize Resize.world].
  destruct H4 as [Hs [Hm [Hn Hb]]].
  destruct (lightbox_elements d) eqn:He.
  - destruct (Page.gallery d) as [| it items] eqn:Eg.
    + rewrite initLightbox_absent by (now right). cbn [bind].
      intros [= <-]. cbn [Page.on_world Resize.world Resize.resizeCallbacks].
      rewrite Hs, Hm, Hn, Hb. repeat split.
    + rewrite initLightbox_log by (auto; rewrite Eg; discriminate). cbn [bind].
      intros [= <-].
      cbn [Page.on_world Resize.world Resize.resizeCallbacks].
      match goal with |- context [log_all ?es ?w] =>
        destruct (log_all_fields es w) as [F1 [F2 [F3 [_ [_ [F6 _]]]]]] end.
      rewrite F1, F2, F3, F6. cbn [Page.scroll Page.menu Page.nav Page.box].
      rewrite Hs, Hm, Hn, Eg. repeat split.
  - rewrite initLightbox_absent by (now left). cbn [bind].
    intros [= <-]. cbn [Page.on_world Resize.world Resize.resizeCallbacks].
    rewrite Hs, Hm, Hn, Hb. repeat split.
Qed.





(** A document without lightbox, canvas and sections loads like one that
    has them, minus those features: the header callback is registered, the
    observer exists and watches nothing, no particle loop, no lightbox. *)
Example bare_document_loads :
  exists p,
    Page.main Page.bare = Ok p
    /\ Page.completeLoading Page.bare p = Ok p
    /\ Resize.resizeCallbacks p = [Page.HeaderHeight]
    /\ Page.particles (Resize.world p) = None
    /\ Page.box (Resize.world p) = None.
Proof. eexists. split; [reflexivity |]. repeat split. Qed.

(** * Further properties *)

(** ** Lightbox: index and content *)

Lemma updateCounter_index (e : Lightbox.env) (s : Lightbox.state) :
  Lightbox.currentIndex (Lightbox.updateCounter e s) = Lightbox.currentIndex s.
Proof. unfold Lightbox.updateCounter. now destruct (Lightbox.hasCounter e). Qed.

Lemma onComplete_index (e : Lightbox.env) (d : Lightbox.itemData) (c : bool)
  (s : Lightbox.state) :
  Lightbox.currentIndex (Lightbox.onComplete e d c s) = Lightbox.currentIndex s.
Proof.
  unfold Lightbox.onComplete, Lightbox.fadeInLightboxImage, Lightbox.updateCounter.
  destruct (Lightbox.hasCounter e), c; reflexivity.
Qed.

Lemma closeLightbox_index (e : Lightbox.env) (ps : ScrollLock.page * Lightbox.state) :
  Lightbox.currentIndex (snd (Lightbox.closeLightbox e ps))
  = Lightbox.currentIndex (snd ps).
Proof.
  unfold Lightbox.closeLightbox. cbn [snd].
  destruct (Lightbox.hasGSAP e); cbn;
    match goal with |- context [Lightbox.item_at ?a ?b] =>
      destruct (Lightbox.item_at a b) end; reflexivity.
Qed.

Lemma openLightbox_index (e : Lightbox.env) (i : Z)
  (ps ps' : ScrollLock.page * Lightbox.state) :
  Lightbox.openLightbox e i ps = Ok ps' -> Lightbox.currentIndex (snd ps') = i.
Proof.
  unfold Lightbox.openLightbox.
  destruct (Lightbox.getItemData _ _) as [d |]; cbn [bind]; [| discriminate].
  intros [= <-]. cbn [snd]. unfold Lightbox.updateCounter.
  destruct (Lightbox.hasCounter e); reflexivity.
Qed.

Lemma openLightbox_ok (e : Lightbox.env) (i : Z)
  (ps : ScrollLock.page * Lightbox.state) :
  0 <= i < Lightbox.length_of e -> exists ps', Lightbox.openLightbox e i ps = Ok ps'.
Proof.
  intros Hi. unfold Lightbox.openLightbox.
  cbn [Lightbox.with_index Lightbox.currentIndex].
  destruct (item_at_valid e i Hi) as [it ->].
  item_data d. cbn [bind]. eauto.
Qed.

Lemma showNext_index (e : Lightbox.env) (s : Lightbox.state) :
  0 <= Lightbox.currentIndex s < Lightbox.length_of e ->
  exists s', Lightbox.showNext e s = Ok s'
             /\ Lightbox.currentIndex s'
                = (Lightbox.currentIndex s + 1) mod Lightbox.length_of e.
Proof.
  intros Hi. unfold Lightbox.showNext.
  set (n := Lightbox.length_of e) in *. set (i := Lightbox.currentIndex s) in *.
  assert (Hr : Z.rem (i + 1) n = (i + 1) mod n) by (apply Z.rem_mod_nonneg; lia).
  assert (Hb : 0 <= (i + 1) mod n < n) by (apply Z.mod_pos_bound; lia).
  destruct (updateLightboxContent_ok e (Lightbox.with_index (Z.rem (i + 1) n) s))
    as [s' Hs']; [cbn; fold n; lia |].
  exists s'. split; [exact Hs' |].
  apply updateLightboxContent_index in Hs'. cbn in Hs'. lia.
Qed.

Lemma showPrev_index (e : Lightbox.env) (s : Lightbox.state) :
  0 <= Lightbox.currentIndex s < Lightbox.length_of e ->
  exists s', Lightbox.showPrev e s = Ok s'
             /\ Lightbox.currentIndex s'
                = (Lightbox.currentIndex s - 1) mod Lightbox.length_of e.
Proof.
  intros Hi. unfold Lightbox.showPrev.
  set (n := Lightbox.length_of e) in *. set (i := Lightbox.currentIndex s) in *.
  assert (Hr : Z.rem (i - 1 + n) n = (i - 1 + n) mod n)
    by (apply Z.rem_mod_nonneg; lia).
  assert (Hm : (i - 1 + n) mod n = (i - 1) mod n).
  { replace (i - 1 + n) with (i - 1 + 1 * n) by lia. apply Z.mod_add. lia. }
  assert (Hb : 0 <= (i - 1) mod n < n) by (apply Z.mod_pos_bound; lia).
  destruct (updateLightboxContent_ok e (Lightbox.with_index (Z.rem (i - 1 + n) n) s))
    as [s' Hs']; [cbn; fold n; lia |].
  exists s'. split; [exact Hs' |].
  apply updateLightboxContent_index in Hs'. cbn in Hs'. lia.
Qed.

Lemma step_in_range (e : Lightbox.env) (ev : Lightbox.event)
  (p : ScrollLock.page) (s : Lightbox.state) :
  0 <= Lightbox.currentIndex s < Lightbox.length_of e ->
  opens_in_range e [ev] = true ->
  exists p' s',
    Lightbox.step e ev (p, s) = Ok (p', s')
    /\ 0 <= Lightbox.currentIndex s' < Lightbox.length_of e.
Proof.
  intros Hi Hev. destruct ev as [i | | | | c | |]; cbn [Lightbox.step fst snd].
  - cbn in Hev. rewrite andb_true_r in Hev. apply andb_true_iff in Hev.
    destruct Hev as [H1 H2]. apply Z.leb_le in H1. apply Z.ltb_lt in H2.
    destruct (openLightbox_ok e i (p, s) (conj H1 H2)) as [[p' s'] Ho].
    exists p', s'. split; [exact Ho |].
    apply openLightbox_index in Ho. cbn in Ho. lia.
  - destruct (Lightbox.closeLightbox e (p, s)) as [p' s'] eqn:Ec.
    exists p', s'. split; [reflexivity |].
    pose proof (closeLightbox_index e (p, s)) as H. rewrite Ec in H. cbn in H. lia.
  - destruct (showPrev_index e s Hi) as [s' [-> Hs']]. cbn [bind].
    exists p, s'. split; [reflexivity |]. rewrite Hs'. apply Z.mod_pos_bound. lia.
  - destruct (showNext_index e s Hi) as [s' [-> Hs']]. cbn [bind].
    exists p, s'. split; [reflexivity |]. rewrite Hs'. apply Z.mod_pos_bound. lia.
  - destruct (Lightbox.fadeOut s) as [d |]; eexists; eexists;
      (split; [reflexivity |]); [rewrite onComplete_index |]; exact Hi.
  - destruct (Lightbox.onLoad s); eexists; eexists; (split; [reflexivity |]); exact Hi.
  - destruct (Lightbox.onError s); eexists; eexists; (split; [reflexivity |]); exact Hi.
Qed.

(** X1: The index of the lightbox stays the index of a gallery item: from a
    state whose index is in range, any sequence of openings (at indices in
    range), closings, previous/next, tween completions and image load or
    error events runs to the end and leaves the index in range. *)
Theorem lightbox_index_stays_in_range (e : Lightbox.env)
  (evs : list Lightbox.event) (p : ScrollLock.page) (s : Lightbox.state) :
  0 <= Lightbox.currentIndex s < Lightbox.length_of e ->
  opens_in_range e evs = true ->
  exists p' s',
    Lightbox.run e evs (p, s) = Ok (p', s')
    /\ 0 <= Lightbox.currentIndex s' < Lightbox.length_of e.
Proof.
  revert p s. induction evs as [| ev evs IH]; intros p s Hi Hev.
  - exists p, s. split; [reflexivity | exact Hi].
  - cbn [opens_in_range forallb] in Hev. apply andb_true_iff in Hev.
    destruct Hev as [H1 H2].
    destruct (step_in_range e ev p s Hi) as [p1 [s1 [Hs Hi1]]].
    { cbn [opens_in_range forallb]. now rewrite H1. }
    cbn [Lightbox.run]. rewrite Hs. cbn [bind]. apply IH; assumption.
Qed.

Lemma lightbox_index_example :
  0 <= Lightbox.currentIndex Lightbox.init < Lightbox.length_of five_items
  /\ opens_in_range five_items
       [Lightbox.Next; Lightbox.Close; Lightbox.Open 4; Lightbox.Next;
        Lightbox.TweenDone true; Lightbox.Prev; Lightbox.ImgLoad] = true
  /\ exists p' s',
       Lightbox.run five_items
         [Lightbox.Next; Lightbox.Close; Lightbox.Open 4; Lightbox.Next;
          Lightbox.TweenDone true; Lightbox.Prev; Lightbox.ImgLoad]
         (ScrollLock.init, Lightbox.init) = Ok (p', s')
       /\ 0 <= Lightbox.currentIndex s' < Lightbox.length_of five_items.
Proof.
  assert (Hi : 0 <= Lightbox.currentIndex Lightbox.init
               < Lightbox.length_of five_items) by (cbn; lia).
  split; [exact Hi | split; [reflexivity |]].
  exact (lightbox_index_stays_in_range five_items
           [Lightbox.Next; Lightbox.Close; Lightbox.Open 4; Lightbox.Next;
            Lightbox.TweenDone true; Lightbox.Prev; Lightbox.ImgLoad]
           ScrollLock.init Lightbox.init Hi eq_refl).
Defined.

(** X2: [showPrev] undoes [showNext] and [showNext] undoes [showPrev], as far as
    the index goes. *)
Theorem lightbox_next_prev_inverse (e : Lightbox.env) (s : Lightbox.state) :
  0 <= Lightbox.currentIndex s < Lightbox.length_of e ->
  (exists s1 s2,
     Lightbox.showNext e s = Ok s1 /\ Lightbox.showPrev e s1 = Ok s2
     /\ Lightbox.currentIndex s2 = Lightbox.currentIndex s)
  /\ (exists s1 s2,
     Lightbox.showPrev e s = Ok s1 /\ Lightbox.showNext e s1 = Ok s2
     /\ Lightbox.currentIndex s2 = Lightbox.currentIndex s).
Proof.
  intros Hi. set (n := Lightbox.length_of e) in *.
  set (i := Lightbox.currentIndex s) in *.
  split.
  - destruct (showNext_index e s Hi) as [s1 [H1 I1]]. fold n i in I1.
    assert (Hb : 0 <= Lightbox.currentIndex s1 < n)
      by (rewrite I1; apply Z.mod_pos_bound; lia).
    destruct (showPrev_index e s1 Hb) as [s2 [H2 I2]]. fold n in I2.
    exists s1, s2. split; [exact H1 | split; [exact H2 |]].
    rewrite I2, I1. rewrite Zminus_mod_idemp_l.
    replace (i + 1 - 1) with i by lia. apply Z.mod_small. lia.
  - destruct (showPrev_index e s Hi) as [s1 [H1 I1]]. fold n i in I1.
    assert (Hb : 0 <= Lightbox.currentIndex s1 < n)
      by (rewrite I1; apply Z.mod_pos_bound; lia).
    destruct (showNext_index e s1 Hb) as [s2 [H2 I2]]. fold n in I2.
    exists s1, s2. split; [exact H1 | split; [exact H2 |]].
    rewrite I2, I1. rewrite Zplus_mod_idemp_l.
    replace (i - 1 + 1) with i by lia. apply Z.mod_small. lia.
Qed.

Lemma lightbox_next_prev_example :
  0 <= Lightbox.currentIndex (Lightbox.with_index 4 Lightbox.init)
    < Lightbox.length_of five_items
  /\ exists s1 s2,
       Lightbox.showNext five_items (Lightbox.with_index 4 Lightbox.init) = Ok s1
       /\ Lightbox.showPrev five_items s1 = Ok s2
       /\ Lightbox.currentIndex s2 = 4.
Proof.
  assert (Hi : 0 <= Lightbox.currentIndex (Lightbox.with_index 4 Lightbox.init)
               < Lightbox.length_of five_items) by (cbn; lia).
  split; [exact Hi |].
  exact (proj1 (lightbox_next_prev_inverse five_items
                  (Lightbox.with_index 4 Lightbox.init) Hi)).
Defined.

Lemma run_nexts (e : Lightbox.env) (k : nat) :
  forall (p : ScrollLock.page) (s : Lightbox.state),
    0 <= Lightbox.currentIndex s < Lightbox.length_of e ->
    exists s',
      Lightbox.run e (repeat Lightbox.Next k) (p, s) = Ok (p, s')
      /\ Lightbox.currentIndex s'
         = (Lightbox.currentIndex s + Z.of_nat k) mod Lightbox.length_of e.
Proof.
  induction k as [| k IH]; intros p s Hi.
  - exists s. split; [reflexivity |]. rewrite Z.add_0_r. symmetry.
    apply Z.mod_small. exact Hi.
  - cbn [repeat Lightbox.run Lightbox.step fst snd].
    destruct (showNext_index e s Hi) as [s1 [-> I1]]. cbn [bind].
    assert (Hb : 0 <= Lightbox.currentIndex s1 < Lightbox.length_of e)
      by (rewrite I1; apply Z.mod_pos_bound; lia).
    destruct (IH p s1 Hb) as [s' [Hr I']].
    exists s'. split; [exact Hr |]. rewrite I', I1, Zplus_mod_idemp_l.
    f_equal. lia.
Qed.

Lemma run_prevs (e : Lightbox.env) (k : nat) :
  forall (p : ScrollLock.page) (s : Lightbox.state),
    0 <= Lightbox.currentIndex s < Lightbox.length_of e ->
    exists s',
      Lightbox.run e (repeat Lightbox.Prev k) (p, s) = Ok (p, s')
      /\ Lightbox.currentIndex s'
         = (Lightbox.currentIndex s - Z.of_nat k) mod Lightbox.length_of e.
Proof.
  induction k as [| k IH]; intros p s Hi.
  - exists s. split; [reflexivity |]. rewrite Z.sub_0_r. symmetry.
    apply Z.mod_small. exact Hi.
  - cbn [repeat Lightbox.run Lightbox.step fst snd].
    destruct (showPrev_index e s Hi) as [s1 [-> I1]]. cbn [bind].
    assert (Hb : 0 <= Lightbox.currentIndex s1 < Lightbox.length_of e)
      by (rewrite I1; apply Z.mod_pos_bound; lia).
    destruct (IH p s1 Hb) as [s' [Hr I']].
    exists s'. split; [exact Hr |]. rewrite I', I1, Zminus_mod_idemp_l.
    f_equal. lia.
Qed.

(** X3: Pressing next [k] times moves the index forward by [k] around the
    gallery, pressing previous [k] times backward; as many presses as there
    are items, in either direction, come back to the item shown. None of
    them touches the scroll lock. *)
Theorem lightbox_repeated_navigation (e : Lightbox.env) (k : nat)
  (p : ScrollLock.page) (s : Lightbox.state) :
  let n := Lightbox.length_of e in
  let i := Lightbox.currentIndex s in
  0 <= i < n ->
  (exists s', Lightbox.run e (repeat Lightbox.Next k) (p, s) = Ok (p, s')
              /\ Lightbox.currentIndex s' = (i + Z.of_nat k) mod n)
  /\ (exists s', Lightbox.run e (repeat Lightbox.Prev k) (p, s) = Ok (p, s')
              /\ Lightbox.currentIndex s' = (i - Z.of_nat k) mod n)
  /\ (exists s', Lightbox.run e (repeat Lightbox.Next (Z.to_nat n)) (p, s) = Ok (p, s')
              /\ Lightbox.currentIndex s' = i)
  /\ (exists s', Lightbox.run e (repeat Lightbox.Prev (Z.to_nat n)) (p, s) = Ok (p, s')
              /\ Lightbox.currentIndex s' = i).
Proof.
  intros n i Hi.
  split; [exact (run_nexts e k p s Hi) |].
  split; [exact (run_prevs e k p s Hi) |].
  split.
  - destruct (run_nexts e (Z.to_nat n) p s Hi) as [s' [Hr I']].
    exists s'. split; [exact Hr |]. rewrite I'. fold n i.
    rewrite Z2Nat.id by lia.
    replace (i + n) with (i + 1 * n) by lia. rewrite Z.mod_add by lia.
    apply Z.mod_small. exact Hi.
  - destruct (run_prevs e (Z.to_nat n) p s Hi) as [s' [Hr I']].
    exists s'. split; [exact Hr |]. rewrite I'. fold n i.
    rewrite Z2Nat.id by lia.
    replace (i - n) with (i + (-1) * n) by lia. rewrite Z.mod_add by lia.
    apply Z.mod_small. exact Hi.
Qed.

Lemma lightbox_repeated_navigation_example :
  0 <= Lightbox.currentIndex (Lightbox.with_index 3 Lightbox.init)
    < Lightbox.length_of five_items
  /\ exists s',
       Lightbox.run five_items (repeat Lightbox.Next 7)
         (ScrollLock.init, Lightbox.with_index 3 Lightbox.init)
       = Ok (ScrollLock.init, s')
       /\ Lightbox.currentIndex s' = 0.
Proof.
  assert (Hi : 0 <= Lightbox.currentIndex (Lightbox.with_index 3 Lightbox.init)
               < Lightbox.length_of five_items) by (cbn; lia).
  split; [exact Hi |].
  exact (proj1 (lightbox_repeated_navigation five_items 7 ScrollLock.init
                  (Lightbox.with_index 3 Lightbox.init) Hi)).
Defined.

(** X4: The animated and the plain transition end on the same content: what
    [updateLightboxContent] shows at once without GSAP is what it shows with
    GSAP when its fade-out completes (address, alt text, caption, counter and
    index). *)
Theorem lightbox_fallback_same_content
  (items : list Lightbox.item) (counter complete : bool)
  (doc : Lightbox.item) (s : Lightbox.state) :
  let animated := Lightbox.mkEnv true items counter doc in
  let plain := Lightbox.mkEnv false items counter doc in
  0 <= Lightbox.currentIndex s < Lightbox.length_of animated ->
  exists d sa sp,
    Lightbox.updateLightboxContent animated s = Ok sa
    /\ Lightbox.fadeOut sa = Some d
    /\ Lightbox.updateLightboxContent plain s = Ok sp
    /\ Lightbox.fadeOut sp = Lightbox.fadeOut s
    /\ Lightbox.shown sp = Lightbox.shown s
    /\ let sa' := Lightbox.onComplete animated d complete sa in
       Lightbox.imgSrc sa' = Lightbox.imgSrc sp
       /\ Lightbox.imgAlt sa' = Lightbox.imgAlt sp
       /\ Lightbox.capText sa' = Lightbox.capText sp
       /\ Lightbox.counterText sa' = Lightbox.counterText sp
       /\ Lightbox.currentIndex sa' = Lightbox.currentIndex sp.
Proof.
  intros animated plain Hi.
  destruct (item_at_valid animated _ Hi) as [it Hit].
  destruct (getItemData_some doc it) as [d Hd].
  unfold Lightbox.updateLightboxContent.
  change (Lightbox.item_at plain (Lightbox.currentIndex s))
    with (Lightbox.item_at animated (Lightbox.currentIndex s)).
  cbn [Lightbox.documentItem animated plain].
  rewrite Hit, Hd. cbn [bind Lightbox.hasGSAP animated plain negb].
  exists d. eexists. eexists.
  split; [reflexivity |]. split; [reflexivity |]. split; [reflexivity |].
  unfold Lightbox.onComplete, Lightbox.updateCounter, Lightbox.fadeInLightboxImage.
  cbn [Lightbox.hasCounter].
  destruct counter, complete; cbn; repeat split; reflexivity.
Qed.

Lemma lightbox_fallback_example :
  0 <= Lightbox.currentIndex (Lightbox.with_index 1 Lightbox.init)
    < Lightbox.length_of (Lightbox.mkEnv true (gallery_of ["a"; "b"; "c"]%string) true
                 (Lightbox.mkItem None None None))
  /\ exists d sa sp,
       Lightbox.updateLightboxContent
         (Lightbox.mkEnv true (gallery_of ["a"; "b"; "c"]%string) true
                 (Lightbox.mkItem None None None))
         (Lightbox.with_index 1 Lightbox.init) = Ok sa
       /\ Lightbox.fadeOut sa = Some d
       /\ Lightbox.updateLightboxContent
            (Lightbox.mkEnv false (gallery_of ["a"; "b"; "c"]%string) true
                 (Lightbox.mkItem None None None))
            (Lightbox.with_index 1 Lightbox.init) = Ok sp
       /\ Lightbox.imgSrc sp = "b"%string.
Proof.
  assert (Hi : 0 <= Lightbox.currentIndex (Lightbox.with_index 1 Lightbox.init)
               < Lightbox.length_of
                   (Lightbox.mkEnv true (gallery_of ["a"; "b"; "c"]%string) true
                 (Lightbox.mkItem None None None)))
    by (cbn; lia).
  split; [exact Hi |].
  destruct (lightbox_fallback_same_content (gallery_of ["a"; "b"; "c"]%string)
              true false (Lightbox.mkItem None None None)
              (Lightbox.with_index 1 Lightbox.init) Hi)
    as [d [sa [sp [Ha [Hf [Hp _]]]]]].
  exists d, sa, sp. split; [exact Ha | split; [exact Hf | split; [exact Hp |]]].
  cbn in Hp. injection Hp as <-. reflexivity.
Defined.

(** ** Lightbox: where the focus goes *)

Lemma closeLightbox_focus (e : Lightbox.env) (p : ScrollLock.page)
  (s : Lightbox.state) :
  0 <= Lightbox.currentIndex s < Lightbox.length_of e ->
  Lightbox.focus (snd (Lightbox.closeLightbox e (p, s)))
  = Lightbox.FocusItem (Lightbox.currentIndex s).
Proof.
  intros Hi. unfold Lightbox.closeLightbox. cbn [fst snd].
  destruct (Lightbox.hasGSAP e);
    cbn [Lightbox.with_open Lightbox.with_visual Lightbox.with_fadeOut
           Lightbox.currentIndex];
    destruct (item_at_valid e _ Hi) as [it ->]; reflexivity.
Qed.

Lemma openLightbox_focus (e : Lightbox.env) (i : Z)
  (ps ps' : ScrollLock.page * Lightbox.state) :
  Lightbox.openLightbox e i ps = Ok ps' ->
  Lightbox.focus (snd ps') = Lightbox.FocusClose.
Proof.
  unfold Lightbox.openLightbox.
  destruct (Lightbox.getItemData _ _) as [d |]; cbn [bind]; [| discriminate].
  intros [= <-]. reflexivity.
Qed.

(** X22: Opening the lightbox on item [i] moves the focus to the close button;
    closing it after [k] presses of next (of previous) gives the focus to
    the gallery item of the image shown last, item [(i + k) mod n]
    ([(i - k) mod n]): to the item that opened the lightbox only when [k] is
    a multiple of the number of items. *)
Theorem close_focuses_item_shown (e : Lightbox.env) (i : Z) (k : nat)
  (p : ScrollLock.page) (s : Lightbox.state) :
  0 <= i < Lightbox.length_of e ->
  exists p1 s1 s2 s3,
    Lightbox.openLightbox e i (p, s) = Ok (p1, s1)
    /\ Lightbox.focus s1 = Lightbox.FocusClose
    /\ Lightbox.run e (repeat Lightbox.Next k) (p1, s1) = Ok (p1, s2)
    /\ Lightbox.focus (snd (Lightbox.closeLightbox e (p1, s2)))
       = Lightbox.FocusItem ((i + Z.of_nat k) mod Lightbox.length_of e)
    /\ Lightbox.run e (repeat Lightbox.Prev k) (p1, s1) = Ok (p1, s3)
    /\ Lightbox.focus (snd (Lightbox.closeLightbox e (p1, s3)))
       = Lightbox.FocusItem ((i - Z.of_nat k) mod Lightbox.length_of e).
Proof.
  intros Hi.
  destruct (openLightbox_ok e i (p, s) Hi) as [[p1 s1] Ho].
  pose proof (openLightbox_index e i _ _ Ho) as Hidx. cbn [snd] in Hidx.
  pose proof (openLightbox_focus e i _ _ Ho) as Hf. cbn [snd] in Hf.
  assert (Hi1 : 0 <= Lightbox.currentIndex s1 < Lightbox.length_of e)
    by (rewrite Hidx; exact Hi).
  destruct (run_nexts e k p1 s1 Hi1) as [s2 [Hr2 I2]].
  destruct (run_prevs e k p1 s1 Hi1) as [s3 [Hr3 I3]].
  exists p1, s1, s2, s3.
  split; [exact Ho |]. split; [exact Hf |]. split; [exact Hr2 |].
  split; [| split; [exact Hr3 |]].
  - rewrite closeLightbox_focus; [now rewrite I2, Hidx |].
    rewrite I2. apply Z.mod_pos_bound. lia.
  - rewrite closeLightbox_focus; [now rewrite I3, Hidx |].
    rewrite I3. apply Z.mod_pos_bound. lia.
Qed.

Lemma close_focuses_item_shown_example :
  0 <= 1 < Lightbox.length_of three_items
  /\ exists p1 s1 s2,
       Lightbox.openLightbox three_items 1 (ScrollLock.init, Lightbox.init)
       = Ok (p1, s1)
       /\ Lightbox.run three_items (repeat Lightbox.Next 4) (p1, s1) = Ok (p1, s2)
       /\ Lightbox.focus (snd (Lightbox.closeLightbox three_items (p1, s2)))
          = Lightbox.FocusItem ((1 + Z.of_nat 4) mod Lightbox.length_of three_items).
Proof.
  assert (Hi : 0 <= 1 < Lightbox.length_of three_items) by (cbn; lia).
  split; [exact Hi |].
  destruct (close_focuses_item_shown three_items 1 4 ScrollLock.init
              Lightbox.init Hi) as [p1 [s1 [s2 [s3 [H1 [_ [H3 [H4 _]]]]]]]].
  exists p1, s1, s2. split; [exact H1 |]. split; [exact H3 | exact H4].
Defined.

(** ** Lightbox: the address of the large image *)

Lemma replace_param_unfold (k : ascii) (v : string) (c : ascii) (s' : string) :
  Lightbox.replace_param k v (String c s')
  = if param_here k (String c s')
    then match s' with
         | String _ (String _ rest) =>
             String c (String k (String "=" (v ++ Lightbox.drop_digits rest)))
         | _ => String c (Lightbox.replace_param k v s')
         end
    else String c (Lightbox.replace_param k v s').
Proof.
  destruct s' as [| k' [| eq rest]]; try reflexivity.
  cbn [Lightbox.replace_param param_here].
  destruct ((Ascii.eqb c "?" || Ascii.eqb c "&") && Ascii.eqb k' k
            && Ascii.eqb eq "=" && Lightbox.starts_with_digit rest); reflexivity.
Qed.

Lemma param_here_char (k : ascii) (c : ascii) (s' : string) :
  (Ascii.eqb c "?" || Ascii.eqb c "&") = false -> param_here k (String c s') = false.
Proof.
  intros H. cbn. destruct s' as [| k' [| eq rest]]; try reflexivity.
  now rewrite H.
Qed.

(** A prefix without [?] and [&] is copied. *)
Lemma replace_param_skip (k : ascii) (v : string) (pre x : string) :
  no_separator pre = true ->
  Lightbox.replace_param k v (pre ++ x) = (pre ++ Lightbox.replace_param k v x)%string.
Proof.
  induction pre as [| c pre IH]; intros H; [reflexivity |].
  cbn [no_separator] in H. apply andb_true_iff in H. destruct H as [Hc Hp].
  apply negb_true_iff in Hc.
  cbn [append]. rewrite replace_param_unfold, (param_here_char k c _ Hc), (IH Hp).
  reflexivity.
Qed.

Lemma drop_digits_app (d r : string) :
  all_digits d = true -> Lightbox.starts_with_digit r = false ->
  Lightbox.drop_digits (d ++ r) = r.
Proof.
  induction d as [| c d IH]; intros Hd Hr; cbn [append].
  - destruct r as [| c r]; [reflexivity |]. cbn in Hr |- *. now rewrite Hr.
  - cbn [all_digits] in Hd. apply andb_true_iff in Hd. destruct Hd as [Hc Hd].
    cbn [Lightbox.drop_digits]. rewrite Hc. apply IH; assumption.
Qed.

Lemma starts_with_digit_app (d r : string) :
  all_digits d = true -> d <> EmptyString ->
  Lightbox.starts_with_digit (d ++ r) = true.
Proof.
  destruct d as [| c d]; [congruence |]. cbn. intros H _.
  apply andb_true_iff in H. tauto.
Qed.

Lemma replace_param_nil (k : ascii) (v : string) :
  Lightbox.replace_param k v EmptyString = EmptyString.
Proof. reflexivity. Qed.

(** X5: An address of the thumbnail form, [base?w=<digits>&h=<digits>] and
    whatever follows, becomes [base?w=1200&h=800] with the same tail. *)
Theorem toFullSizeUrl_thumbnail (base dw dh rest : string) :
  no_separator base = true ->
  all_digits dw = true -> dw <> EmptyString ->
  all_digits dh = true -> dh <> EmptyString ->
  Lightbox.starts_with_digit rest = false ->
  Lightbox.toFullSizeUrl (base ++ "?w=" ++ dw ++ "&h=" ++ dh ++ rest)
  = (base ++ "?w=1200&h=800" ++ rest)%string.
Proof.
  intros Hb Hw Hw0 Hh Hh0 Hr. unfold Lightbox.toFullSizeUrl.
  rewrite (replace_param_skip "w" _ base _ Hb).
  assert (E1 : Lightbox.replace_param "w" "1200" ("?w=" ++ dw ++ "&h=" ++ dh ++ rest)
               = ("?w=1200" ++ "&h=" ++ dh ++ rest)%string).
  { cbn [append]. rewrite replace_param_unfold. cbn [param_here].
    rewrite (starts_with_digit_app dw _ Hw Hw0). cbn [Ascii.eqb Bool.eqb orb andb].
    rewrite (drop_digits_app dw _ Hw); reflexivity. }
  rewrite E1.
  rewrite (replace_param_skip "h" _ base _ Hb).
  assert (E2 : Lightbox.replace_param "h" "800" ("?w=1200" ++ "&h=" ++ dh ++ rest)
               = ("?w=1200" ++ "&h=800" ++ rest)%string).
  { set (X := ("&h=" ++ dh ++ rest)%string).
    change ("?w=1200" ++ X)%string with (String "?" ("w=1200" ++ X)).
    rewrite replace_param_unfold.
    replace (param_here "h" (String "?" ("w=1200" ++ X))) with false by reflexivity.
    rewrite (replace_param_skip "h" _ "w=1200" X eq_refl).
    unfold X. cbn [append]. rewrite replace_param_unfold. cbn [param_here].
    rewrite (starts_with_digit_app dh _ Hh Hh0). cbn [Ascii.eqb Bool.eqb orb andb].
    rewrite (drop_digits_app dh _ Hh Hr). reflexivity. }
  rewrite E2. reflexivity.
Qed.

Lemma toFullSizeUrl_thumbnail_example :
  Lightbox.toFullSizeUrl
    "https://images.unsplash.com/photo-1?w=600&h=400&fit=crop"
  = "https://images.unsplash.com/photo-1?w=1200&h=800&fit=crop"%string.
Proof.
  exact (toFullSizeUrl_thumbnail "https://images.unsplash.com/photo-1"
           "600" "400" "&fit=crop" eq_refl eq_refl ltac:(discriminate)
           eq_refl ltac:(discriminate) eq_refl).
Defined.

Lemma digit_not_separator (c : ascii) :
  Lightbox.is_digit c = true -> (Ascii.eqb c "?" || Ascii.eqb c "&") = false.
Proof.
  destruct c as [b0 b1 b2 b3 b4 b5 b6 b7].
  destruct b0, b1, b2, b3, b4, b5, b6, b7; vm_compute; intros H;
    first [reflexivity | discriminate H].
Qed.

Lemma all_digits_no_separator (d : string) :
  all_digits d = true -> no_separator d = true.
Proof.
  induction d as [| c d IH]; [reflexivity |]. cbn. intros H.
  apply andb_true_iff in H. destruct H as [Hc Hd].
  rewrite (digit_not_separator c Hc), (IH Hd). reflexivity.
Qed.

Lemma replace_param_head (k : ascii) (v : string) (c : ascii) (s' : string) :
  exists t, Lightbox.replace_param k v (String c s') = String c t.
Proof.
  rewrite replace_param_unfold. destruct (param_here k (String c s')); [| eauto].
  destruct s' as [| ? [| ? ?]]; eauto.
Qed.

Lemma param_here_inv (k c k' eq : ascii) (rest : string) :
  param_here k (String c (String k' (String eq rest))) = true ->
  (Ascii.eqb c "?" || Ascii.eqb c "&") = true /\ k' = k /\ eq = "="%char
  /\ Lightbox.starts_with_digit rest = true.
Proof.
  cbn. intros H. repeat (apply andb_true_iff in H; destruct H as [H ?]).
  repeat split; try assumption; now apply Ascii.eqb_eq.
Qed.

Lemma prefix3_replace_param (k : ascii) (v : string) (s : string) :
  prefix3 (Lightbox.replace_param k v s) = prefix3 s.
Proof.
  unfold prefix3.
  assert (H : forall n, (n <= 3)%nat ->
                substring 0 n (Lightbox.replace_param k v s) = substring 0 n s).
  { induction s as [| c s' IH]; intros n Hn; [reflexivity |].
    rewrite replace_param_unfold.
    destruct (param_here k (String c s')) eqn:E.
    - destruct s' as [| k' [| eq rest]]; try discriminate.
      apply param_here_inv in E. destruct E as [_ [-> [-> _]]].
      destruct n as [| [| [| [| n]]]]; try reflexivity; [| lia].
      cbn. now destruct (v ++ Lightbox.drop_digits rest)%string, rest.
    - destruct n as [| n]; [reflexivity |]. cbn [substring]. f_equal.
      apply IH. lia. }
  apply H. lia.
Qed.

Lemma param_here_prefix3 (k c : ascii) (t t' : string) :
  prefix3 t = prefix3 t' -> param_here k (String c t) = param_here k (String c t').
Proof.
  unfold prefix3. intros H.
  destruct t as [| a [| b [| x r]]], t' as [| a' [| b' [| x' r']]];
    cbn in H; try discriminate H; try reflexivity.
  all: injection H; intros; subst; reflexivity.
Qed.

Lemma param_here_replace_param (k k2 c : ascii) (v : string) (s' : string) :
  param_here k (String c (Lightbox.replace_param k2 v s'))
  = param_here k (String c s').
Proof. apply param_here_prefix3, prefix3_replace_param. Qed.

Lemma starts_with_digit_drop_digits (s : string) :
  Lightbox.starts_with_digit (Lightbox.drop_digits s) = false.
Proof.
  induction s as [| c s IH]; [reflexivity |]. cbn.
  destruct (Lightbox.is_digit c) eqn:E; [exact IH | cbn; exact E].
Qed.

(** Replacing a parameter twice is replacing it once. *)
Lemma replace_param_idempotent (k : ascii) (v : string) (s : string) :
  all_digits v = true -> v <> EmptyString ->
  Lightbox.replace_param k v (Lightbox.replace_param k v s)
  = Lightbox.replace_param k v s.
Proof.
  intros Hv Hv0. induction s as [| c s' IH]; [reflexivity |].
  rewrite (replace_param_unfold k v c s').
  destruct (param_here k (String c s')) eqn:E.
  - destruct s' as [| k' [| eq rest]]; try discriminate.
    apply param_here_inv in E. destruct E as [Hc [-> [-> Hd]]].
    rewrite replace_param_unfold. cbn [param_here].
    rewrite Hc, !Ascii.eqb_refl, (starts_with_digit_app v _ Hv Hv0). cbn [andb].
    rewrite (drop_digits_app v _ Hv (starts_with_digit_drop_digits rest)).
    reflexivity.
  - rewrite replace_param_unfold, param_here_replace_param, E, IH. reflexivity.
Qed.

Lemma starts_with_digit_replace_param (k : ascii) (v : string) (s : string) :
  Lightbox.starts_with_digit (Lightbox.replace_param k v s)
  = Lightbox.starts_with_digit s.
Proof.
  destruct s as [| c s']; [reflexivity |].
  destruct (replace_param_head k v c s') as [t ->]. reflexivity.
Qed.

Lemma drop_digits_replace_param (k : ascii) (v : string) (s : string) :
  Lightbox.drop_digits (Lightbox.replace_param k v s)
  = Lightbox.replace_param k v (Lightbox.drop_digits s).
Proof.
  induction s as [| c s' IH]; [reflexivity |].
  cbn [Lightbox.drop_digits]. destruct (Lightbox.is_digit c) eqn:E.
  - rewrite replace_param_unfold,
      (param_here_char k c s' (digit_not_separator c E)).
    cbn [Lightbox.drop_digits]. rewrite E. exact IH.
  - destruct (replace_param_head k v c s') as [t Ht]. rewrite Ht.
    cbn [Lightbox.drop_digits]. now rewrite E.
Qed.

(** Over [c k = ...] a replacement for another key goes on behind the [=]. *)
Lemma replace_param_other_key (k k2 c : ascii) (v x : string) :
  Ascii.eqb k k2 = false ->
  (Ascii.eqb k "?" || Ascii.eqb k "&") = false ->
  Lightbox.replace_param k2 v (String c (String k (String "=" x)))
  = String c (String k (String "=" (Lightbox.replace_param k2 v x))).
Proof.
  intros Hk Hs.
  rewrite replace_param_unfold.
  assert (E : param_here k2 (String c (String k (String "=" x))) = false).
  { cbn. rewrite Hk. now rewrite andb_false_r. }
  rewrite E. f_equal.
  rewrite replace_param_unfold, (param_here_char k2 k _ Hs). f_equal.
  rewrite replace_param_unfold, (param_here_char k2 "=" _ eq_refl). reflexivity.
Qed.

(** The two replacements of [toFullSizeUrl] do not disturb each other. *)
Lemma replace_params_commute (s : string) :
  Lightbox.replace_param "w" "1200" (Lightbox.replace_param "h" "800" s)
  = Lightbox.replace_param "h" "800" (Lightbox.replace_param "w" "1200" s).
Proof.
  induction s as [| c s' IH]; [reflexivity |].
  destruct (param_here "w" (String c s')) eqn:Ew.
  - destruct s' as [| k' [| eq rest]]; try discriminate.
    pose proof Ew as Ew'. apply param_here_inv in Ew'.
    destruct Ew' as [Hc [-> [-> Hd]]].
    rewrite (replace_param_other_key "w" "h" c "800" rest eq_refl eq_refl).
    rewrite (replace_param_unfold "w" "1200" c (String "w" (String "=" rest))), Ew.
    rewrite (replace_param_other_key "w" "h" c "800" _ eq_refl eq_refl).
    rewrite replace_param_unfold. cbn [param_here].
    rewrite Hc, starts_with_digit_replace_param, Hd. cbn [Ascii.eqb Bool.eqb andb].
    rewrite drop_digits_replace_param.
    rewrite (replace_param_skip "h" "800" "1200" _ eq_refl). reflexivity.
  - destruct (param_here "h" (String c s')) eqn:Eh.
    + destruct s' as [| k' [| eq rest]]; try discriminate.
      pose proof Eh as Eh'. apply param_here_inv in Eh'.
      destruct Eh' as [Hc [-> [-> Hd]]].
      rewrite (replace_param_other_key "h" "w" c "1200" rest eq_refl eq_refl).
      rewrite (replace_param_unfold "h" "800" c (String "h" (String "=" rest))), Eh.
      rewrite (replace_param_other_key "h" "w" c "1200" _ eq_refl eq_refl).
      rewrite replace_param_unfold. cbn [param_here].
      rewrite Hc, starts_with_digit_replace_param, Hd. cbn [Ascii.eqb Bool.eqb andb].
      rewrite drop_digits_replace_param.
      rewrite (replace_param_skip "w" "1200" "800" _ eq_refl). reflexivity.
    + rewrite (replace_param_unfold "h" "800" c s'), Eh.
      rewrite (replace_param_unfold "w" "1200" c s'), Ew.
      rewrite replace_param_unfold, param_here_replace_param, Ew.
      rewrite replace_param_unfold, param_here_replace_param, Eh.
      now rewrite IH.
Qed.

(** X6: [toFullSizeUrl] is idempotent: the address it makes is one it leaves
    alone, whatever the address it was given. *)
Theorem toFullSizeUrl_idempotent (url : string) :
  Lightbox.toFullSizeUrl (Lightbox.toFullSizeUrl url) = Lightbox.toFullSizeUrl url.
Proof.
  unfold Lightbox.toFullSizeUrl.
  rewrite (replace_params_commute (Lightbox.replace_param "w" "1200" url)).
  rewrite (replace_param_idempotent "w" "1200" url eq_refl) by discriminate.
  apply (replace_param_idempotent "h" "800"); [reflexivity | discriminate].
Qed.

(** X7: An address without [?] and [&] has no parameter to replace and is
    returned as it is. *)
Theorem toFullSizeUrl_without_parameters (url : string) :
  no_separator url = true -> Lightbox.toFullSizeUrl url = url.
Proof.
  intros H. unfold Lightbox.toFullSizeUrl.
  pose proof (replace_param_skip "w" "1200" url EmptyString H) as Hw.
  pose proof (replace_param_skip "h" "800" url EmptyString H) as Hh.
  cbn [Lightbox.replace_param] in Hw, Hh.
  assert (E : (url ++ EmptyString)%string = url).
  { clear. induction url as [| c u IH]; cbn; [reflexivity | now rewrite IH]. }
  rewrite E in Hw, Hh. now rewrite Hw, Hh.
Qed.

Lemma toFullSizeUrl_without_parameters_example :
  Lightbox.toFullSizeUrl "images/gallery/katana-01.jpg"
  = "images/gallery/katana-01.jpg"%string.
Proof.
  exact (toFullSizeUrl_without_parameters "images/gallery/katana-01.jpg" eq_refl).
Defined.

(** ** Resize broadcaster: any sequence of signals *)

Section ResizeGeneral.

Context {W cb : Type} (invoke : cb -> W -> W).

Lemma debounced_cons (t0 t : Z) (rest : list Z) (T : Z) :
  debounced (t0 :: t :: rest) T
  = (if t0 + 200 <=? t then [t0 + 200] else []) ++ debounced (t :: rest) T.
Proof. reflexivity. Qed.

Lemma signals_general (ts : list Z) (T : Z) :
  forall (t0 id : Z) (s : Resize.state W cb),
    Resize.pending (Resize.clock s) = [(id, t0 + 200)] ->
    Resize.resizeTimer s = Some id ->
    Resize.now (Resize.clock s) = t0 ->
    spaced_from t0 ts ->
    let s' := Resize.advance invoke T (Resize.signals invoke ts s) in
    Resize.broadcasts s' = Resize.broadcasts s ++ debounced (t0 :: ts) T
    /\ Resize.calls s'
       = Resize.calls s
         ++ flat_map (fun b => map (fun c => (b, c)) (Resize.resizeCallbacks s))
              (debounced (t0 :: ts) T)
    /\ Resize.world s'
       = fold_left
           (fun w _ => fold_left (fun w c => invoke c w) (Resize.resizeCallbacks s) w)
           (debounced (t0 :: ts) T) (Resize.world s)
    /\ Resize.resizeCallbacks s' = Resize.resizeCallbacks s.
Proof.
  induction ts as [| t ts IH]; intros t0 id s Hp Hr Hn Hsp.
  - cbn [Resize.signals debounced]. unfold Resize.advance. rewrite Hp.
    cbn [Resize.fire_due].
    destruct (t0 + 200 <=? T); cbn; rewrite ?app_nil_r; auto.
  - cbn [spaced_from] in Hsp. destruct Hsp as [Hle [Hne Hsp]].
    cbn [Resize.signals].
    set (s1 := Resize.on_resize_event (Resize.advance invoke t s)).
    set (due := t0 + 200 <=? t).
    assert (Hs1 : Resize.pending (Resize.clock s1)
                  = [(Resize.nextTimer (Resize.clock s), t + 200)]
                  /\ Resize.resizeTimer s1 = Some (Resize.nextTimer (Resize.clock s))
                  /\ Resize.now (Resize.clock s1) = t
                  /\ Resize.broadcasts s1
                     = Resize.broadcasts s ++ (if due then [t0 + 200] else [])
                  /\ Resize.calls s1
                     = Resize.calls s
                       ++ flat_map
                            (fun b => map (fun c => (b, c)) (Resize.resizeCallbacks s))
                            (if due then [t0 + 200] else [])
                  /\ Resize.world s1
                     = fold_left
                         (fun w _ => fold_left (fun w c => invoke c w)
                                       (Resize.resizeCallbacks s) w)
                         (if due then [t0 + 200] else []) (Resize.world s)
                  /\ Resize.resizeCallbacks s1 = Resize.resizeCallbacks s).
    { unfold s1, Resize.on_resize_event, Resize.advance. rewrite Hp.
      cbn [Resize.fire_due filter snd]. fold due. rewrite Hn.
      replace (Z.max t t0) with t by lia.
      destruct due; cbn; rewrite Hr; cbn; rewrite ?Z.eqb_refl, ?app_nil_r; cbn;
        repeat split; reflexivity. }
    destruct Hs1 as [Hp1 [Hr1 [Hn1 [Hb1 [Hc1 [Hw1 Hcb1]]]]]].
    destruct (IH t _ s1 Hp1 Hr1 Hn1 Hsp) as [Hb [Hc [Hw Hcb]]].
    rewrite debounced_cons. fold due.
    rewrite Hb, Hc, Hw, Hcb, Hcb1, Hb1, Hc1, Hw1.
    rewrite flat_map_app, fold_left_app, <- !app_assoc. auto.
Qed.

(** X8: the callbacks [cbs] are registered by [onResize], one after the
    other, with a broadcaster that has no pending timeout. Whatever resize
    signals follow: by time [T] there has been exactly one broadcast for
    every signal that was followed by no other within 200 ms, 200 ms after
    it, and none besides; every broadcast called all the registered
    callbacks in the order of registration, each on what the one before
    left; the signals and the broadcasts leave the list of callbacks as it
    is. *)
Theorem resize_debounce_every_burst (cbs : list cb) (ts : list Z) (T : Z)
  (s0 : Resize.state W cb) :
  Resize.pending (Resize.clock s0) = [] ->
  Resize.now (Resize.clock s0) <= hd T ts ->
  spaced ts ->
  let registered := Resize.resizeCallbacks s0 ++ cbs in
  let s' := Resize.advance invoke T
              (Resize.signals invoke ts (register_all cbs s0)) in
  Resize.broadcasts s' = Resize.broadcasts s0 ++ debounced ts T
  /\ Resize.calls s'
     = Resize.calls s0
       ++ flat_map (fun b => map (fun c => (b, c)) registered) (debounced ts T)
  /\ Resize.world s'
     = fold_left
         (fun w _ => fold_left (fun w c => invoke c w) registered w)
         (debounced ts T) (Resize.world s0)
  /\ Resize.resizeCallbacks s' = registered.
Proof.
  intros Hp Hn Hsp registered.
  destruct (register_all_spec cbs s0) as [Rcb [Rcl [_ [Rw [Rca Rbr]]]]].
  set (s := register_all cbs s0) in *.
  rewrite <- Rcl in Hp, Hn.
  unfold registered. rewrite <- Rcb, <- Rca, <- Rbr, <- Rw.
  clearbody s. clear Rcb Rcl Rw Rca Rbr registered.
  destruct ts as [| t ts].
  - cbn [Resize.signals debounced]. unfold Resize.advance. rewrite Hp. cbn.
    rewrite !app_nil_r. auto.
  - cbn [hd] in Hn. cbn [spaced] in Hsp. cbn [Resize.signals].
    set (s1 := Resize.on_resize_event (Resize.advance invoke t s)).
    assert (Hs1 : s1 = Resize.mkState
                    (Resize.mkTimers t (Resize.nextTimer (Resize.clock s) + 1)
                       [(Resize.nextTimer (Resize.clock s), t + 200)])
                    (Some (Resize.nextTimer (Resize.clock s)))
                    (Resize.resizeCallbacks s) (Resize.world s)
                    (Resize.calls s) (Resize.broadcasts s)).
    { unfold s1, Resize.on_resize_event, Resize.advance.
      rewrite Hp. cbn.
      replace (Z.max t (Resize.now (Resize.clock s))) with t by lia.
      destruct (Resize.resizeTimer s); cbn; rewrite ?Hp; reflexivity. }
    pose proof (signals_general ts T t (Resize.nextTimer (Resize.clock s)) s1) as H.
    rewrite Hs1 in H. cbn in H. specialize (H eq_refl eq_refl eq_refl Hsp).
    rewrite <- Hs1 in H. exact H.
Qed.

End ResizeGeneral.

(** [onResize] is called for the callbacks 1 and 2; then two bursts, at
    0-150 ms and at 1000-1100 ms, and a lone signal at 2000 ms, seen at
    2100 ms: two broadcasts, at 350 and 1300 ms, each calling 1 and then
    2. *)
Lemma resize_debounce_example :
  spaced [0; 100; 150; 1000; 1100; 2000]
  /\ Resize.broadcasts
       (Resize.advance (fun c w => w * 10 + c) 2100
          (Resize.signals (fun c w => w * 10 + c)
             [0; 100; 150; 1000; 1100; 2000]
             (Resize.onResize 2
                (Resize.onResize 1
                   (Resize.mkState (Resize.mkTimers 0 1 []) None [] 0 [] [])))))
     = [350; 1300]
  /\ Resize.calls
       (Resize.advance (fun c w => w * 10 + c) 2100
          (Resize.signals (fun c w => w * 10 + c)
             [0; 100; 150; 1000; 1100; 2000]
             (Resize.onResize 2
                (Resize.onResize 1
                   (Resize.mkState (Resize.mkTimers 0 1 []) None [] 0 [] [])))))
     = [(350, 1); (350, 2); (1300, 1); (1300, 2)].
Proof.
  assert (Hsp : spaced [0; 100; 150; 1000; 1100; 2000]) by (cbn; lia).
  split; [exact Hsp |].
  destruct (resize_debounce_every_burst (fun c w => w * 10 + c) [1; 2]
              [0; 100; 150; 1000; 1100; 2000] 2100
              (Resize.mkState (Resize.mkTimers 0 1 []) None [] 0 [] [])
              eq_refl ltac:(cbn; lia) Hsp) as [Hb [Hc _]].
  split; [exact Hb | exact Hc].
Defined.

(** ** Navigation observer: the observers of a whole session *)

Lemma countdown_succ (n : Z) :
  0 <= n ->
  map Z.of_nat (rev (seq 0 (Z.to_nat (n + 1))))
  = n :: map Z.of_nat (rev (seq 0 (Z.to_nat n))).
Proof.
  intros Hn. rewrite Z2Nat.inj_add by lia. change (Z.to_nat 1) with 1%nat.
  rewrite Nat.add_1_r, seq_S, rev_app_distr. cbn [rev app map Nat.add].
  now rewrite Z2Nat.id.
Qed.

Lemma initNavObserver_accounted (present : string -> bool) (h : Z) (s : Nav.state) :
  observers_accounted present s ->
  observers_accounted present
    (Nav.initNavObserver present
       (Nav.mkState h (Nav.navObserver s) (Nav.disconnected s) (Nav.created s))).
Proof.
  intros [o [Ho [Hc [Hids [Ht Hopts]]]]].
  destruct (initNavObserver_spec present
              (Nav.mkState h (Nav.navObserver s) (Nav.disconnected s) (Nav.created s)))
    as [Hh [Hcr [Hd Hn]]].
  cbn [Nav.headerHeight Nav.navObserver Nav.disconnected Nav.created] in Hh, Hcr, Hd, Hn.
  eexists. split; [exact Hn |].
  rewrite Hcr, Hd, Hh, Ho. split; [lia |]. split; [| split].
  - rewrite countdown_succ by lia. cbn [map Nav.oid]. f_equal. exact Hids.
  - constructor; [reflexivity | exact Ht].
  - reflexivity.
Qed.

Lemma resizes_accounted (present : string -> bool) (hs : list Z) :
  forall s : Nav.state,
    observers_accounted present s ->
    let s' := Nav.resizes hs present s in
    observers_accounted present s'
    /\ Nav.created s' = Nav.created s + height_changes (Nav.headerHeight s) hs
    /\ Nav.headerHeight s' = last hs (Nav.headerHeight s).
Proof.
  induction hs as [| h hs IH]; intros s Hs.
  - cbn. repeat split; [exact Hs | lia].
  - cbn [Nav.resizes height_changes].
    assert (H1 : observers_accounted present (Nav.on_resize (Some h) present s)
                 /\ Nav.created (Nav.on_resize (Some h) present s)
                    = Nav.created s + (if h =? Nav.headerHeight s then 0 else 1)
                 /\ Nav.headerHeight (Nav.on_resize (Some h) present s) = h).
    { unfold Nav.on_resize. destruct (h =? Nav.headerHeight s) eqn:E; cbn [negb].
      - apply Z.eqb_eq in E. repeat split; [exact Hs | lia | now symmetry].
      - split; [now apply initNavObserver_accounted |].
        destruct (initNavObserver_spec present
                    (Nav.mkState h (Nav.navObserver s) (Nav.disconnected s)
                       (Nav.created s))) as [Hh [Hcr _]].
        split; [exact Hcr | exact Hh]. }
    destruct H1 as [Ha [Hc Hh]].
    destruct (IH _ Ha) as [Ha' [Hc' Hh']].
    split; [exact Ha' |]. split.
    + rewrite Hc', Hc, Hh. lia.
    + rewrite Hh', Hh. now rewrite last_cons_default.
Qed.

(** X9: Whatever header heights the resize broadcasts of a session measure,
    afterwards: exactly one observer is in use and every other observer ever
    constructed has been disconnected (the ids of the one in use and of the
    disconnected ones are [created - 1] down to [0], so none is lost and
    none is counted twice); one observer was constructed for the page load
    and one for every measurement that differed from the one before; all of
    them observe the navigable sections present, in the order of
    [NAV_SECTION_IDS]; and the one in use has the margin of the height
    measured last. *)
Theorem nav_observers_never_leak
  (header : option Z) (present : string -> bool) (hs : list Z) :
  let s0 := Nav.init header in
  let s := Nav.resizes hs present (Nav.initNavObserver present s0) in
  exists o,
    Nav.navObserver s = Some o
    /\ map Nav.oid (o :: Nav.disconnected s)
       = map Z.of_nat (rev (seq 0 (Z.to_nat (Nav.created s))))
    /\ Nav.created s = 1 + height_changes (Nav.headerHeight s0) hs
    /\ Forall (fun o' => Nav.targets o' = filter present Nav.NAV_SECTION_IDS)
         (o :: Nav.disconnected s)
    /\ Nav.opts o
       = Nav.mkOptions None (Nav.margin_of (last hs (Nav.headerHeight s0))) 0.
Proof.
  intros s0 s.
  destruct (initNavObserver_spec present s0) as [Hh [Hcr [Hd Hn]]].
  assert (H0 : observers_accounted present (Nav.initNavObserver present s0)).
  { eexists. split; [exact Hn |]. rewrite Hcr, Hd, Hh. unfold s0. cbn.
    repeat split. constructor; [reflexivity | constructor]. }
  destruct (resizes_accounted present hs _ H0) as [[o [Ho [_ [Hids [Ht Hopts]]]]] [Hc Hl]].
  fold s in Ho, Hids, Ht, Hopts, Hc, Hl.
  exists o. rewrite Hcr, Hh in Hc. rewrite Hh in Hl.
  split; [exact Ho |]. split; [exact Hids |]. split; [| split].
  - rewrite Hc. unfold s0. cbn [Nav.init Nav.created]. lia.
  - exact Ht.
  - now rewrite <- Hl.
Qed.

(** ** Particles: how many there are, and what a frame leaves alone *)

Section ParticleCount.

Variable random : nat -> float.

Lemma createParticles_length (w h : Z) (n : nat) :
  forall k, List.length (Particles.createParticles random w h n k) = n.
Proof. induction n as [| n IH]; intros k; cbn; [reflexivity | now rewrite IH]. Qed.

Lemma animate_particleCount (s : Particles.state) :
  Particles.particleCount (Particles.animate random s) = Particles.particleCount s.
Proof. unfold Particles.animate. now destruct (Particles.isHeroVisible s). Qed.

Lemma fold_animate_particleCount (l : list positive) :
  forall s,
    Particles.particleCount (fold_left (fun s _ => Particles.animate random s) l s)
    = Particles.particleCount s.
Proof.
  induction l as [| a l IH]; intros s; cbn; [reflexivity |].
  rewrite IH. apply animate_particleCount.
Qed.

Lemma step_particleCount (ev : Particles.event) (s : Particles.state) :
  List.length (Particles.particles s) = Z.to_nat (Particles.particleCount s) ->
  let s' := Particles.step random ev s in
  List.length (Particles.particles s') = Z.to_nat (Particles.particleCount s')
  /\ Particles.particleCount s'
     = match ev with
       | Particles.Resized _ _ iw => Particles.calcParticleCount iw
       | _ => Particles.particleCount s
       end.
Proof.
  intros H. destruct ev as [| b | w h iw]; cbn [Particles.step].
  - rewrite on_frame_length. unfold Particles.on_frame.
    rewrite fold_animate_particleCount. cbn. auto.
  - rewrite on_intersection_length. unfold Particles.on_intersection. cbn.
    destruct (negb (Particles.isHeroVisible s) && b);
      rewrite ?animate_particleCount; cbn; auto.
  - unfold Particles.on_resize.
    set (s1 := Particles.initParticles random _).
    assert (H1 : List.length (Particles.particles s1)
                 = Z.to_nat (Particles.calcParticleCount iw)
                 /\ Particles.particleCount s1 = Particles.calcParticleCount iw).
    { unfold s1, Particles.initParticles. cbn.
      rewrite createParticles_length. now destruct (Particles.animId s). }
    destruct H1 as [Hl Hc].
    destruct (Particles.isHeroVisible s1);
      rewrite ?animate_length, ?animate_particleCount, Hl, Hc; auto.
Qed.

Lemma run_particleCount (evs : list Particles.event) :
  forall s,
    List.length (Particles.particles s) = Z.to_nat (Particles.particleCount s) ->
    let s' := Particles.run random evs s in
    List.length (Particles.particles s') = Z.to_nat (Particles.particleCount s')
    /\ forall iw, Particles.particleCount s = Particles.calcParticleCount iw ->
                  Particles.particleCount s'
                  = Particles.calcParticleCount (last_innerWidth iw evs).
Proof.
  induction evs as [| ev evs IH]; intros s H.
  - cbn. auto.
  - cbn [Particles.run].
    destruct (step_particleCount ev s H) as [H1 H2].
    destruct (IH _ H1) as [H3 H4]. split; [exact H3 |].
    intros iw Hiw.
    destruct ev as [| b | w h iw']; cbn [last_innerWidth]; apply H4;
      rewrite H2; auto.
Qed.

(** X10: Frames, visibility notifications and resize broadcasts in any order:
    the particle array always holds [min(floor(W / 15), 80)] particles, [W]
    being the window width read by the last resize broadcast (at the page
    load before the first one); so never more than 80. *)
Theorem particle_count_follows_window
  (offsetWidth offsetHeight innerWidth : Z) (evs : list Particles.event) :
  let s := Particles.run random evs
             (Particles.start random offsetWidth offsetHeight innerWidth) in
  Particles.particleCount s
  = Particles.calcParticleCount (last_innerWidth innerWidth evs)
  /\ List.length (Particles.particles s) = Z.to_nat (Particles.particleCount s)
  /\ (List.length (Particles.particles s) <= 80)%nat.
Proof.
  intros s.
  assert (H0 : List.length (Particles.particles
                              (Particles.start random offsetWidth offsetHeight innerWidth))
               = Z.to_nat (Particles.particleCount
                             (Particles.start random offsetWidth offsetHeight innerWidth))
               /\ Particles.particleCount
                    (Particles.start random offsetWidth offsetHeight innerWidth)
                  = Particles.calcParticleCount innerWidth).
  { unfold Particles.start. rewrite animate_length, animate_particleCount.
    unfold Particles.initParticles. cbn. now rewrite createParticles_length. }
  destruct H0 as [Hl Hc].
  destruct (run_particleCount evs _ Hl) as [H1 H2]. fold s in H1, H2.
  specialize (H2 _ Hc).
  split; [exact H2 |]. split; [exact H1 |].
  rewrite H1, H2. unfold Particles.calcParticleCount. lia.
Qed.

Lemma move_appearance (w h : Z) (p : Particles.particle) (k : nat) :
  appearance (fst (Particles.move random w h (p, k))) = appearance p.
Proof.
  unfold Particles.move.
  destruct (PrimFloat.ltb _ _); cbn;
    repeat match goal with |- context [if ?c then _ else _] => destruct c end;
    reflexivity.
Qed.

Lemma move_all_appearance (w h : Z) (ps : list Particles.particle) :
  forall k, map appearance (fst (Particles.move_all random w h ps k))
            = map appearance ps.
Proof.
  induction ps as [| p ps IH]; intros k; [reflexivity |].
  cbn [Particles.move_all].
  pose proof (move_appearance w h p k) as Hp.
  destruct (Particles.move random w h (p, k)) as [p' k1].
  specialize (IH k1).
  destruct (Particles.move_all random w h ps k1) as [ps' k2].
  cbn in *. now rewrite IH, Hp.
Qed.

Lemma animate_appearance (s : Particles.state) :
  map appearance (Particles.particles (Particles.animate random s))
  = map appearance (Particles.particles s).
Proof.
  unfold Particles.animate.
  destruct (Particles.isHeroVisible s); cbn; [| reflexivity].
  apply move_all_appearance.
Qed.

Lemma fold_animate_appearance (l : list positive) :
  forall s, map appearance
              (Particles.particles
                 (fold_left (fun s _ => Particles.animate random s) l s))
            = map appearance (Particles.particles s).
Proof.
  induction l as [| a l IH]; intros s; cbn; [reflexivity |].
  rewrite IH. apply animate_appearance.
Qed.

(** X11: As long as no resize is broadcast, every particle keeps its size,
    colour, opacity, both speeds and its twinkle speed, and the particles
    keep their order: frames and visibility notifications only move them and
    advance their twinkle phase. *)
Theorem particles_keep_appearance (evs : list Particles.event) (s : Particles.state) :
  no_resize evs = true ->
  map appearance (Particles.particles (Particles.run random evs s))
  = map appearance (Particles.particles s).
Proof.
  revert s. induction evs as [| ev evs IH]; intros s H; [reflexivity |].
  cbn [no_resize forallb] in H. apply andb_true_iff in H. destruct H as [Hev H].
  cbn [Particles.run]. rewrite (IH _ H).
  destruct ev as [| b | w h iw]; cbn [Particles.step]; [| | discriminate Hev].
  - unfold Particles.on_frame. now rewrite fold_animate_appearance.
  - unfold Particles.on_intersection. cbn.
    destruct (negb (Particles.isHeroVisible s) && b); [| reflexivity].
    now rewrite animate_appearance.
Qed.

End ParticleCount.

Lemma particles_keep_appearance_example :
  no_resize [Particles.Frame; Particles.Intersecting false; Particles.Frame;
             Particles.Intersecting true; Particles.Frame] = true
  /\ map appearance
       (Particles.particles
          (Particles.run sample_random
             [Particles.Frame; Particles.Intersecting false; Particles.Frame;
              Particles.Intersecting true; Particles.Frame]
             (Particles.start sample_random 300 200 45)))
     = map appearance (Particles.particles (Particles.start sample_random 300 200 45)).
Proof.
  split; [reflexivity |].
  apply (particles_keep_appearance sample_random); reflexivity.
Defined.

(** ** The scroll lock under the listeners of the menu and the lightbox *)

Lemma lock_adds (p : ScrollLock.page) (b : bool) :
  ScrollLock.scrollLockCount p = Z.b2z b ->
  ScrollLock.no_scroll p = b ->
  ScrollLock.scrollLockCount (ScrollLock.lockScroll p) = 1 + Z.b2z b
  /\ ScrollLock.no_scroll (ScrollLock.lockScroll p) = true.
Proof.
  intros Hc Hn. unfold ScrollLock.lockScroll. cbn. rewrite Hc, Hn.
  destruct b; cbn; auto.
Qed.

Lemma unlock_removes (p : ScrollLock.page) (b : bool) :
  ScrollLock.scrollLockCount p = 1 + Z.b2z b ->
  ScrollLock.no_scroll p = true ->
  ScrollLock.scrollLockCount (ScrollLock.unlockScroll p) = Z.b2z b
  /\ ScrollLock.no_scroll (ScrollLock.unlockScroll p) = b.
Proof.
  intros Hc Hn. unfold ScrollLock.unlockScroll. cbn. rewrite Hc, Hn.
  destruct b; cbn; auto.
Qed.

Lemma openLightbox_effect (e : Lightbox.env) (i : Z)
  (p : ScrollLock.page) (s : Lightbox.state) :
  0 <= i < Lightbox.length_of e ->
  exists s', Lightbox.openLightbox e i (p, s) = Ok (ScrollLock.lockScroll p, s')
             /\ Lightbox.isOpen s' = true
             /\ Lightbox.currentIndex s' = i.
Proof.
  intros Hi. unfold Lightbox.openLightbox.
  cbn [Lightbox.with_index Lightbox.currentIndex snd fst].
  destruct (item_at_valid e i Hi) as [it ->].
  item_data d. cbn [bind].
  eexists. split; [reflexivity |].
  unfold Lightbox.updateCounter. destruct (Lightbox.hasCounter e); cbn; auto.
Qed.

Lemma closeLightbox_effect (e : Lightbox.env)
  (p : ScrollLock.page) (s : Lightbox.state) :
  exists s', Lightbox.closeLightbox e (p, s) = (ScrollLock.unlockScroll p, s')
             /\ Lightbox.isOpen s' = false
             /\ Lightbox.currentIndex s' = Lightbox.currentIndex s.
Proof.
  unfold Lightbox.closeLightbox. cbn [fst snd].
  eexists. split; [reflexivity |].
  destruct (Lightbox.hasGSAP e); cbn;
    match goal with |- context [Lightbox.item_at ?a ?b] =>
      destruct (Lightbox.item_at a b) end; cbn; auto.
Qed.

Lemma updateLightboxContent_isOpen (e : Lightbox.env) (s s' : Lightbox.state) :
  Lightbox.updateLightboxContent e s = Ok s' ->
  Lightbox.isOpen s' = Lightbox.isOpen s.
Proof.
  unfold Lightbox.updateLightboxContent.
  destruct (Lightbox.getItemData _ _) as [d |]; cbn [bind]; [| discriminate].
  unfold Lightbox.updateCounter.
  destruct (Lightbox.hasGSAP e), (Lightbox.hasCounter e); cbn;
    intros [= <-]; reflexivity.
Qed.

Lemma showNext_effect (e : Lightbox.env) (s : Lightbox.state) :
  0 <= Lightbox.currentIndex s < Lightbox.length_of e ->
  exists s', Lightbox.showNext e s = Ok s'
             /\ Lightbox.isOpen s' = Lightbox.isOpen s
             /\ 0 <= Lightbox.currentIndex s' < Lightbox.length_of e.
Proof.
  intros Hi. destruct (showNext_index e s Hi) as [s' [H1 H2]].
  exists s'. split; [exact H1 |]. split.
  - unfold Lightbox.showNext in H1.
    now rewrite (updateLightboxContent_isOpen _ _ _ H1).
  - rewrite H2. apply Z.mod_pos_bound. lia.
Qed.

Lemma showPrev_effect (e : Lightbox.env) (s : Lightbox.state) :
  0 <= Lightbox.currentIndex s < Lightbox.length_of e ->
  exists s', Lightbox.showPrev e s = Ok s'
             /\ Lightbox.isOpen s' = Lightbox.isOpen s
             /\ 0 <= Lightbox.currentIndex s' < Lightbox.length_of e.
Proof.
  intros Hi. destruct (showPrev_index e s Hi) as [s' [H1 H2]].
  exists s'. split; [exact H1 |]. split.
  - unfold Lightbox.showPrev in H1.
    now rewrite (updateLightboxContent_isOpen _ _ _ H1).
  - rewrite H2. apply Z.mod_pos_bound. lia.
Qed.

Lemma on_box_balanced
  (f : Lightbox.env -> ScrollLock.page * Lightbox.state ->
       result (ScrollLock.page * Lightbox.state))
  (w : Page.components) :
  UI.balanced w ->
  (forall e s, Page.box w = Some (e, s) ->
               exists ps, f e (Page.scroll w, s) = Ok ps
                          /\ lock_move e (Page.scroll w) s ps) ->
  exists w', UI.on_box f w = Ok w' /\ UI.balanced w'.
Proof.
  intros [Hc [Hn [Ha Hr]]] Hf. unfold UI.on_box.
  destruct (Page.box w) as [[e s] |] eqn:Eb.
  - destruct (Hf e s eq_refl) as [ps [-> Hm]]. cbn [bind].
    eexists. split; [reflexivity |].
    unfold UI.balanced, UI.box_open in *. rewrite Eb in Hc, Hn.
    cbn [Page.scroll Page.menu Page.box].
    destruct Hm as [s' Ho Hi | s' Ho Ho' Hi | s' Ho Ho' Hi]; cbn [fst snd].
    + rewrite Ho. auto.
    + rewrite Ho in Hc, Hn. rewrite Ho'.
      unfold ScrollLock.lockScroll.
      cbn [ScrollLock.scrollLockCount ScrollLock.no_scroll]. rewrite Hc, Hn.
      destruct (Menu.menu_open (Page.menu w)); cbn; auto.
    + rewrite Ho in Hc, Hn. rewrite Ho'.
      unfold ScrollLock.unlockScroll.
      cbn [ScrollLock.scrollLockCount ScrollLock.no_scroll]. rewrite Hc, Hn.
      destruct (Menu.menu_open (Page.menu w)); cbn; auto.
  - exists w. split; [reflexivity |].
    unfold UI.balanced, UI.box_open in *. rewrite Eb in *. auto.
Qed.

Lemma on_menu_close_balanced (d : Page.dom) (w : Page.components) :
  UI.balanced w ->
  Menu.menu_open (Page.menu w) = true ->
  UI.balanced (UI.on_menu (Menu.closeMobileMenu (UI.menu_present d)) w).
Proof.
  intros [Hc [Hn [Ha Hr]]] Ho.
  unfold UI.balanced, UI.box_open, UI.on_menu, Menu.closeMobileMenu in *.
  destruct (UI.menu_present d); cbn [negb fst snd Page.scroll Page.menu Page.box];
    [| auto].
  rewrite Ho in Hc, Hn. cbn [orb] in Hn.
  unfold ScrollLock.unlockScroll.
  cbn [ScrollLock.scrollLockCount ScrollLock.no_scroll Menu.menu_open
         Menu.hamburger_active].
  rewrite Hc, Hn.
  destruct (Page.box w) as [[e s] |]; [destruct (Lightbox.isOpen s) |]; cbn; auto.
Qed.

Lemma on_menu_open_balanced (d : Page.dom) (w : Page.components) :
  UI.balanced w ->
  Menu.menu_open (Page.menu w) = false ->
  UI.balanced (UI.on_menu (Menu.openMobileMenu (UI.menu_present d)) w).
Proof.
  intros [Hc [Hn [Ha Hr]]] Ho.
  unfold UI.balanced, UI.box_open, UI.on_menu, Menu.openMobileMenu in *.
  destruct (UI.menu_present d); cbn [negb fst snd Page.scroll Page.menu Page.box];
    [| auto].
  rewrite Ho in Hc, Hn. cbn [orb] in Hn.
  unfold ScrollLock.lockScroll.
  cbn [ScrollLock.scrollLockCount ScrollLock.no_scroll Menu.menu_open
         Menu.hamburger_active].
  rewrite Hc, Hn.
  destruct (Page.box w) as [[e s] |]; [destruct (Lightbox.isOpen s) |]; cbn; auto.
Qed.

Lemma focus_hamburger_balanced (d : Page.dom) (w : Page.components) :
  UI.balanced w -> UI.balanced (UI.focus_hamburger d w).
Proof.
  intros H. unfold UI.focus_hamburger.
  destruct (Page.hamburger d); [| exact H].
  destruct (Page.box w) as [[e s] |] eqn:Eb; [| exact H].
  unfold UI.balanced, UI.box_open in *. rewrite Eb in H. cbn. exact H.
Qed.

Lemma menu_keydown_balanced (d : Page.dom) (key : string) (w : Page.components) :
  UI.balanced w -> UI.balanced (UI.menu_keydown d key w).
Proof.
  intros H. unfold UI.menu_keydown.
  destruct (key =? "Escape")%string; cbn [andb]; [| exact H].
  destruct (Page.mobileMenu d); cbn [andb]; [| exact H].
  destruct (Menu.menu_open (Page.menu w)) eqn:Eo; [| exact H].
  apply focus_hamburger_balanced. now apply on_menu_close_balanced.
Qed.

Lemma lightbox_keydown_balanced (key : string) (w : Page.components) :
  UI.balanced w ->
  exists w', UI.lightbox_keydown key w = Ok w' /\ UI.balanced w'.
Proof.
  intros H. apply on_box_balanced; [exact H |].
  intros e s Eb. destruct H as [_ [_ [_ Hr]]]. rewrite Eb in Hr.
  cbn [fst snd].
  destruct (Lightbox.isOpen s) eqn:Eo; cbn [negb].
  2: { eexists. split; [reflexivity |]. now constructor. }
  destruct (key =? "Escape")%string.
  { destruct (closeLightbox_effect e (Page.scroll w) s) as [s' [-> [H1 H2]]].
    eexists. split; [reflexivity |]. apply lm_close; auto. now rewrite H2. }
  destruct (key =? "ArrowLeft")%string.
  { destruct (showPrev_effect e s Hr) as [s' [-> [H1 H2]]]. cbn [bind].
    eexists. split; [reflexivity |]. now constructor. }
  destruct (key =? "ArrowRight")%string.
  { destruct (showNext_effect e s Hr) as [s' [-> [H1 H2]]]. cbn [bind].
    eexists. split; [reflexivity |]. now constructor. }
  eexists. split; [reflexivity |]. now constructor.
Qed.

Lemma item_click_balanced (i : Z) (w : Page.components) :
  UI.balanced w ->
  UI.box_open w = false ->
  exists w', UI.item_click i w = Ok w' /\ UI.balanced w'.
Proof.
  intros H Hclosed. apply on_box_balanced; [exact H |].
  intros e s Eb. destruct H as [_ [_ [_ Hr]]]. rewrite Eb in Hr.
  unfold UI.box_open in Hclosed. rewrite Eb in Hclosed.
  destruct ((0 <=? i) && (i <? Lightbox.length_of e)) eqn:Ei.
  - apply andb_true_iff in Ei. destruct Ei as [H1 H2].
    apply Z.leb_le in H1. apply Z.ltb_lt in H2.
    destruct (openLightbox_effect e i (Page.scroll w) s (conj H1 H2))
      as [s' [-> [Ho Hi]]].
    eexists. split; [reflexivity |]. apply lm_open; auto. rewrite Hi. lia.
  - eexists. split; [reflexivity |]. now constructor.
Qed.

Lemma close_click_balanced (w : Page.components) :
  UI.balanced w ->
  UI.box_open w = true ->
  exists w', UI.close_click w = Ok w' /\ UI.balanced w'.
Proof.
  intros H Hopen. apply on_box_balanced; [exact H |].
  intros e s Eb. destruct H as [_ [_ [_ Hr]]]. rewrite Eb in Hr.
  unfold UI.box_open in Hopen. rewrite Eb in Hopen.
  destruct (closeLightbox_effect e (Page.scroll w) s) as [s' [-> [H1 H2]]].
  eexists. split; [reflexivity |]. apply lm_close; auto. now rewrite H2.
Qed.

Lemma box_step_balanced (ev : Lightbox.event) (w : Page.components) :
  UI.balanced w ->
  match ev with Lightbox.Open _ | Lightbox.Close => False | _ => True end ->
  exists w', UI.on_box (fun e => Lightbox.step e ev) w = Ok w' /\ UI.balanced w'.
Proof.
  intros H Hev. apply on_box_balanced; [exact H |].
  intros e s Eb. destruct H as [_ [_ [_ Hr]]]. rewrite Eb in Hr.
  destruct ev as [i | | | | c | |]; try contradiction;
    cbn [Lightbox.step fst snd].
  - destruct (showPrev_effect e s Hr) as [s' [-> [H1 H2]]]. cbn [bind].
    eexists. split; [reflexivity |]. now constructor.
  - destruct (showNext_effect e s Hr) as [s' [-> [H1 H2]]]. cbn [bind].
    eexists. split; [reflexivity |]. now constructor.
  - destruct (Lightbox.fadeOut s) as [dt |].
    + eexists. split; [reflexivity |]. constructor.
      * unfold Lightbox.onComplete, Lightbox.fadeInLightboxImage,
          Lightbox.updateCounter.
        destruct (Lightbox.hasCounter e), c; reflexivity.
      * now rewrite onComplete_index.
    + eexists. split; [reflexivity |]. now constructor.
  - destruct (Lightbox.onLoad s);
      (eexists; split; [reflexivity |]; now constructor).
  - destruct (Lightbox.onError s);
      (eexists; split; [reflexivity |]; now constructor).
Qed.

Lemma handle_balanced (d : Page.dom) (ev : UI.event) (w : Page.components) :
  UI.balanced w ->
  UI.enabled ev w = true ->
  exists w', UI.handle d ev w = Ok w' /\ UI.balanced w'.
Proof.
  intros H He. destruct ev as [| onLink | key | m | i | i key | | | | | c | |];
    cbn [UI.handle UI.enabled] in *.
  - eexists. split; [reflexivity |]. unfold UI.hamburger_click.
    destruct (Page.hamburger d); [| exact H].
    destruct (Menu.hamburger_active (Page.menu w)) eqn:Ea.
    + replace (UI.on_menu _ w)
        with (UI.on_menu (Menu.closeMobileMenu (UI.menu_present d)) w)
        by (unfold UI.on_menu; cbn [snd]; now rewrite Ea).
      apply on_menu_close_balanced; [exact H |].
      destruct H as [_ [_ [Ha _]]]. congruence.
    + replace (UI.on_menu _ w)
        with (UI.on_menu (Menu.openMobileMenu (UI.menu_present d)) w)
        by (unfold UI.on_menu; cbn [snd]; now rewrite Ea).
      apply on_menu_open_balanced; [exact H |].
      destruct H as [_ [_ [Ha _]]]. congruence.
  - eexists. split; [reflexivity |]. unfold UI.menu_click.
    destruct (Page.mobileMenu d); cbn [andb]; [| exact H].
    destruct onLink; [| exact H]. now apply on_menu_close_balanced.
  - unfold UI.document_keydown. apply lightbox_keydown_balanced.
    now apply menu_keydown_balanced.
  - eexists. split; [reflexivity |]. unfold UI.media_change.
    destruct m; cbn [andb]; [| exact H].
    destruct (Page.mobileMenu d); cbn [andb]; [| exact H].
    destruct (Menu.menu_open (Page.menu w)) eqn:Eo; [| exact H].
    now apply on_menu_close_balanced.
  - apply item_click_balanced; [exact H |]. now apply negb_true_iff in He.
  - unfold UI.item_keydown, UI.document_keydown.
    destruct ((key =? "Enter")%string || (key =? " ")%string).
    + apply negb_true_iff in He.
      destruct (item_click_balanced i w H He) as [w1 [-> H1]]. cbn [bind].
      apply lightbox_keydown_balanced. now apply menu_keydown_balanced.
    + cbn [bind]. apply lightbox_keydown_balanced.
      now apply menu_keydown_balanced.
  - now apply close_click_balanced.
  - unfold UI.overlay_click. destruct (Page.lightboxOverlay d).
    + now apply close_click_balanced.
    + eauto.
  - now apply box_step_balanced.
  - now apply box_step_balanced.
  - now apply box_step_balanced.
  - now apply box_step_balanced.
  - now apply box_step_balanced.
Qed.

Lemma run_balanced (d : Page.dom) (evs : list UI.event) :
  forall w : Page.components,
    UI.balanced w ->
    UI.feasible d evs w = true ->
    exists w', UI.run d evs w = Ok w' /\ UI.balanced w'.
Proof.
  induction evs as [| ev evs IH]; intros w H Hf.
  - exists w. split; [reflexivity | exact H].
  - cbn [UI.feasible] in Hf. apply andb_true_iff in Hf. destruct Hf as [He Hf].
    destruct (handle_balanced d ev w H He) as [w1 [Hh H1]].
    cbn [UI.run]. rewrite Hh in *. cbn [bind]. now apply IH.
Qed.

Lemma main_balanced (d : Page.dom) (p : Page.page) :
  Page.main d = Ok p -> UI.balanced (Resize.world p).
Proof.
  intros Hm. destruct (main_world d p Hm) as [_ [_ [Hs [Hmenu [_ Hb]]]]].
  unfold UI.balanced, UI.box_open. rewrite Hs, Hmenu, Hb.
  destruct (lightbox_elements d); [| cbn; auto].
  destruct (Page.gallery d) as [| it items]; [cbn; auto |].
  unfold Lightbox.length_of. cbn. repeat split; lia.
Qed.

(** X12: On the page as the script's top level sets it up, along any sequence of
    clicks, key presses, media changes and image events on the controls on
    display: no listener throws, and the scroll-lock counter is 1 for the
    open menu plus 1 for the open lightbox, the page being scroll-locked
    exactly while one of them is open. One [Escape] closes both. *)
Theorem menu_and_lightbox_share_lock
  (d : Page.dom) (p : Page.page) (evs : list UI.event) :
  Page.main d = Ok p ->
  UI.feasible d evs (Resize.world p) = true ->
  exists w,
    UI.run d evs (Resize.world p) = Ok w
    /\ ScrollLock.scrollLockCount (Page.scroll w)
       = Z.b2z (Menu.menu_open (Page.menu w)) + Z.b2z (UI.box_open w)
    /\ ScrollLock.no_scroll (Page.scroll w)
       = Menu.menu_open (Page.menu w) || UI.box_open w.
Proof.
  intros Hm Hf.
  destruct (run_balanced d evs _ (main_balanced d p Hm) Hf) as [w [Hr [Hc [Hn _]]]].
  exists w. auto.
Qed.

Lemma menu_and_lightbox_example :
  Page.main sample_dom = Ok sample_page
  /\ UI.feasible sample_dom sample_session (Resize.world sample_page) = true
  /\ exists w,
       UI.run sample_dom sample_session (Resize.world sample_page) = Ok w
       /\ ScrollLock.scrollLockCount (Page.scroll w)
          = Z.b2z (Menu.menu_open (Page.menu w)) + Z.b2z (UI.box_open w)
       /\ ScrollLock.no_scroll (Page.scroll w)
          = Menu.menu_open (Page.menu w) || UI.box_open w.
Proof.
  assert (Hm : Page.main sample_dom = Ok sample_page) by reflexivity.
  assert (Hf : UI.feasible sample_dom sample_session (Resize.world sample_page)
               = true) by reflexivity.
  split; [exact Hm | split; [exact Hf |]].
  exact (menu_and_lightbox_share_lock sample_dom sample_page sample_session Hm Hf).
Defined.

(** X13: Neither [openLightbox] nor a gallery item's listener tests whether the
    lightbox is open already: opened twice and closed once, the lightbox is
    closed and the page is still scroll-locked, the counter one above where
    it was. *)
Theorem lightbox_opened_twice_keeps_lock
  (e : Lightbox.env) (i j : Z) (p : ScrollLock.page) (s : Lightbox.state) :
  0 <= i < Lightbox.length_of e ->
  0 <= j < Lightbox.length_of e ->
  ScrollLock.consistent p ->
  exists ps1 ps2,
    Lightbox.openLightbox e i (p, s) = Ok ps1
    /\ Lightbox.openLightbox e j ps1 = Ok ps2
    /\ Lightbox.isOpen (snd (Lightbox.closeLightbox e ps2)) = false
    /\ ScrollLock.scrollLockCount (fst (Lightbox.closeLightbox e ps2))
       = ScrollLock.scrollLockCount p + 1
    /\ ScrollLock.no_scroll (fst (Lightbox.closeLightbox e ps2)) = true.
Proof.
  intros Hi Hj [Hc Hn].
  destruct (openLightbox_effect e i p s Hi) as [s1 [H1 _]].
  destruct (openLightbox_effect e j (ScrollLock.lockScroll p) s1 Hj) as [s2 [H2 _]].
  destruct (closeLightbox_effect e
              (ScrollLock.lockScroll (ScrollLock.lockScroll p)) s2)
    as [s3 [H3 [Ho _]]].
  do 2 eexists. split; [exact H1 |]. split; [exact H2 |].
  rewrite H3. cbn [fst snd]. split; [exact Ho |].
  unfold ScrollLock.unlockScroll, ScrollLock.lockScroll.
  cbn [ScrollLock.scrollLockCount ScrollLock.no_scroll].
  replace (Z.max 0 (ScrollLock.scrollLockCount p + 1 + 1 - 1))
    with (ScrollLock.scrollLockCount p + 1) by lia.
  split; [reflexivity |].
  assert (E1 : (ScrollLock.scrollLockCount p + 1 =? 0) = false)
    by (apply Z.eqb_neq; lia).
  rewrite !E1.
  destruct (ScrollLock.scrollLockCount p =? 0) eqn:E0; [reflexivity |].
  apply Z.eqb_neq in E0. apply Hn. lia.
Qed.

Lemma lightbox_opened_twice_example :
  0 <= 0 < Lightbox.length_of three_items
  /\ 0 <= 2 < Lightbox.length_of three_items
  /\ ScrollLock.consistent ScrollLock.init
  /\ exists ps1 ps2,
       Lightbox.openLightbox three_items 0 (ScrollLock.init, Lightbox.init) = Ok ps1
       /\ Lightbox.openLightbox three_items 2 ps1 = Ok ps2
       /\ Lightbox.isOpen (snd (Lightbox.closeLightbox three_items ps2)) = false
       /\ ScrollLock.scrollLockCount (fst (Lightbox.closeLightbox three_items ps2))
          = ScrollLock.scrollLockCount ScrollLock.init + 1
       /\ ScrollLock.no_scroll (fst (Lightbox.closeLightbox three_items ps2)) = true.
Proof.
  assert (H0 : 0 <= 0 < Lightbox.length_of three_items) by (cbn; lia).
  assert (H2 : 0 <= 2 < Lightbox.length_of three_items) by (cbn; lia).
  assert (Hc : ScrollLock.consistent ScrollLock.init).
  { split; [cbn; lia |]. cbn. split; [discriminate | lia]. }
  split; [exact H0 | split; [exact H2 | split; [exact Hc |]]].
  exact (lightbox_opened_twice_keeps_lock three_items 0 2 ScrollLock.init
           Lightbox.init H0 H2 Hc).
Defined.

Lemma items_effects_nth (items : list Lightbox.item) :
  forall (i : nat) (k : Z) (it : Lightbox.item),
    nth_error items i = Some it ->
    incl (item_effects it (k + Z.of_nat i)) (items_effects items k).
Proof.
  induction items as [| it0 items IH]; intros i k it Hi.
  - destruct i; discriminate.
  - cbn [items_effects]. destruct i as [| i].
    + injection Hi as ->. replace (k + Z.of_nat 0) with k by lia.
      apply incl_appl, incl_refl.
    + replace (k + Z.of_nat (S i)) with (k + 1 + Z.of_nat i) by lia.
      apply incl_appr. now apply IH.
Qed.

(** X14: On a document with the six required elements and at least one gallery
    item, [initLightbox] makes every gallery item focusable and a button
    labelled with its caption heading, gives it a click and a keydown
    listener, then adds the listeners of the close button, of the overlay
    if there is one, of the two arrows, of the document and of the lightbox,
    in this order and nothing else; the lightbox starts closed on index 0
    and no scroll lock is taken. *)
Theorem initLightbox_wires_gallery (d : Page.dom) (w : Page.components) :
  lightbox_elements d = true ->
  Page.gallery d <> [] ->
  exists w',
    Page.initLightbox d w = Ok w'
    /\ Page.effects w'
       = (Page.effects w
          ++ items_effects (Page.gallery d) 0
          ++ [Page.Listen "#lightboxClose" "click"]
          ++ (if Page.lightboxOverlay d
              then [Page.Listen ".lightbox__overlay" "click"] else [])
          ++ [Page.Listen "#lightboxPrev" "click";
              Page.Listen "#lightboxNext" "click";
              Page.Listen "document" "keydown";
              Page.Listen "#lightbox" "keydown"])%list
    /\ (forall (i : nat) (it : Lightbox.item),
          nth_error (Page.gallery d) i = Some it ->
          incl (item_effects it (Z.of_nat i)) (Page.effects w'))
    /\ Page.box w'
       = Some (Lightbox.mkEnv (Page.hasGSAP d) (Page.gallery d)
                 (Page.lightboxCounter d) (Page.documentItem d), Lightbox.init)
    /\ Page.scroll w' = Page.scroll w
    /\ Page.menu w' = Page.menu w.
Proof.
  intros He Hg. eexists. split; [apply initLightbox_log; assumption |].
  match goal with |- context [log_all ?es ?w0] =>
    destruct (log_all_fields es w0) as [F1 [F2 [_ [_ [_ [F6 F7]]]]]] end.
  rewrite F1, F2, F6, F7. cbn [Page.scroll Page.menu Page.box Page.effects].
  split; [reflexivity |]. split; [| auto].
  intros i it Hi x Hx. apply in_or_app. right. apply in_or_app. left.
  apply (items_effects_nth (Page.gallery d) i 0 it Hi). exact Hx.
Qed.

Lemma initLightbox_wires_gallery_example :
  lightbox_elements sample_dom = true
  /\ Page.gallery sample_dom <> []
  /\ exists w',
       Page.initLightbox sample_dom (Resize.world sample_page) = Ok w'
       /\ Page.box w'
          = Some (Lightbox.mkEnv true (gallery_of ["a"; "b"; "c"]%string) true
                    (Page.documentItem sample_dom),
                  Lightbox.init).
Proof.
  assert (He : lightbox_elements sample_dom = true) by reflexivity.
  assert (Hg : Page.gallery sample_dom <> []) by discriminate.
  split; [exact He | split; [exact Hg |]].
  destruct (initLightbox_wires_gallery sample_dom (Resize.world sample_page) He Hg)
    as [w' [H1 [_ [_ [H4 _]]]]].
  exists w'. split; [exact H1 | exact H4].
Defined.

(** ** The listeners never throw; classes and ARIA attributes agree *)

Lemma on_menu_coherent (b : bool) (w : Page.components)
  (f : ScrollLock.page * Menu.state -> ScrollLock.page * Menu.state) :
  coherent w ->
  (f = Menu.closeMobileMenu b \/ f = Menu.openMobileMenu b) ->
  coherent (UI.on_menu f w).
Proof.
  intros [H1 [H2 [H3 H4]]] Hf. unfold coherent, UI.on_menu.
  cbn [Page.menu Page.box].
  destruct Hf as [-> | ->];
    unfold Menu.closeMobileMenu, Menu.openMobileMenu;
    destruct b; cbn; auto.
Qed.

Lemma focus_hamburger_coherent (d : Page.dom) (w : Page.components) :
  coherent w -> coherent (UI.focus_hamburger d w).
Proof.
  intros H. unfold UI.focus_hamburger.
  destruct (Page.hamburger d); [| exact H].
  destruct (Page.box w) as [[e s] |] eqn:Eb; [| exact H].
  unfold coherent in *. rewrite Eb in H. cbn. exact H.
Qed.

Lemma menu_keydown_coherent (d : Page.dom) (key : string) (w : Page.components) :
  coherent w -> coherent (UI.menu_keydown d key w).
Proof.
  intros H. unfold UI.menu_keydown.
  destruct ((key =? "Escape")%string
            && (Page.mobileMenu d && Menu.menu_open (Page.menu w))); [| exact H].
  apply focus_hamburger_coherent. apply (on_menu_coherent (UI.menu_present d)); auto.
Qed.

Lemma on_box_coherent
  (f : Lightbox.env -> ScrollLock.page * Lightbox.state ->
       result (ScrollLock.page * Lightbox.state))
  (w : Page.components) :
  coherent w ->
  (forall e s, fine e s ->
               exists ps, f e (Page.scroll w, s) = Ok ps /\ fine e (snd ps)) ->
  exists w', UI.on_box f w = Ok w' /\ coherent w'.
Proof.
  intros [H1 [H2 [H3 H4]]] Hf. unfold UI.on_box.
  destruct (Page.box w) as [[e s] |] eqn:Eb.
  - destruct (Hf e s H4) as [ps [-> Hfine]]. cbn [bind].
    eexists. split; [reflexivity |]. unfold coherent. cbn. auto.
  - exists w. split; [reflexivity |]. unfold coherent. rewrite Eb. auto.
Qed.

Lemma updateLightboxContent_aria (e : Lightbox.env) (s s' : Lightbox.state) :
  Lightbox.updateLightboxContent e s = Ok s' ->
  Lightbox.ariaHidden s' = Lightbox.ariaHidden s.
Proof.
  unfold Lightbox.updateLightboxContent.
  destruct (Lightbox.getItemData _ _) as [d |]; cbn [bind]; [| discriminate].
  unfold Lightbox.updateCounter.
  destruct (Lightbox.hasGSAP e), (Lightbox.hasCounter e); cbn;
    intros [= <-]; reflexivity.
Qed.

Lemma open_fine (e : Lightbox.env) (i : Z) (p : ScrollLock.page)
  (s : Lightbox.state) :
  0 <= i < Lightbox.length_of e ->
  exists ps, Lightbox.openLightbox e i (p, s) = Ok ps /\ fine e (snd ps).
Proof.
  intros Hi. unfold Lightbox.openLightbox.
  cbn [Lightbox.with_index Lightbox.currentIndex snd fst].
  destruct (item_at_valid e i Hi) as [it ->].
  item_data d. cbn [bind].
  eexists. split; [reflexivity |].
  unfold fine, Lightbox.updateCounter.
  destruct (Lightbox.hasCounter e); cbn; auto.
Qed.

Lemma close_fine (e : Lightbox.env) (p : ScrollLock.page) (s : Lightbox.state) :
  fine e s -> fine e (snd (Lightbox.closeLightbox e (p, s))).
Proof.
  intros [Hi Ha]. unfold fine, Lightbox.closeLightbox. cbn [fst snd].
  destruct (Lightbox.hasGSAP e); cbn;
    match goal with |- context [Lightbox.item_at ?a ?b] =>
      destruct (Lightbox.item_at a b) end; cbn; auto.
Qed.

Lemma next_fine (e : Lightbox.env) (s : Lightbox.state) :
  fine e s -> exists s', Lightbox.showNext e s = Ok s' /\ fine e s'.
Proof.
  intros [Hi Ha]. destruct (showNext_effect e s Hi) as [s' [H1 [H2 H3]]].
  exists s'. split; [exact H1 |]. split; [exact H3 |].
  unfold Lightbox.showNext in H1.
  rewrite (updateLightboxContent_aria _ _ _ H1), H2. exact Ha.
Qed.

Lemma prev_fine (e : Lightbox.env) (s : Lightbox.state) :
  fine e s -> exists s', Lightbox.showPrev e s = Ok s' /\ fine e s'.
Proof.
  intros [Hi Ha]. destruct (showPrev_effect e s Hi) as [s' [H1 [H2 H3]]].
  exists s'. split; [exact H1 |]. split; [exact H3 |].
  unfold Lightbox.showPrev in H1.
  rewrite (updateLightboxContent_aria _ _ _ H1), H2. exact Ha.
Qed.

Lemma step_fine (e : Lightbox.env) (ev : Lightbox.event)
  (p : ScrollLock.page) (s : Lightbox.state) :
  fine e s ->
  match ev with
  | Lightbox.Open i => 0 <= i < Lightbox.length_of e
  | _ => True
  end ->
  exists ps, Lightbox.step e ev (p, s) = Ok ps /\ fine e (snd ps).
Proof.
  intros Hs Hev. destruct ev as [i | | | | c | |]; cbn [Lightbox.step fst snd].
  - now apply open_fine.
  - eexists. split; [reflexivity |]. now apply close_fine.
  - destruct (prev_fine e s Hs) as [s' [-> H']]. cbn [bind]. eauto.
  - destruct (next_fine e s Hs) as [s' [-> H']]. cbn [bind]. eauto.
  - destruct (Lightbox.fadeOut s) as [dt |]; [| eauto].
    eexists. split; [reflexivity |]. destruct Hs as [Hi Ha].
    split; cbn [snd]; [now rewrite onComplete_index |].
    unfold Lightbox.onComplete, Lightbox.fadeInLightboxImage,
      Lightbox.updateCounter.
    destruct (Lightbox.hasCounter e), c; exact Ha.
  - destruct (Lightbox.onLoad s); eauto.
  - destruct (Lightbox.onError s); eauto.
Qed.

Lemma lightbox_keydown_coherent (key : string) (w : Page.components) :
  coherent w ->
  exists w', UI.lightbox_keydown key w = Ok w' /\ coherent w'.
Proof.
  intros H. apply on_box_coherent; [exact H |].
  intros e s Hs. cbn [fst snd].
  destruct (Lightbox.isOpen s); cbn [negb]; [| eauto].
  destruct (key =? "Escape")%string.
  { eexists. split; [reflexivity |]. now apply close_fine. }
  destruct (key =? "ArrowLeft")%string.
  { destruct (prev_fine e s Hs) as [s' [-> H']]. cbn [bind]. eauto. }
  destruct (key =? "ArrowRight")%string.
  { destruct (next_fine e s Hs) as [s' [-> H']]. cbn [bind]. eauto. }
  eauto.
Qed.

Lemma item_click_coherent (i : Z) (w : Page.components) :
  coherent w ->
  exists w', UI.item_click i w = Ok w' /\ coherent w'.
Proof.
  intros H. apply on_box_coherent; [exact H |].
  intros e s Hs.
  destruct ((0 <=? i) && (i <? Lightbox.length_of e)) eqn:Ei; [| eauto].
  apply andb_true_iff in Ei. destruct Ei as [H1 H2].
  apply Z.leb_le in H1. apply Z.ltb_lt in H2. now apply open_fine.
Qed.

Lemma handle_coherent (d : Page.dom) (ev : UI.event) (w : Page.components) :
  coherent w ->
  exists w', UI.handle d ev w = Ok w' /\ coherent w'.
Proof.
  intros H. destruct ev as [| onLink | key | m | i | i key | | | | | c | |];
    cbn [UI.handle].
  - eexists. split; [reflexivity |]. unfold UI.hamburger_click.
    destruct (Page.hamburger d); [| exact H].
    destruct (Menu.hamburger_active (Page.menu w)) eqn:Ea.
    + replace (UI.on_menu _ w)
        with (UI.on_menu (Menu.closeMobileMenu (UI.menu_present d)) w)
        by (unfold UI.on_menu; cbn [snd]; now rewrite Ea).
      apply (on_menu_coherent (UI.menu_present d)); auto.
    + replace (UI.on_menu _ w)
        with (UI.on_menu (Menu.openMobileMenu (UI.menu_present d)) w)
        by (unfold UI.on_menu; cbn [snd]; now rewrite Ea).
      apply (on_menu_coherent (UI.menu_present d)); auto.
  - eexists. split; [reflexivity |]. unfold UI.menu_click.
    destruct (Page.mobileMenu d && onLink); [| exact H].
    apply (on_menu_coherent (UI.menu_present d)); auto.
  - unfold UI.document_keydown. apply lightbox_keydown_coherent.
    now apply menu_keydown_coherent.
  - eexists. split; [reflexivity |]. unfold UI.media_change.
    destruct (m && (Page.mobileMenu d && Menu.menu_open (Page.menu w)));
      [| exact H].
    apply (on_menu_coherent (UI.menu_present d)); auto.
  - now apply item_click_coherent.
  - unfold UI.item_keydown, UI.document_keydown.
    destruct ((key =? "Enter")%string || (key =? " ")%string).
    + destruct (item_click_coherent i w H) as [w1 [-> H1]]. cbn [bind].
      apply lightbox_keydown_coherent. now apply menu_keydown_coherent.
    + cbn [bind]. apply lightbox_keydown_coherent.
      now apply menu_keydown_coherent.
  - apply on_box_coherent; [exact H |]. intros e s Hs.
    eexists. split; [reflexivity |]. now apply close_fine.
  - unfold UI.overlay_click. destruct (Page.lightboxOverlay d); [| eauto].
    apply on_box_coherent; [exact H |]. intros e s Hs.
    eexists. split; [reflexivity |]. now apply close_fine.
  - apply on_box_coherent; [exact H |]. intros e s Hs. now apply step_fine.
  - apply on_box_coherent; [exact H |]. intros e s Hs. now apply step_fine.
  - apply on_box_coherent; [exact H |]. intros e s Hs. now apply step_fine.
  - apply on_box_coherent; [exact H |]. intros e s Hs. now apply step_fine.
  - apply on_box_coherent; [exact H |]. intros e s Hs. now apply step_fine.
Qed.

Lemma main_coherent (d : Page.dom) (p : Page.page) :
  Page.main d = Ok p -> coherent (Resize.world p).
Proof.
  intros Hm. destruct (main_world d p Hm) as [_ [_ [_ [Hmenu [_ Hb]]]]].
  unfold coherent, fine. rewrite Hmenu, Hb.
  destruct (lightbox_elements d); [| cbn; auto].
  destruct (Page.gallery d) as [| it items]; [cbn; auto |].
  unfold Lightbox.length_of. cbn. repeat split; lia.
Qed.

(** X21: On the page as the script's top level sets it up, whatever clicks, key
    presses, media changes and image events follow, in any order: no
    listener throws; [aria-expanded] of the hamburger button and the class
    of the menu say the same, [aria-hidden] of the menu the opposite;
    [aria-hidden] of the lightbox is the opposite of its class [is-open];
    and the lightbox's index is that of a gallery item. *)
Theorem listeners_never_throw (d : Page.dom) (p : Page.page) (evs : list UI.event) :
  Page.main d = Ok p ->
  exists w,
    UI.run d evs (Resize.world p) = Ok w
    /\ Menu.hamburger_active (Page.menu w) = Menu.menu_open (Page.menu w)
    /\ Menu.aria_expanded (Page.menu w) = Menu.menu_open (Page.menu w)
    /\ Menu.aria_hidden (Page.menu w) = negb (Menu.menu_open (Page.menu w))
    /\ match Page.box w with
       | Some (e, s) =>
           0 <= Lightbox.currentIndex s < Lightbox.length_of e
           /\ Lightbox.ariaHidden s = negb (Lightbox.isOpen s)
       | None => True
       end.
Proof.
  intros Hm. apply main_coherent in Hm. revert Hm.
  generalize (Resize.world p). induction evs as [| ev evs IH]; intros w H.
  - exists w. split; [reflexivity | exact H].
  - cbn [UI.run]. destruct (handle_coherent d ev w H) as [w1 [-> H1]].
    cbn [bind]. now apply IH.
Qed.

Lemma listeners_never_throw_example :
  Page.main sample_dom = Ok sample_page
  /\ exists w,
       UI.run sample_dom
         [UI.ItemClick 0; UI.ItemClick 2; UI.CloseClick; UI.CloseClick;
          UI.MenuClick true; UI.KeyDown "ArrowRight"; UI.ImgError]
         (Resize.world sample_page) = Ok w
       /\ Menu.aria_hidden (Page.menu w) = negb (Menu.menu_open (Page.menu w)).
Proof.
  assert (Hm : Page.main sample_dom = Ok sample_page) by reflexivity.
  split; [exact Hm |].
  destruct (listeners_never_throw sample_dom sample_page
              [UI.ItemClick 0; UI.ItemClick 2; UI.CloseClick; UI.CloseClick;
               UI.MenuClick true; UI.KeyDown "ArrowRight"; UI.ImgError] Hm)
    as [w [H1 [_ [_ [H4 _]]]]].
  exists w. split; [exact H1 | exact H4].
Defined.

(** ** Contact form: the address test and the submit listener *)

Lemma nullable_lang (r : Form.re) : Form.nullable r = true <-> Form.lang r [].
Proof.
  split.
  - induction r as [| | p | r1 IH1 r2 IH2 | r1 IH1 r2 IH2 | r IH];
      cbn [Form.nullable]; intros H; try discriminate.
    + constructor.
    + apply andb_true_iff in H. destruct H as [H1 H2].
      change (@nil Form.code_unit) with (@nil Form.code_unit ++ []).
      constructor; auto.
    + apply orb_true_iff in H. destruct H as [H | H].
      * apply Form.lang_alt_l; auto.
      * apply Form.lang_alt_r; auto.
    + apply Form.lang_plus_one; auto.
  - intros H. remember (@nil Form.code_unit) as s eqn:Es.
    induction H as [| p c Hc | r1 r2 s1 s2 H1 IH1 H2 IH2 | r1 r2 s H IH
                    | r1 r2 s H IH | r s H IH | r s1 s2 H1 IH1 H2 IH2];
      cbn [Form.nullable]; try discriminate; auto.
    + apply app_eq_nil in Es. destruct Es as [-> ->].
      rewrite IH1, IH2; auto.
    + rewrite IH; auto.
    + rewrite IH; auto. apply orb_true_r.
    + apply app_eq_nil in Es. destruct Es as [-> ->]. auto.
Qed.

Lemma deriv_sound (c : Form.code_unit) (r : Form.re) :
  forall s, Form.lang (Form.deriv c r) s -> Form.lang r (c :: s).
Proof.
  induction r as [| | p | r1 IH1 r2 IH2 | r1 IH1 r2 IH2 | r IH];
    intros s H; cbn [Form.deriv] in H.
  - inversion H.
  - inversion H.
  - destruct (p c) eqn:Ep; inversion H; subst. now constructor.
  - inversion H as [| | | ? ? ? Hl | ? ? ? Hr | |]; subst.
    + inversion Hl as [| | ? ? s1 s2 Ha Hb | | | |]; subst.
      change (c :: s1 ++ s2) with ((c :: s1) ++ s2). constructor; auto.
    + destruct (Form.nullable r1) eqn:En; [| inversion Hr].
      change (c :: s) with ([] ++ c :: s). constructor; auto.
      now apply nullable_lang.
  - inversion H; subst.
    + apply Form.lang_alt_l; auto.
    + apply Form.lang_alt_r; auto.
  - inversion H as [| | ? ? s1 s2 Ha Hb | | | |]; subst.
    change (c :: s1 ++ s2) with ((c :: s1) ++ s2).
    inversion Hb as [| | | ? ? ? Hl | ? ? ? Hr | |]; subst.
    + inversion Hl; subst. rewrite app_nil_r. apply Form.lang_plus_one; auto.
    + apply Form.lang_plus_more; auto.
Qed.

Lemma deriv_complete (c : Form.code_unit) (r : Form.re) (cs : list Form.code_unit) :
  Form.lang r cs -> forall s, cs = c :: s -> Form.lang (Form.deriv c r) s.
Proof.
  induction 1 as [| p c0 Hc | r1 r2 s1 s2 H1 IH1 H2 IH2 | r1 r2 s0 H IH
                  | r1 r2 s0 H IH | r s0 H IH | r s1 s2 H1 IH1 H2 IH2];
    intros s Es; cbn [Form.deriv].
  - discriminate.
  - injection Es as -> <-. rewrite Hc. constructor.
  - destruct s1 as [| c1 s1]; cbn [app] in Es.
    + apply Form.lang_alt_r.
      apply nullable_lang in H1. rewrite H1. auto.
    + injection Es as -> <-. apply Form.lang_alt_l. constructor; auto.
  - apply Form.lang_alt_l; auto.
  - apply Form.lang_alt_r; auto.
  - rewrite <- (app_nil_r s). constructor; auto.
    apply Form.lang_alt_l. constructor.
  - destruct s1 as [| c1 s1]; cbn [app] in Es.
    + apply (IH2 s Es).
    + injection Es as -> <-. constructor; auto.
      now apply Form.lang_alt_r.
Qed.

Lemma test_anchored_lang (s : list Form.code_unit) :
  forall r, Form.test_anchored r s = true <-> Form.lang r s.
Proof.
  unfold Form.test_anchored.
  induction s as [| c s IH]; intros r; cbn [fold_left].
  - apply nullable_lang.
  - rewrite IH. split.
    + apply deriv_sound.
    + intros H. now apply (deriv_complete c r (c :: s)).
Qed.

Lemma lang_class_inv (p : Form.code_unit -> bool) (s : list Form.code_unit) :
  Form.lang (Form.Class p) s <-> exists c, s = [c] /\ p c = true.
Proof.
  split.
  - intros H. inversion H; subst. eauto.
  - intros [c [-> Hc]]. now constructor.
Qed.

Lemma lang_seq_inv (r1 r2 : Form.re) (s : list Form.code_unit) :
  Form.lang (Form.Seq r1 r2) s
  <-> exists s1 s2, s = s1 ++ s2 /\ Form.lang r1 s1 /\ Form.lang r2 s2.
Proof.
  split.
  - intros H. inversion H; subst. eauto.
  - intros [s1 [s2 [-> [H1 H2]]]]. now constructor.
Qed.

Lemma lang_plus_class (p : Form.code_unit -> bool) (s : list Form.code_unit) :
  Form.lang (Form.Plus (Form.Class p)) s
  <-> s <> [] /\ Forall (fun c => p c = true) s.
Proof.
  split.
  - intros H. remember (Form.Plus (Form.Class p)) as r eqn:Er.
    induction H as [| | | | | r s H IH | r s1 s2 H1 IH1 H2 IH2];
      try discriminate; injection Er as ->.
    + inversion H; subst. split; [discriminate | auto].
    + inversion H1; subst. destruct (IH2 eq_refl) as [_ HF].
      split; [discriminate |]. cbn. constructor; auto.
  - intros [Hn HF]. induction s as [| c s IH]; [contradiction |].
    inversion HF as [| ? ? Hc HF']; subst.
    destruct s as [| c' s].
    + apply Form.lang_plus_one. now constructor.
    + change (c :: c' :: s) with ([c] ++ c' :: s).
      apply Form.lang_plus_more; [now constructor |].
      apply IH; [discriminate | exact HF'].
Qed.

Lemma not_space_at_spec (c : Form.code_unit) :
  Form.not_space_at c = true <-> Form.is_space c = false /\ c <> Form.AT.
Proof.
  unfold Form.not_space_at. rewrite andb_true_iff, !negb_true_iff, N.eqb_neq.
  reflexivity.
Qed.

(** X15: [isValidEmail] accepts exactly the strings [a@b.c] in which [a], [b]
    and [c] are non-empty and contain neither white space nor [@] ([b] and
    [c] may contain further dots): one [@], something before it, and after
    it a dot that has something on both sides. *)
Theorem isValidEmail_accepts_exactly (email : list Form.code_unit) :
  Form.isValidEmail email = true
  <-> exists a b c,
        email = a ++ [Form.AT] ++ b ++ [Form.DOT] ++ c
        /\ a <> [] /\ b <> [] /\ c <> []
        /\ Forall (fun u => Form.is_space u = false /\ u <> Form.AT) (a ++ b ++ c).
Proof.
  unfold Form.isValidEmail. rewrite test_anchored_lang. unfold Form.EMAIL.
  assert (HF : forall l, Forall (fun c => Form.not_space_at c = true) l
                         <-> Forall (fun u => Form.is_space u = false /\ u <> Form.AT) l).
  { intros l. rewrite !Forall_forall. split; intros H x Hx;
      apply not_space_at_spec; auto. }
  split.
  - intros H.
    apply lang_seq_inv in H. destruct H as [a [r1 [-> [Ha H]]]].
    apply lang_seq_inv in H. destruct H as [x [r2 [-> [Hx H]]]].
    apply lang_seq_inv in H. destruct H as [b [r3 [-> [Hb H]]]].
    apply lang_seq_inv in H. destruct H as [y [c [-> [Hy Hc]]]].
    apply lang_class_inv in Hx. destruct Hx as [u [-> Hu]].
    apply lang_class_inv in Hy. destruct Hy as [v [-> Hv]].
    apply N.eqb_eq in Hu. apply N.eqb_eq in Hv. subst u v.
    apply lang_plus_class in Ha, Hb, Hc.
    destruct Ha as [Ha Fa], Hb as [Hb Fb], Hc as [Hc Fc].
    exists a, b, c. repeat split; auto.
    apply HF. rewrite !Forall_app. auto.
  - intros [a [b [c [-> [Ha [Hb [Hc HFabc]]]]]]].
    apply HF in HFabc. rewrite !Forall_app in HFabc.
    destruct HFabc as [Fa [Fb Fc]].
    apply lang_seq_inv. exists a, ([Form.AT] ++ b ++ [Form.DOT] ++ c).
    split; [reflexivity |]. split; [now apply lang_plus_class |].
    apply lang_seq_inv. exists [Form.AT], (b ++ [Form.DOT] ++ c).
    split; [reflexivity |]. split; [apply lang_class_inv; eauto |].
    apply lang_seq_inv. exists b, ([Form.DOT] ++ c).
    split; [reflexivity |]. split; [now apply lang_plus_class |].
    apply lang_seq_inv. exists [Form.DOT], c.
    split; [reflexivity |]. split; [apply lang_class_inv; eauto |].
    now apply lang_plus_class.
Qed.

Lemma trimStart_blank (s : list Form.code_unit) :
  Form.is_blank (Form.trimStart s) = true <-> forallb Form.is_space s = true.
Proof.
  induction s as [| c s IH]; cbn [Form.trimStart forallb]; [tauto |].
  destruct (Form.is_space c); cbn [andb Form.is_blank]; [exact IH | tauto].
Qed.

Lemma trimStart_head (s : list Form.code_unit) :
  match Form.trimStart s with
  | [] => True
  | c :: _ => Form.is_space c = false
  end.
Proof.
  induction s as [| c s IH]; cbn [Form.trimStart]; [exact I |].
  destruct (Form.is_space c) eqn:E; [exact IH | exact E].
Qed.

Lemma trimStart_keeps_last (l : list Form.code_unit) (c : Form.code_unit) :
  Form.is_space c = false -> Form.trimStart (l ++ [c]) <> [].
Proof.
  intros Hc. induction l as [| a l IH]; cbn [app Form.trimStart].
  - rewrite Hc. discriminate.
  - destruct (Form.is_space a); [exact IH | discriminate].
Qed.

Lemma trim_blank (s : list Form.code_unit) :
  Form.is_blank (Form.trim s) = true <-> forallb Form.is_space s = true.
Proof.
  rewrite <- trimStart_blank. unfold Form.trim.
  pose proof (trimStart_head s) as Hh.
  destruct (Form.trimStart s) as [| c t]; [cbn; tauto |].
  cbn [rev Form.is_blank].
  pose proof (trimStart_keeps_last (rev t) c Hh) as Hn.
  destruct (Form.trimStart (rev t ++ [c])) as [| x l]; [contradiction |].
  cbn [rev]. destruct (rev l); cbn; tauto.
Qed.

Lemma validate_nil (name email message : list Form.code_unit) :
  Form.validate name email message = []
  <-> Form.is_blank name = false
      /\ Form.isValidEmail email = true
      /\ Form.is_blank message = false.
Proof.
  unfold Form.validate.
  destruct (Form.is_blank name), (Form.is_blank email) eqn:Ee,
    (Form.isValidEmail email) eqn:Ev, (Form.is_blank message);
    cbn; split; intros H; try discriminate; try tauto;
    try (destruct H as [? [? ?]]; discriminate).
  destruct email; [discriminate Ev | discriminate Ee].
Qed.

(** X16: A submit of a form that is not being submitted, all of whose elements
    exist: it is accepted (the success state is shown and the form is marked
    as being submitted) exactly if the name and the message contain a
    character that is not white space and the address, white space at its
    ends removed, passes [isValidEmail]; otherwise at least one error is
    reported and no timeout is started. While an accepted form is being
    submitted every further submit is ignored; the 3 s timeout resets the
    form and accepts submits again. *)
Theorem contact_form_acceptance
  (name email message : list Form.code_unit) (s : Form.state) :
  Form.isSubmitting s = false ->
  exists s',
    Form.on_submit (Form.mkForm (Some name) (Some email) (Some message) true) s
    = Ok s'
    /\ (Form.isSubmitting s' = true
        <-> forallb Form.is_space name = false
            /\ Form.isValidEmail (Form.trim email) = true
            /\ forallb Form.is_space message = false)
    /\ (Form.isSubmitting s' = false ->
        Form.reported s' <> [] /\ Form.resetTimers s' = Form.resetTimers s)
    /\ (Form.isSubmitting s' = true ->
        Form.reported s' = []
        /\ (forall f, Form.on_submit f s' = Ok s')
        /\ Form.isSubmitting (Form.on_timeout s') = false
        /\ Form.resets (Form.on_timeout s') = S (Form.resets s)).
Proof.
  intros Hs. unfold Form.on_submit. rewrite Hs.
  cbn [deref bind Form.nameInput Form.emailInput Form.messageInput
         Form.submitBtn].
  assert (Hb : forall l, forallb Form.is_space l = false
                         <-> Form.is_blank (Form.trim l) = false).
  { intros l. pose proof (trim_blank l) as H.
    destruct (forallb Form.is_space l), (Form.is_blank (Form.trim l));
      intuition congruence. }
  destruct (Form.validate (Form.trim name) (Form.trim email) (Form.trim message))
    as [| e es] eqn:Ev.
  - apply validate_nil in Ev.
    eexists. split; [reflexivity |].
    cbn [Form.isSubmitting Form.reported Form.resetTimers Form.resets
           Form.on_timeout].
    rewrite !Hb.
    split; [tauto |]. split; [discriminate |]. intros _.
    repeat split.
  - eexists. split; [reflexivity |].
    cbn [Form.isSubmitting Form.reported Form.resetTimers Form.resets].
    rewrite !Hb.
    split; [| split; [intros _; split; [discriminate | reflexivity]
                     | discriminate]].
    split; [discriminate |]. intros H. apply validate_nil in H.
    rewrite H in Ev. discriminate.
Qed.

Lemma contact_form_example :
  Form.isSubmitting Form.init = false
  /\ exists s',
       Form.on_submit
         (Form.mkForm (Some (units " Sato ")) (Some (units " sato@example.jp "))
            (Some (units "Hello")) true) Form.init
       = Ok s'
       /\ Form.isSubmitting s' = true.
Proof.
  split; [reflexivity |].
  destruct (contact_form_acceptance (units " Sato ") (units " sato@example.jp ")
              (units "Hello") Form.init eq_refl) as [s' [H1 [H2 _]]].
  exists s'. split; [exact H1 |].
  apply H2. repeat split; reflexivity.
Defined.

(** ** Scroll handler: one update per frame *)

Lemma scroll_step_inv (e : Scroll.env) (ev : Scroll.event) (s : Scroll.state) :
  (Scroll.requested s <= 1)%nat ->
  Scroll.isScrolling s = (Scroll.requested s =? 1)%nat ->
  let s' := Scroll.step e ev s in
  (Scroll.requested s' <= 1)%nat
  /\ Scroll.isScrolling s' = (Scroll.requested s' =? 1)%nat
  /\ Scroll.updates s'
     = Scroll.updates s ++ Scroll.frames_after_scroll (Scroll.isScrolling s) [ev]
  /\ Scroll.isScrolling s'
     = match ev with Scroll.ScrollEvent => true | Scroll.Frame _ => false end.
Proof.
  intros Hle Hq. destruct s as [i q h b p u]. cbn in Hle, Hq. subst i.
  destruct ev as [| r]; cbn [Scroll.step Scroll.frames_after_scroll];
    unfold Scroll.handleScroll, Scroll.on_frame;
    destruct q as [| [| n]]; try lia; cbn; rewrite ?app_nil_r; auto.
Qed.

Lemma scroll_run_inv (e : Scroll.env) (evs : list Scroll.event) :
  forall s : Scroll.state,
    (Scroll.requested s <= 1)%nat ->
    Scroll.isScrolling s = (Scroll.requested s =? 1)%nat ->
    let s' := Scroll.run e evs s in
    (Scroll.requested s' <= 1)%nat
    /\ Scroll.isScrolling s' = (Scroll.requested s' =? 1)%nat
    /\ Scroll.updates s'
       = Scroll.updates s ++ Scroll.frames_after_scroll (Scroll.isScrolling s) evs.
Proof.
  induction evs as [| ev evs IH]; intros s Hle Hq.
  - cbn. rewrite app_nil_r. auto.
  - cbn [Scroll.run].
    destruct (scroll_step_inv e ev s Hle Hq) as [H1 [H2 [H3 H4]]].
    destruct (IH _ H1 H2) as [H5 [H6 H7]].
    split; [exact H5 |]. split; [exact H6 |].
    rewrite H7, H3, H4, <- app_assoc. f_equal.
    destruct ev as [| r]; cbn [Scroll.frames_after_scroll app];
      now rewrite ?app_nil_r.
Qed.

(** X17: However many scroll events arrive between two frames, at most one frame
    callback of [handleScroll] is waiting, [isScrolling] is set exactly
    while one is, and the page is updated once per frame that follows a
    scroll event, with the scroll position read in that frame. After such a
    frame the header is marked as scrolled iff that position is beyond
    50 px and the back-to-top button is shown iff it is beyond 500 px. *)
Theorem scroll_updates_once_per_frame (e : Scroll.env) (evs : list Scroll.event) :
  let s := Scroll.run e evs Scroll.start in
  (Scroll.requested s <= 1)%nat
  /\ Scroll.isScrolling s = (Scroll.requested s =? 1)%nat
  /\ Scroll.updates s = Scroll.frames_after_scroll true evs
  /\ forall r : Scroll.reading,
       let s' := Scroll.run e (evs ++ [Scroll.ScrollEvent; Scroll.Frame r])
                   Scroll.start in
       (Scroll.hasHeader e = true ->
        Scroll.headerScrolled s'
        = PrimFloat.ltb Scroll.HEADER_SCROLL_THRESHOLD (Scroll.scrollY r))
       /\ (Scroll.hasBackToTop e = true ->
           Scroll.backVisible s'
           = PrimFloat.ltb Scroll.BACK_TO_TOP_THRESHOLD (Scroll.scrollY r))
       /\ Scroll.isScrolling s' = false.
Proof.
  intros s.
  assert (H0 : (Scroll.requested Scroll.start <= 1)%nat
               /\ Scroll.isScrolling Scroll.start
                  = (Scroll.requested Scroll.start =? 1)%nat) by (cbn; auto).
  destruct H0 as [Hle Hq].
  destruct (scroll_run_inv e evs Scroll.start Hle Hq) as [H1 [H2 H3]].
  fold s in H1, H2, H3.
  split; [exact H1 |]. split; [exact H2 |]. split; [exact H3 |].
  intros r s'.
  assert (Hs' : s' = Scroll.on_frame e r (Scroll.handleScroll s)).
  { unfold s', s. generalize Scroll.start. clear.
    induction evs as [| ev evs IH]; intros s0; [reflexivity |].
    cbn [app Scroll.run]. apply IH. }
  clearbody s s'. subst s'. clear H3.
  destruct s as [i q h b p u]. cbn in H1, H2. subst i.
  unfold Scroll.on_frame, Scroll.handleScroll.
  destruct q as [| [| n]]; try lia; cbn; repeat split; intros ->; reflexivity.
Qed.

(** ** Focus trap *)

Lemma next_of_block (a : string) (bs post : list string) (d : string) :
  In a bs -> a <> last bs d ->
  exists b, FocusTrap.next_of a (bs ++ post) = Some b /\ In b bs.
Proof.
  induction bs as [| x bs IH]; intros Hin Hl; [contradiction |].
  cbn [app FocusTrap.next_of].
  destruct (String.eqb_spec x a) as [-> | Hx].
  - destruct bs as [| y bs]; [cbn in Hl; congruence |].
    exists y. split; [reflexivity | right; left; reflexivity].
  - destruct Hin as [-> | Hin]; [congruence |].
    destruct bs as [| y bs]; [contradiction |].
    destruct IH as [b [Hb Hib]]; [exact Hin | exact Hl |].
    exists b. split; [exact Hb | now right].
Qed.

Lemma next_of_skip (a : string) (pre l : list string) :
  ~ In a pre -> FocusTrap.next_of a (pre ++ l) = FocusTrap.next_of a l.
Proof.
  induction pre as [| x pre IH]; intros Hn; [reflexivity |].
  cbn [app FocusTrap.next_of].
  destruct (String.eqb_spec x a) as [-> | Hx].
  - exfalso. apply Hn. now left.
  - apply IH. intros H. apply Hn. now right.
Qed.

Lemma last_in {A : Type} (l : list A) (d : A) : l <> [] -> In (last l d) l.
Proof.
  induction l as [| x l IH]; [congruence |]. intros _.
  destruct l as [| y l]; [now left |].
  right. apply IH. discriminate.
Qed.

Lemma last_rev_cons {A : Type} (x : A) (l : list A) (d : A) :
  last (rev (x :: l)) d = x.
Proof. cbn [rev]. apply last_last. Qed.

Lemma NoDup_app_disjoint {A : Type} (l1 l2 : list A) (a : A) :
  NoDup (l1 ++ l2) -> In a l1 -> In a l2 -> False.
Proof.
  induction l1 as [| x l1 IH]; intros Hnd H1 H2; [contradiction |].
  cbn [app] in Hnd. inversion Hnd as [| ? ? Hx Hnd']; subst.
  destruct H1 as [-> | H1]; [| now apply IH].
  apply Hx. apply in_or_app. now right.
Qed.

Lemma press_tab_stays (pre buttons post : list string) (shiftKey : bool)
  (a : string) :
  NoDup (pre ++ buttons ++ post) ->
  In a buttons ->
  exists b, FocusTrap.press_tab (pre ++ buttons ++ post) buttons shiftKey (Some a)
            = Some b
            /\ In b buttons.
Proof.
  intros Hnd Hin.
  assert (Hpre : ~ In a pre).
  { intros H. apply (NoDup_app_disjoint _ _ a Hnd H).
    apply in_or_app. now left. }
  assert (Hpost : ~ In a post).
  { intros H. rewrite app_assoc in Hnd.
    apply (NoDup_app_disjoint _ _ a Hnd); [| exact H].
    apply in_or_app. now right. }
  destruct buttons as [| f bs]; [contradiction |].
  unfold FocusTrap.press_tab, FocusTrap.on_keydown.
  rewrite String.eqb_refl. cbv beta iota zeta. cbn [negb FocusTrap.is_active].
  assert (Hf0 : hd_error (f :: bs) = Some f) by reflexivity.
  set (B := f :: bs) in *.
  assert (Hne : B <> []) by discriminate.
  destruct shiftKey; cbn [andb negb].
  - destruct (String.eqb_spec a f) as [-> | Hf].
    + eexists. split; [reflexivity |]. now apply last_in.
    + cbn [FocusTrap.default_tab]. rewrite !rev_app_distr, <- app_assoc.
      rewrite next_of_skip by (now rewrite <- in_rev).
      destruct (next_of_block a (rev B) (rev pre) f) as [b [Hb Hib]].
      * now rewrite <- in_rev.
      * unfold B. rewrite last_rev_cons. exact Hf.
      * exists b. split; [exact Hb | now rewrite in_rev].
  - destruct (String.eqb_spec a (last B f)) as [-> | Hl].
    + exists f. split; [reflexivity |]. now left.
    + cbn [FocusTrap.default_tab]. rewrite next_of_skip by exact Hpre.
      destruct (next_of_block a B post f Hin Hl) as [b [Hb Hib]].
      exists b. split; [exact Hb | exact Hib].
Qed.

(** X18: Inside a lightbox whose enabled buttons are next to each other in the
    tab order of a page without duplicates, with the focus on one of them:
    however often Tab and Shift+Tab are pressed, the focus stays on one of
    the buttons. *)
Theorem focus_stays_in_lightbox
  (pre buttons post : list string) (shifts : list bool) (a : string) :
  NoDup (pre ++ buttons ++ post) ->
  In a buttons ->
  exists b,
    FocusTrap.presses (pre ++ buttons ++ post) buttons shifts (Some a) = Some b
    /\ In b buttons.
Proof.
  intros Hnd. revert a. induction shifts as [| sh shifts IH]; intros a Hin.
  - exists a. split; [reflexivity | exact Hin].
  - cbn [FocusTrap.presses].
    destruct (press_tab_stays pre buttons post sh a Hnd Hin) as [b [-> Hb]].
    now apply IH.
Qed.

Lemma focus_stays_example :
  NoDup (sample_before ++ lightbox_buttons ++ sample_after)
  /\ In "#lightboxNext"%string lightbox_buttons
  /\ exists b,
       FocusTrap.presses (sample_before ++ lightbox_buttons ++ sample_after)
         lightbox_buttons [false; false; true; true; true]
         (Some "#lightboxNext"%string)
       = Some b
       /\ In b lightbox_buttons.
Proof.
  assert (Hnd : NoDup (sample_before ++ lightbox_buttons ++ sample_after)).
  { cbn. repeat constructor; cbn; intuition discriminate. }
  assert (Hin : In "#lightboxNext"%string lightbox_buttons) by (cbn; auto).
  split; [exact Hnd | split; [exact Hin |]].
  exact (focus_stays_in_lightbox _ _ _ [false; false; true; true; true] _ Hnd Hin).
Defined.

(** ** Date display *)

Lemma padStart2_two_digits (n : Z) :
  0 <= n < 100 -> DateDisplay.padStart2 (show_Z n) = two_digits n.
Proof.
  intros Hn.
  assert (H : forallb (fun k => String.eqb
                                  (DateDisplay.padStart2 (show_Z (Z.of_nat k)))
                                  (two_digits (Z.of_nat k)))
                (seq 0 100) = true) by (vm_compute; reflexivity).
  rewrite forallb_forall in H.
  specialize (H (Z.to_nat n)). rewrite Z2Nat.id in H by lia.
  apply String.eqb_eq. apply H. apply in_seq. lia.
Qed.

(** X19: For every month and day of the calendar the date shown is [MM.DD]: the
    month counted from 1 and the day, each with exactly two decimal digits,
    a leading zero where needed. *)
Theorem heroDate_is_MM_DD (month date : Z) :
  0 <= month <= 11 ->
  1 <= date <= 31 ->
  DateDisplay.heroDate month date
  = (two_digits (month + 1) ++ "." ++ two_digits date)%string
  /\ String.length (DateDisplay.heroDate month date) = 5%nat.
Proof.
  intros Hm Hd. unfold DateDisplay.heroDate.
  rewrite !padStart2_two_digits by lia. split; reflexivity.
Qed.

Lemma heroDate_example :
  0 <= 2 <= 11 /\ 1 <= 7 <= 31 /\ DateDisplay.heroDate 2 7 = "03.07"%string.
Proof.
  assert (Hm : 0 <= 2 <= 11) by lia.
  assert (Hd : 1 <= 7 <= 31) by lia.
  split; [exact Hm | split; [exact Hd |]].
  exact (proj1 (heroDate_is_MM_DD 2 7 Hm Hd)).
Defined.

(** ** Loading: the initialisation runs once *)







